(** * A shallow embedding of the audio player in [music.py]

    The development follows the source file function by function.

    - [AudioTrack] is the metadata object built by probing a file.
    - [AudioThread.run], the streaming loop, is embedded twice from the same
      pieces ([open_session], [loop_body], [chunk_body]): as the total
      function [run], which returns the sequence of observable events of one
      session given the values of the shared fields it reads at each
      iteration, and as [thread_step], one atomic step of a thread living in
      the object store of the player.
    - [AudioPlayerWindow], the controller, is the record [Player]; each slot
      of the window is a function [Player -> Player].

    Python floats are rationals ([Q]); every float operation of the source is
    the exact operation followed by a rounding function [fl], which the code
    is parametric in.  [exact] is the instance that does not round.

    The two execution contexts are interleaved at the grain of the loop: a
    slot of the window runs as one step, a thread moves between slots in the
    steps of [thread_step], and a thread that is started runs up to its loop
    at once.  [thread.join()] lets the joined thread take its remaining steps
    ([join], [join_exits]); since [run] ends in [finally] with
    [self.player.playback_finished()], joining a live thread runs the
    completion handler of the controller before [stopPlayback] goes on.
    In [run], [pause_event.wait()] is a wait that returns: a thread paused
    for ever is a thread that takes no more steps.  In [thread_step] the
    thread that finds the event clear stays inside the wait until
    [pause_event.set()] notifies it ([event_set]); once notified it goes on
    with the iteration, whatever the event is by then.

    Widgets, icons, message boxes and logging are not state of the model; the
    message box opened by [show_error_message] is the event [EError], and
    calls into the widgets do not raise. *)

From Stdlib Require Import ZArith QArith Qround Qminmax Lia Lqa List Bool String Ascii Sorted.
From stdpp Require Import base list.
Import ListNotations.

Local Open Scope Z_scope.

(** ** Numbers *)

(** [int(x)] on a float, and the integer part kept by [astype]: truncation
    toward zero. *)
Definition Qtrunc (x : Q) : Z := Z.quot (Qnum x) (Z.pos (Qden x)).

Definition Qltb (a b : Q) : bool := negb (Qle_bool b a).

(** Python's [max(a, b)]: the first argument unless the second is strictly
    greater. *)
Definition py_max (a b : Q) : Q := if Qltb a b then b else a.

(** The rounding function that does not round. *)
Definition exact (q : Q) : Q := Qred q.

(** What the proofs need of a rounding function: it is monotone and leaves
    the integers of magnitude at most 2^53 alone, as rounding to the nearest
    binary64 number does. *)
Record rounding (fl : Q -> Q) : Prop := {
  fl_mono : forall a b : Q, (a <= b)%Q -> (fl a <= fl b)%Q;
  fl_int : forall z : Z, Z.abs z <= 2 ^ 53 -> (fl (inject_Z z) == inject_Z z)%Q
}.

(** Values of [np.int16]. *)
Definition int16 (z : Z) : Prop := -32768 <= z <= 32767.

(** Two's complement reduction to 16 bits. *)
Definition wrap16 (z : Z) : Z := (z + 32768) mod 65536 - 32768.

(** Saturation to the range of [np.int16]. *)
Definition clip16 (z : Z) : Z := Z.max (-32768) (Z.min 32767 z).

(** [x.astype(np.int16)] at one float: the fraction is dropped and the
    integer reduced to 16 bits. *)
Definition astype_int16 (x : Q) : Z := wrap16 (Qtrunc x).

(** ** Python sequences *)

(** [range(0, n, step)] *)
Definition py_range (n step : nat) : list nat :=
  map (fun k => (k * step)%nat) (seq 0 (Nat.div (n + step - 1) step)).

(** [data[i:j]] for non-negative [i <= j] *)
Definition py_slice {A} (l : list A) (i j : nat) : list A := take (j - i) (drop i l).

(** [data[k:]] for any integer [k]; a negative [k] counts from the end. *)
Definition py_slice_from {A} (l : list A) (k : Z) : list A :=
  if k <? 0 then drop (Z.to_nat (Z.max 0 (Z.of_nat (length l) + k))) l
  else drop (Z.to_nat k) l.

(** ** Sample data *)

(** One frame: a sample per channel. *)
Definition frame := list Z.

(** What [sf.read] returns: a vector for a mono file, a matrix otherwise. *)
Inductive ndarray :=
| Arr1 (samples : list Z)
| Arr2 (frames : list frame).

(** [if len(data.shape) == 1: data = np.expand_dims(data, axis=1)] *)
Definition expand_dims (a : ndarray) : list frame :=
  match a with
  | Arr1 s => map (fun x => [x]) s
  | Arr2 f => f
  end.

(** [np.zeros_like(chunk)] *)
Definition zeros_like (c : list frame) : list frame := map (map (fun _ => 0)) c.

Definition chunk_size : nat := 1024.

(** Python strings: sequences of code points. *)
Definition pstr := list N.

Definition pstr_of (s : string) : pstr := map N_of_ascii (list_ascii_of_string s).

(** ** The collaborators of the player

    The file system, the decoder, the audio device and the random number
    generator are outside the program; the code is parametric in them. *)
Record Tags := {
  tag_title : option pstr;
  tag_artist : option pstr;
  tag_album : option pstr
}.

Record Env := {
  (** [os.path.isfile] *)
  isfile : pstr -> bool;
  (** [sf.read(path, dtype='int16')]; [None] when it raises *)
  sf_read : pstr -> option (ndarray * positive);
  (** [len(f)] and [f.samplerate] of [sf.SoundFile(path)]; [None] when it raises *)
  sf_info : pstr -> option (Z * positive);
  (** [MutagenFile(path, easy=True)]; [None] when it raises or is falsy *)
  mutagen_file : pstr -> option Tags;
  (** whether [p.open] succeeds for the n-th thread created *)
  pyaudio_open : nat -> bool;
  (** whether [stream.write] succeeds for the chunk at an offset, per thread *)
  stream_write : nat -> nat -> bool;
  (** the raw values behind the successive calls of [random.randint] *)
  random_source : nat -> nat
}.

(** ** AudioThread: the fields shared with the controller *)

(** The control state of a thread: it has returned from [run], or it is in
    the [for] loop with the iterator of [range] holding [pending]; [waiting]
    says it is past the stop test of the iteration, inside
    [pause_event.wait()].  [Woken] is the thread that [pause_event.set()]
    has notified inside the wait: [wait()] returns for it, also when
    [pause_event.clear()] follows before it runs. *)
Inductive Phase :=
| Exited
| Streaming (samplerate : positive) (current_frame : Z) (data : list frame)
            (pending : list nat) (waiting : bool)
| Woken (samplerate : positive) (current_frame : Z) (data : list frame)
        (pending : list nat).

Record AudioThread := {
  stop_flag : bool;
  pause_event : bool;
  muted : bool;
  volume : Q;
  phase : Phase
}.

(** What a session does that can be observed from outside. *)
Inductive Event :=
| EError (message : string)
| EWrite (chunk : list frame)
| EPosition (millis : Q)
| EVisualize (chunk : list frame) (chunk_length : nat)
| ERelease
| EFinished.

Section Engine.

Variable fl : Q -> Q.
Variable env : Env.

(** [(chunk * current_volume).astype(np.int16)] *)
Definition scale_chunk (current_volume : Q) (c : list frame) : list frame :=
  map (map (fun s => astype_int16 (fl (inject_Z s * current_volume)))) c.

(** The chunk handed to [stream.write]: lines 100 to 104. *)
Definition process_chunk (self : AudioThread) (chunk : list frame) : list frame :=
  let chunk := if muted self then zeros_like chunk else chunk in
  let current_volume := volume self in
  scale_chunk current_volume chunk.

(** The position written after a chunk:
    [(current_frame + i + len(chunk)) / samplerate * 1000.0] *)
Definition position_after (samplerate : positive) (current_frame : Z) (i len : nat) : Q :=
  fl (fl (inject_Z (current_frame + Z.of_nat i + Z.of_nat len) / inject_Z (Z.pos samplerate)) * 1000).

(** An iteration of the loop from the statement after [pause_event.wait()]:
    the events it produces and whether the loop goes on. *)
Definition chunk_body (tid : nat) (self : AudioThread) (samplerate : positive)
    (current_frame : Z) (data : list frame) (i : nat) : list Event * bool :=
  let chunk := py_slice data i (i + chunk_size) in
  if (length chunk =? 0)%nat then ([], false)
  else
    let chunk := process_chunk self chunk in
    if stream_write env tid i then
      ([EWrite chunk;
        EPosition (position_after samplerate current_frame i (length chunk));
        EVisualize chunk (length chunk)], true)
    else ([EError "Playback error"], false).

(** A whole iteration: the stop test, the wait (which returns), the rest. *)
Definition loop_body (tid : nat) (self : AudioThread) (samplerate : positive)
    (current_frame : Z) (data : list frame) (i : nat) : list Event * bool :=
  if stop_flag self then ([], false)
  else chunk_body tid self samplerate current_frame data i.

(** [int((self.player.playback_position / 1000.0) * samplerate)] *)
Definition start_frame (playback_position : Q) (samplerate : positive) : Z :=
  Qtrunc (fl (fl (playback_position / 1000) * inject_Z (Z.pos samplerate))).

(** The part of [run] before the loop: the error message of a failed open, or
    the sample rate, the first frame and the data from that frame on. *)
Definition open_session (tid : nat) (audio_path : pstr) (playback_position : Q)
  : string + (positive * Z * list frame) :=
  if negb (isfile env audio_path) then inl "File not found"%string
  else
    match sf_read env audio_path with
    | None => inl "Error opening audio file"%string
    | Some (data, samplerate) =>
        let data := expand_dims data in
        if negb (pyaudio_open env tid) then inl "Error opening audio file"%string
        else
          let current_frame := start_frame playback_position samplerate in
          inr (samplerate, current_frame, py_slice_from data current_frame)
    end.

(** The [for] loop; [sched k] holds the shared fields as the k-th iteration
    reads them. *)
Fixpoint run_loop (tid : nat) (sched : nat -> AudioThread) (samplerate : positive)
    (current_frame : Z) (data : list frame) (pending : list nat) (k : nat)
  : list Event :=
  match pending with
  | [] => []
  | i :: rest =>
      let '(evs, continue) := loop_body tid (sched k) samplerate current_frame data i in
      evs ++ (if continue then run_loop tid sched samplerate current_frame data rest (S k)
              else [])
  end.

(** [AudioThread.run] for the thread [tid], playing [audio_path] from
    [playback_position]. *)
Definition run (tid : nat) (audio_path : pstr) (playback_position : Q)
    (sched : nat -> AudioThread) : list Event :=
  match open_session tid audio_path playback_position with
  | inl message => [EError message]
  | inr (samplerate, current_frame, data) =>
      run_loop tid sched samplerate current_frame data
               (py_range (length data) chunk_size) 0
      ++ [ERelease; EFinished]
  end.

End Engine.

(** ** AudioTrack *)

(** [oid] is the identity of the Python object: the class defines no
    [__eq__], so two tracks compare equal exactly when they are the same
    object. *)
Record AudioTrack := {
  oid : nat;
  path : pstr;
  name : pstr;
  title : pstr;
  artist : pstr;
  album : pstr;
  duration : Q
}.

Definition same_track (a b : AudioTrack) : bool := (oid a =? oid b)%nat.

(** [os.path.basename]: what follows the last slash. *)
Definition basename (p : pstr) : pstr :=
  fold_left (fun acc c => if (c =? 47)%N then [] else acc ++ [c]) p [].

(** ** Text files of paths *)

(** The characters [str.strip()] removes. *)
Definition is_space (c : N) : bool :=
  ((9 <=? c) && (c <=? 13) || (28 <=? c) && (c <=? 32) || (c =? 133) || (c =? 160)
   || (c =? 5760) || (8192 <=? c) && (c <=? 8202) || (c =? 8232) || (c =? 8233)
   || (c =? 8239) || (c =? 8287) || (c =? 12288))%N.

Fixpoint lstrip (s : pstr) : pstr :=
  match s with
  | [] => []
  | c :: rest => if is_space c then lstrip rest else s
  end.

Definition strip (s : pstr) : pstr := rev (lstrip (rev (lstrip s))).

(** Reading in text mode turns [\r\n] and [\r] into [\n]. *)
Fixpoint universal_newlines (s : pstr) : pstr :=
  match s with
  | [] => []
  | c :: rest =>
      if (c =? 13)%N then
        10%N :: match rest with
                | [] => []
                | d :: rest' =>
                    if (d =? 10)%N then universal_newlines rest'
                    else universal_newlines rest
                end
      else c :: universal_newlines rest
  end.

(** The lines of a text, each with its newline; [cur] is the line being read. *)
Fixpoint split_lines (s cur : pstr) : list pstr :=
  match s with
  | [] => match cur with [] => [] | _ => [cur] end
  | c :: rest =>
      if (c =? 10)%N then (cur ++ [10%N]) :: split_lines rest []
      else split_lines rest (cur ++ [c])
  end.

(** [f.readlines()] on a file holding [text] *)
Definition readlines (text : pstr) : list pstr := split_lines (universal_newlines text) [].

(** ** AudioPlayerWindow *)

(** The fields of the window the slots read and write, and three pieces of
    model state: [threads] is the store of every [AudioThread] object made so
    far ([audio_thread] refers into it), [next_oid] the number of
    [AudioTrack] objects made, [draws] the number of calls of
    [random.randint]; [output] collects the events of all threads. *)
Record Player := {
  tracks : list AudioTrack;
  currentTrackIndex : Z;
  currentTrack : option AudioTrack;
  playback_position : Q;
  audio_thread : option nat;
  shuffle : bool;
  repeat : bool;
  playback_history : list AudioTrack;
  volume_level : Z;
  pendingFiles : list pstr;
  threads : list AudioThread;
  next_oid : nat;
  draws : nat;
  output : list (nat * Event)
}.

(** The state [__init__] leaves. *)
Definition init_player : Player :=
  {| tracks := []; currentTrackIndex := -1; currentTrack := None;
     playback_position := 0; audio_thread := None; shuffle := false;
     repeat := false; playback_history := []; volume_level := 80;
     pendingFiles := []; threads := []; next_oid := 0; draws := 0;
     output := [] |}.

Definition set_tracks (v : list AudioTrack) (p : Player) : Player :=
  {| tracks := v; currentTrackIndex := currentTrackIndex p;
     currentTrack := currentTrack p; playback_position := playback_position p;
     audio_thread := audio_thread p; shuffle := shuffle p; repeat := repeat p;
     playback_history := playback_history p; volume_level := volume_level p;
     pendingFiles := pendingFiles p; threads := threads p;
     next_oid := next_oid p; draws := draws p; output := output p |}.

Definition set_currentTrackIndex (v : Z) (p : Player) : Player :=
  {| tracks := tracks p; currentTrackIndex := v;
     currentTrack := currentTrack p; playback_position := playback_position p;
     audio_thread := audio_thread p; shuffle := shuffle p; repeat := repeat p;
     playback_history := playback_history p; volume_level := volume_level p;
     pendingFiles := pendingFiles p; threads := threads p;
     next_oid := next_oid p; draws := draws p; output := output p |}.

Definition set_currentTrack (v : option AudioTrack) (p : Player) : Player :=
  {| tracks := tracks p; currentTrackIndex := currentTrackIndex p;
     currentTrack := v; playback_position := playback_position p;
     audio_thread := audio_thread p; shuffle := shuffle p; repeat := repeat p;
     playback_history := playback_history p; volume_level := volume_level p;
     pendingFiles := pendingFiles p; threads := threads p;
     next_oid := next_oid p; draws := draws p; output := output p |}.

Definition set_playback_position (v : Q) (p : Player) : Player :=
  {| tracks := tracks p; currentTrackIndex := currentTrackIndex p;
     currentTrack := currentTrack p; playback_position := v;
     audio_thread := audio_thread p; shuffle := shuffle p; repeat := repeat p;
     playback_history := playback_history p; volume_level := volume_level p;
     pendingFiles := pendingFiles p; threads := threads p;
     next_oid := next_oid p; draws := draws p; output := output p |}.

Definition set_audio_thread (v : option nat) (p : Player) : Player :=
  {| tracks := tracks p; currentTrackIndex := currentTrackIndex p;
     currentTrack := currentTrack p; playback_position := playback_position p;
     audio_thread := v; shuffle := shuffle p; repeat := repeat p;
     playback_history := playback_history p; volume_level := volume_level p;
     pendingFiles := pendingFiles p; threads := threads p;
     next_oid := next_oid p; draws := draws p; output := output p |}.

Definition set_shuffle (v : bool) (p : Player) : Player :=
  {| tracks := tracks p; currentTrackIndex := currentTrackIndex p;
     currentTrack := currentTrack p; playback_position := playback_position p;
     audio_thread := audio_thread p; shuffle := v; repeat := repeat p;
     playback_history := playback_history p; volume_level := volume_level p;
     pendingFiles := pendingFiles p; threads := threads p;
     next_oid := next_oid p; draws := draws p; output := output p |}.

Definition set_repeat (v : bool) (p : Player) : Player :=
  {| tracks := tracks p; currentTrackIndex := currentTrackIndex p;
     currentTrack := currentTrack p; playback_position := playback_position p;
     audio_thread := audio_thread p; shuffle := shuffle p; repeat := v;
     playback_history := playback_history p; volume_level := volume_level p;
     pendingFiles := pendingFiles p; threads := threads p;
     next_oid := next_oid p; draws := draws p; output := output p |}.

Definition set_playback_history (v : list AudioTrack) (p : Player) : Player :=
  {| tracks := tracks p; currentTrackIndex := currentTrackIndex p;
     currentTrack := currentTrack p; playback_position := playback_position p;
     audio_thread := audio_thread p; shuffle := shuffle p; repeat := repeat p;
     playback_history := v; volume_level := volume_level p;
     pendingFiles := pendingFiles p; threads := threads p;
     next_oid := next_oid p; draws := draws p; output := output p |}.

Definition set_volume_level (v : Z) (p : Player) : Player :=
  {| tracks := tracks p; currentTrackIndex := currentTrackIndex p;
     currentTrack := currentTrack p; playback_position := playback_position p;
     audio_thread := audio_thread p; shuffle := shuffle p; repeat := repeat p;
     playback_history := playback_history p; volume_level := v;
     pendingFiles := pendingFiles p; threads := threads p;
     next_oid := next_oid p; draws := draws p; output := output p |}.

Definition set_pendingFiles (v : list pstr) (p : Player) : Player :=
  {| tracks := tracks p; currentTrackIndex := currentTrackIndex p;
     currentTrack := currentTrack p; playback_position := playback_position p;
     audio_thread := audio_thread p; shuffle := shuffle p; repeat := repeat p;
     playback_history := playback_history p; volume_level := volume_level p;
     pendingFiles := v; threads := threads p;
     next_oid := next_oid p; draws := draws p; output := output p |}.

Definition set_threads (v : list AudioThread) (p : Player) : Player :=
  {| tracks := tracks p; currentTrackIndex := currentTrackIndex p;
     currentTrack := currentTrack p; playback_position := playback_position p;
     audio_thread := audio_thread p; shuffle := shuffle p; repeat := repeat p;
     playback_history := playback_history p; volume_level := volume_level p;
     pendingFiles := pendingFiles p; threads := v;
     next_oid := next_oid p; draws := draws p; output := output p |}.

Definition set_next_oid (v : nat) (p : Player) : Player :=
  {| tracks := tracks p; currentTrackIndex := currentTrackIndex p;
     currentTrack := currentTrack p; playback_position := playback_position p;
     audio_thread := audio_thread p; shuffle := shuffle p; repeat := repeat p;
     playback_history := playback_history p; volume_level := volume_level p;
     pendingFiles := pendingFiles p; threads := threads p;
     next_oid := v; draws := draws p; output := output p |}.

Definition set_draws (v : nat) (p : Player) : Player :=
  {| tracks := tracks p; currentTrackIndex := currentTrackIndex p;
     currentTrack := currentTrack p; playback_position := playback_position p;
     audio_thread := audio_thread p; shuffle := shuffle p; repeat := repeat p;
     playback_history := playback_history p; volume_level := volume_level p;
     pendingFiles := pendingFiles p; threads := threads p;
     next_oid := next_oid p; draws := v; output := output p |}.

Definition set_output (v : list (nat * Event)) (p : Player) : Player :=
  {| tracks := tracks p; currentTrackIndex := currentTrackIndex p;
     currentTrack := currentTrack p; playback_position := playback_position p;
     audio_thread := audio_thread p; shuffle := shuffle p; repeat := repeat p;
     playback_history := playback_history p; volume_level := volume_level p;
     pendingFiles := pendingFiles p; threads := threads p;
     next_oid := next_oid p; draws := draws p; output := v |}.

(** Updates of a thread object in the store. *)
Definition with_phase (ph : Phase) (t : AudioThread) : AudioThread :=
  {| stop_flag := stop_flag t; pause_event := pause_event t; muted := muted t;
     volume := volume t; phase := ph |}.

Definition with_stop_flag (v : bool) (t : AudioThread) : AudioThread :=
  {| stop_flag := v; pause_event := pause_event t; muted := muted t;
     volume := volume t; phase := phase t |}.

Definition with_pause_event (v : bool) (t : AudioThread) : AudioThread :=
  {| stop_flag := stop_flag t; pause_event := v; muted := muted t;
     volume := volume t; phase := phase t |}.

Definition with_muted (v : bool) (t : AudioThread) : AudioThread :=
  {| stop_flag := stop_flag t; pause_event := pause_event t; muted := v;
     volume := volume t; phase := phase t |}.

Definition with_volume (v : Q) (t : AudioThread) : AudioThread :=
  {| stop_flag := stop_flag t; pause_event := pause_event t; muted := muted t;
     volume := v; phase := phase t |}.

(** [pause_event.set()]: the flag is set and the thread inside
    [pause_event.wait()] is notified. *)
Definition event_set (t : AudioThread) : AudioThread :=
  with_pause_event true
    match phase t with
    | Streaming samplerate current_frame data pending true =>
        with_phase (Woken samplerate current_frame data pending) t
    | _ => t
    end.

Definition update_thread (tid : nat) (f : AudioThread -> AudioThread) (p : Player) : Player :=
  set_threads (alter f tid (threads p)) p.

Section Controller.

Variable fl : Q -> Q.
Variable env : Env.

(** [AudioTrack.extract_metadata] *)
Definition extract_metadata (path name : pstr) : pstr * pstr * pstr :=
  match mutagen_file env path with
  | Some audio =>
      (default name (tag_title audio),
       default (pstr_of "Unknown Artist") (tag_artist audio),
       default (pstr_of "Unknown Album") (tag_album audio))
  | None => (name, pstr_of "Unknown Artist", pstr_of "Unknown Album")
  end.

(** [AudioTrack.get_duration] *)
Definition get_duration (path : pstr) : Q :=
  match sf_info env path with
  | Some (frames, samplerate) => fl (inject_Z frames / inject_Z (Z.pos samplerate))
  | None => 0
  end.

(** [AudioTrack(path)], the object number [o]. *)
Definition AudioTrack_new (o : nat) (path : pstr) : AudioTrack :=
  let name := basename path in
  let '(title, artist, album) := extract_metadata path name in
  {| oid := o; path := path; name := name; title := title; artist := artist;
     album := album; duration := get_duration path |}.

(** [self.tracks.append(AudioTrack(f))] *)
Definition append_track (f : pstr) (p : Player) : Player :=
  set_next_oid (S (next_oid p))
    (set_tracks (tracks p ++ [AudioTrack_new (next_oid p) f]) p).

(** What a thread reports: events go to [output], and a position is stored
    in [playback_position]. *)
Definition observe (tid : nat) (evs : list Event) (p : Player) : Player :=
  fold_left
    (fun p ev =>
       let p := set_output (output p ++ [(tid, ev)]) p in
       match ev with
       | EPosition q => set_playback_position q p
       | _ => p
       end)
    evs p.

(** [addToHistory]; [playback_history] is a [deque(maxlen=100)], whose
    [appendleft] drops the last entry when it is full. *)
Definition addToHistory (track : AudioTrack) (p : Player) : Player :=
  if existsb (same_track track) (playback_history p) then p
  else set_playback_history (take 100 (track :: playback_history p)) p.

(** [AudioThread(self)]: the object [__init__] builds. *)
Definition AudioThread_init (p : Player) : AudioThread :=
  {| stop_flag := false; pause_event := true; muted := false;
     volume := fl (inject_Z (volume_level p) / 100); phase := Exited |}.

(** Where [run] stands when it reaches the loop, and what it has reported. *)
Definition start_phase (tid : nat) (p : Player) : Phase * list Event :=
  match currentTrack p with
  | None => (Exited, [])
  | Some trk =>
      match open_session fl env tid (path trk) (playback_position p) with
      | inl message => (Exited, [EError message])
      | inr (samplerate, current_frame, data) =>
          (Streaming samplerate current_frame data
                     (py_range (length data) chunk_size) false, [])
      end
  end.

(** [self.audio_thread = AudioThread(self); self.audio_thread.start()]: the
    new thread is put in the store and runs up to its loop. *)
Definition spawn (p : Player) : Player :=
  let tid := length (threads p) in
  let '(ph, evs) := start_phase tid p in
  let p := set_threads (threads p ++ [with_phase ph (AudioThread_init p)]) p in
  let p := set_audio_thread (Some tid) p in
  observe tid evs p.

(** [playCurrentTrack] from the statement after [self.stopPlayback()]. *)
Definition start_current (p : Player) : Player :=
  if negb ((0 <=? currentTrackIndex p)
           && (currentTrackIndex p <? Z.of_nat (length (tracks p)))) then p
  else
    match tracks p !! Z.to_nat (currentTrackIndex p) with
    | None => p
    | Some trk =>
        let p := set_currentTrack (Some trk) p in
        let p := spawn p in
        addToHistory trk p
    end.

(** [random.randint(0, n - 1)] for [n > 0] *)
Definition randint (n : nat) (p : Player) : Z * Player :=
  (Z.of_nat (random_source env (draws p) mod n), set_draws (S (draws p)) p).

(** [nextTrack], with [play] for its call of [self.playCurrentTrack()]. *)
Definition nextTrack_with (play : Player -> Player) (p : Player) : Player :=
  if (0 <? length (tracks p))%nat then
    let p :=
      if shuffle p then
        let '(r, p) := randint (length (tracks p)) p in
        set_currentTrackIndex r p
      else
        set_currentTrackIndex
          ((currentTrackIndex p + 1) mod Z.of_nat (length (tracks p))) p in
    let p := set_playback_position 0 p in
    play p
  else p.

(** [playback_finished].  It clears [audio_thread] first, so the
    [stopPlayback] at the head of the [playCurrentTrack] it reaches does
    nothing: [playback_finished_unfold] below states it with
    [playCurrentTrack] and [nextTrack] themselves. *)
Definition playback_finished (p : Player) : Player :=
  let p := set_audio_thread None p in
  if repeat p then start_current p
  else nextTrack_with start_current p.

(** The [finally] block of [run]. *)
Definition finalize (tid : nat) (p : Player) : Player :=
  let p := observe tid [ERelease; EFinished] p in
  let p := update_thread tid (with_phase Exited) p in
  playback_finished p.

(** One step of the thread [tid]: up to the wait, or from the wait to the
    head of the next iteration, or out of the loop and through [finally].
    A thread inside the wait whose event is clear stays there; the thread
    that [pause_event.set()] has notified goes on with its iteration without
    another look at the event or at the stop flag. *)
Definition thread_step (tid : nat) (p : Player) : Player :=
  match threads p !! tid with
  | None => p
  | Some self =>
      match phase self with
      | Exited => p
      | Streaming samplerate current_frame data pending waiting =>
          match pending with
          | [] => finalize tid p
          | i :: rest =>
              if negb waiting && stop_flag self then finalize tid p
              else if negb (pause_event self) then
                update_thread tid
                  (with_phase (Streaming samplerate current_frame data pending true)) p
              else
                let '(evs, continue) :=
                  chunk_body fl env tid self samplerate current_frame data i in
                let p := observe tid evs p in
                if continue then
                  update_thread tid
                    (with_phase (Streaming samplerate current_frame data rest false)) p
                else finalize tid p
          end
      | Woken samplerate current_frame data pending =>
          match pending with
          | [] => finalize tid p
          | i :: rest =>
              let '(evs, continue) :=
                chunk_body fl env tid self samplerate current_frame data i in
              let p := observe tid evs p in
              if continue then
                update_thread tid
                  (with_phase (Streaming samplerate current_frame data rest false)) p
              else finalize tid p
          end
      end
  end.

(** [thread.join()] once [stop_flag] and [pause_event] are set: the thread
    finishes the iteration it may have been waiting in and leaves the loop at
    the next stop test ([join_exits]). *)
Definition join (tid : nat) (p : Player) : Player :=
  thread_step tid (thread_step tid p).

(** [stopPlayback] *)
Definition stopPlayback (p : Player) : Player :=
  match audio_thread p with
  | None => p
  | Some tid =>
      let p := update_thread tid (with_stop_flag true) p in
      let p := update_thread tid event_set p in
      let p := join tid p in
      set_audio_thread None p
  end.

(** [playCurrentTrack] *)
Definition playCurrentTrack (p : Player) : Player :=
  start_current (stopPlayback p).

(** [nextTrack] *)
Definition nextTrack (p : Player) : Player := nextTrack_with playCurrentTrack p.

(** [prevTrack] *)
Definition prevTrack (p : Player) : Player :=
  if (0 <? length (tracks p))%nat then
    let p := set_currentTrackIndex
               ((currentTrackIndex p - 1) mod Z.of_nat (length (tracks p))) p in
    let p := set_playback_position 0 p in
    playCurrentTrack p
  else p.

(** [openFileDialog], the dialog returning [files] *)
Definition openFileDialog (files : list pstr) (p : Player) : Player :=
  set_pendingFiles files p.

(** [addSelectedFiles] *)
Definition addSelectedFiles (p : Player) : Player :=
  match pendingFiles p with
  | [] => p
  | files => set_pendingFiles [] (fold_left (fun p f => append_track f p) files p)
  end.

(** Whether [pause_event] of the current thread is set. *)
Definition pause_is_set (tid : nat) (p : Player) : bool :=
  match threads p !! tid with
  | Some t => pause_event t
  | None => false
  end.

(** [togglePlayPause] *)
Definition togglePlayPause (p : Player) : Player :=
  if currentTrackIndex p <? 0 then
    if (0 <? length (tracks p))%nat then
      playCurrentTrack (set_currentTrackIndex 0 p)
    else p
  else
    match audio_thread p with
    | None => playCurrentTrack p
    | Some tid =>
        if pause_is_set tid p then update_thread tid (with_pause_event false) p
        else update_thread tid event_set p
    end.

(** [rewind15] *)
Definition rewind15 (p : Player) : Player :=
  let p := set_playback_position (py_max 0 (fl (playback_position p - 15000))) p in
  match audio_thread p with
  | Some _ => playCurrentTrack p
  | None => p
  end.

(** [forward15] *)
Definition forward15 (p : Player) : Player :=
  match currentTrack p with
  | None => p
  | Some trk =>
      let new_position := fl (playback_position p + 15000) in
      if Qltb new_position (fl (duration trk * 1000)) then
        let p := set_playback_position new_position p in
        match audio_thread p with
        | Some _ => playCurrentTrack p
        | None => p
        end
      else p
  end.

(** [changeVolume] *)
Definition changeVolume (value : Z) (p : Player) : Player :=
  let p := set_volume_level value p in
  match audio_thread p with
  | None => p
  | Some tid =>
      match threads p !! tid with
      | None => p
      | Some t =>
          if negb (muted t) then
            update_thread tid (with_volume (fl (inject_Z value / 100))) p
          else p
      end
  end.

(** [toggleMute] *)
Definition toggleMute (p : Player) : Player :=
  match audio_thread p with
  | None => p
  | Some tid => update_thread tid (fun t => with_muted (negb (muted t)) t) p
  end.

(** [toggleShuffle] and [toggleRepeat], the button being [checked] *)
Definition toggleShuffle (checked : bool) (p : Player) : Player := set_shuffle checked p.

Definition toggleRepeat (checked : bool) (p : Player) : Player := set_repeat checked p.

(** [onSeekEnd], the slider standing at [slider_val] *)
Definition onSeekEnd (slider_val : Z) (p : Player) : Player :=
  match currentTrack p with
  | None => p
  | Some trk =>
      let pos_ms := Qtrunc (fl (fl (fl (inject_Z slider_val / 1000) * duration trk) * 1000)) in
      let p := set_playback_position (inject_Z pos_ms) p in
      match audio_thread p with
      | Some _ => playCurrentTrack p
      | None => p
      end
  end.

(** [self.tracks.index(track)]; [None] stands for [ValueError]. *)
Fixpoint index_of (track : AudioTrack) (l : list AudioTrack) : option nat :=
  match l with
  | [] => None
  | t :: rest => if same_track t track then Some 0%nat
                 else option_map S (index_of track rest)
  end.

(** [playHistoryTrack], [index] being the row of the item; the [ValueError]
    of a track no longer in the playlist leaves the slot before any
    assignment. *)
Definition playHistoryTrack (index : nat) (p : Player) : Player :=
  match playback_history p !! index with
  | None => p
  | Some track =>
      match index_of track (tracks p) with
      | None => p
      | Some k =>
          let p := set_currentTrackIndex (Z.of_nat k) p in
          let p := set_playback_position 0 p in
          playCurrentTrack p
      end
  end.

(** What [savePlaylist] writes, when it writes: a line per track. *)
Definition playlist_text (l : list AudioTrack) : pstr :=
  concat (map (fun track => path track ++ [10%N]) l).

(** [savePlaylist]: the text of the file that was written, if any.  The
    player itself does not change. *)
Definition savePlaylist (p : Player) : option pstr :=
  match tracks p with
  | [] => None
  | l => Some (playlist_text l)
  end.

(** [loadPlaylist], the chosen file holding [text] *)
Definition loadPlaylist (text : pstr) (p : Player) : Player :=
  let lines := readlines text in
  let p := set_tracks [] p in
  fold_left
    (fun p line =>
       let path := strip line in
       if isfile env path then append_track path p else p)
    lines p.

(** [playSelectedTrack], [index] being the row of the item *)
Definition playSelectedTrack (index : nat) (p : Player) : Player :=
  if (index <? length (tracks p))%nat then
    let p := set_currentTrackIndex (Z.of_nat index) p in
    let p := set_playback_position 0 p in
    playCurrentTrack p
  else p.

(** [removeTrackAt], [row] being the row under the pointer, -1 for none *)
Definition removeTrackAt (row : Z) (p : Player) : Player :=
  if (0 <=? row) && (row <? Z.of_nat (length (tracks p))) then
    let p := set_tracks (delete (Z.to_nat row) (tracks p)) p in
    if row =? currentTrackIndex p then stopPlayback p
    else if row <? currentTrackIndex p then
      set_currentTrackIndex (currentTrackIndex p - 1) p
    else p
  else p.

(** [jumpToTrackByNumber] *)
Definition jumpToTrackByNumber (track_number : Z) (p : Player) : Player :=
  if (1 <=? track_number) && (track_number <=? Z.of_nat (length (tracks p))) then
    let p := set_currentTrackIndex (track_number - 1) p in
    let p := set_playback_position 0 p in
    playCurrentTrack p
  else p.

(** [closeEvent] *)
Definition closeEvent (p : Player) : Player := stopPlayback p.

End Controller.

(** ** The player as a transition system *)

(** What can happen to the player: a slot is called, or a thread moves. *)
Inductive Action :=
| OpenFileDialog (files : list pstr)
| AddSelectedFiles
| TogglePlayPause
| PrevTrack
| NextTrack
| Rewind15
| Forward15
| ChangeVolume (value : Z)
| ToggleMute
| ToggleShuffle (checked : bool)
| ToggleRepeat (checked : bool)
| OnSeekEnd (slider_val : Z)
| PlayHistoryTrack (index : nat)
| LoadPlaylist (text : pstr)
| PlaySelectedTrack (index : nat)
| RemoveTrackAt (row : Z)
| JumpToTrackByNumber (track_number : Z)
| CloseEvent
| ThreadStep (tid : nat).

Definition exec (fl : Q -> Q) (env : Env) (a : Action) (p : Player) : Player :=
  match a with
  | OpenFileDialog files => openFileDialog files p
  | AddSelectedFiles => addSelectedFiles fl env p
  | TogglePlayPause => togglePlayPause fl env p
  | PrevTrack => prevTrack fl env p
  | NextTrack => nextTrack fl env p
  | Rewind15 => rewind15 fl env p
  | Forward15 => forward15 fl env p
  | ChangeVolume value => changeVolume fl value p
  | ToggleMute => toggleMute p
  | ToggleShuffle checked => toggleShuffle checked p
  | ToggleRepeat checked => toggleRepeat checked p
  | OnSeekEnd slider_val => onSeekEnd fl env slider_val p
  | PlayHistoryTrack index => playHistoryTrack fl env index p
  | LoadPlaylist text => loadPlaylist fl env text p
  | PlaySelectedTrack index => playSelectedTrack fl env index p
  | RemoveTrackAt row => removeTrackAt fl env row p
  | JumpToTrackByNumber track_number => jumpToTrackByNumber fl env track_number p
  | CloseEvent => closeEvent fl env p
  | ThreadStep tid => thread_step fl env tid p
  end.

(** The player after a sequence of actions, the first of the list first. *)
Definition exec_all (fl : Q -> Q) (env : Env) (l : list Action) (p : Player) : Player :=
  fold_left (fun p a => exec fl env a p) l p.

(** The states the player can be in. *)
Inductive reachable (fl : Q -> Q) (env : Env) : Player -> Prop :=
| reachable_init : reachable fl env init_player
| reachable_exec a p : reachable fl env p -> reachable fl env (exec fl env a p).

(** ** Observations on a trace *)

(** The chunks handed to the device, in order. *)
Definition written_chunks (t : list Event) : list (list frame) :=
  omap (fun e => match e with EWrite c => Some c | _ => None end) t.

(** The arguments of the calls of [update_visualization], in order. *)
Definition visualized (t : list Event) : list (list frame * nat) :=
  omap (fun e => match e with EVisualize c n => Some (c, n) | _ => None end) t.

Definition is_finished (e : Event) : bool :=
  match e with EFinished => true | _ => false end.

Definition is_error (e : Event) : bool :=
  match e with EError _ => true | _ => false end.

(** How often the completion callback was called. *)
Definition completions (t : list Event) : nat := length (List.filter is_finished t).

(** ** Invariants *)


(** The history holds at most 100 tracks, no object twice. *)
Definition history_ok (p : Player) : Prop :=
  (length (playback_history p) <= 100)%nat /\ NoDup (map oid (playback_history p)).

(** What the streaming loop reads of a thread to shape a chunk. *)
Definition gain_state (t : AudioThread) : bool * Q := (muted t, volume t).

(** What starting, stopping and stepping sessions do to a player, whichever
    of them it is: the playlist and the volume setting stay, the index stays
    or becomes an index into the playlist, the history stays well formed, no
    existing thread changes its mute flag or its gain, and a thread that is
    new is unmuted and has the volume setting as its gain. *)
Record evolves (fl : Q -> Q) (p p' : Player) : Prop := {
  ev_tracks : tracks p' = tracks p;
  ev_index : currentTrackIndex p' = currentTrackIndex p
             \/ 0 <= currentTrackIndex p' < Z.of_nat (length (tracks p));
  ev_volume_level : volume_level p' = volume_level p;
  ev_history : history_ok p -> history_ok p';
  ev_length : (length (threads p) <= length (threads p'))%nat;
  ev_old_threads : forall tid, (tid < length (threads p))%nat ->
      gain_state <$> threads p' !! tid = gain_state <$> threads p !! tid;
  ev_new_threads : forall tid t, (length (threads p) <= tid)%nat ->
      threads p' !! tid = Some t ->
      muted t = false /\ volume t = fl (inject_Z (volume_level p) / 100)%Q
}.

(** The actions that leave the playlist and the volume setting alone. *)
Definition plays (a : Action) : bool :=
  match a with
  | AddSelectedFiles | ChangeVolume _ | ToggleMute | LoadPlaylist _ | RemoveTrackAt _ => false
  | _ => true
  end.

(** ** Restarting a session *)

(** The part of the player a session start reads and leaves alone. *)
Definition transport (p : Player)
  : list AudioTrack * Z * option AudioTrack * Q * bool * bool * Z :=
  (tracks p, currentTrackIndex p, currentTrack p, playback_position p,
   repeat p, shuffle p, volume_level p).

(** The thread object [spawn] puts in the store for the player [p], as the
    thread number [tid]: fresh flags, the gain of the volume setting, and
    the loop entered at the frame of the current position, or the exit of a
    failed open. *)
Definition session_of (fl : Q -> Q) (env : Env) (tid : nat) (p : Player) : AudioThread :=
  with_phase (fst (start_phase fl env tid p)) (AudioThread_init fl p).








(** ** What the specification says where the code differs *)

(** The chunk after muting and before the gain, which the specification
    names as the argument of the visualization callback. *)
Definition pre_gain_chunk (self : AudioThread) (chunk : list frame) : list frame :=
  if muted self then zeros_like chunk else chunk.


(** The history the specification gives when a track already in it is
    played again: the entry moves to the front. *)
Definition moved_to_front (track : AudioTrack) (h : list AudioTrack) : list AudioTrack :=
  track :: List.filter (fun t => negb (same_track track t)) h.

(** A path that a line of a text file can carry: no line break in it and no
    white space at its ends. *)
Definition line_safe (s : pstr) : Prop :=
  strip s = s /\ ~ In 10%N s /\ ~ In 13%N s.

(** ** A small world to run the player in

    Three audio files: [a.wav], mono, 2000 frames at 8000 Hz, a quarter of a
    second, every sample 100; [b.wav], one stereo frame; [long.wav], mono,
    2000 frames of silence at 100 Hz, twenty seconds.  A fourth file whose name starts
    with a blank.  The device never fails and the random source is
    constantly zero. *)
Definition path_a : pstr := pstr_of "a.wav".
Definition path_b : pstr := pstr_of "b.wav".
Definition path_c : pstr := pstr_of " c.wav".
Definition path_long : pstr := pstr_of "long.wav".

Definition pstr_eqb (a b : pstr) : bool := bool_decide (a = b).

Definition env_demo : Env :=
  {| isfile := fun f => pstr_eqb f path_a || pstr_eqb f path_b || pstr_eqb f path_c
                        || pstr_eqb f path_long;
     sf_read := fun f =>
       if pstr_eqb f path_a then Some (Arr1 (replicate 2000 100), 8000%positive)
       else if pstr_eqb f path_b then Some (Arr2 [[100; -100]], 8000%positive)
       else if pstr_eqb f path_long
            then Some (Arr1 (replicate 2000 0), 100%positive)
       else None;
     sf_info := fun f =>
       if pstr_eqb f path_a then Some (2000, 8000%positive)
       else if pstr_eqb f path_b then Some (1, 8000%positive)
       else if pstr_eqb f path_long then Some (2000, 100%positive)
       else None;
     mutagen_file := fun _ => None;
     pyaudio_open := fun _ => true;
     stream_write := fun _ _ => true;
     random_source := fun _ => 0%nat |}.

(** The same world with a device that takes the first chunk of a session
    and fails on the later ones. *)
Definition env_flaky : Env :=
  {| isfile := isfile env_demo; sf_read := sf_read env_demo;
     sf_info := sf_info env_demo; mutagen_file := mutagen_file env_demo;
     pyaudio_open := pyaudio_open env_demo;
     stream_write := fun _ i => (i <? 1024)%nat;
     random_source := random_source env_demo |}.

(** The same world after [b.wav] was deleted. *)
Definition env_without_b : Env :=
  {| isfile := fun f => isfile env_demo f && negb (pstr_eqb f path_b);
     sf_read := sf_read env_demo; sf_info := sf_info env_demo;
     mutagen_file := mutagen_file env_demo; pyaudio_open := pyaudio_open env_demo;
     stream_write := stream_write env_demo;
     random_source := random_source env_demo |}.

(** A thread object with the given mute flag and gain. *)
Definition thread_with (m : bool) (g : Q) : AudioThread :=
  {| stop_flag := false; pause_event := true; muted := m; volume := g; phase := Exited |}.

(** The player with [a.wav] in the playlist and playing. *)
Definition playing_a : Player :=
  exec_all exact env_demo
    [OpenFileDialog [path_a]; AddSelectedFiles; TogglePlayPause] init_player.

(** The same with repeat switched on before playing. *)
Definition repeating_a : Player :=
  exec_all exact env_demo
    [OpenFileDialog [path_a]; AddSelectedFiles; ToggleRepeat true; TogglePlayPause]
    init_player.

(** Both files in the playlist, repeat on, [a.wav] played, then [b.wav]. *)
Definition played_a_then_b : Player :=
  exec_all exact env_demo
    [OpenFileDialog [path_a; path_b]; AddSelectedFiles; ToggleRepeat true;
     PlaySelectedTrack 0; PlaySelectedTrack 1] init_player.

(** [a.wav] playing, muted, and the volume slider moved to 20 meanwhile. *)
Definition muted_then_turned_down : Player :=
  exec_all exact env_demo [ToggleMute; ChangeVolume 20] playing_a.

(** Both files in the playlist, repeat off, [a.wav] playing, one chunk
    written. *)
Definition one_chunk_into_a : Player :=
  exec_all exact env_demo
    [OpenFileDialog [path_a; path_b]; AddSelectedFiles; TogglePlayPause; ThreadStep 0]
    init_player.

(** [long.wav] in the playlist and playing, repeat on. *)
Definition repeating_long : Player :=
  exec_all exact env_demo
    [OpenFileDialog [path_long]; AddSelectedFiles; ToggleRepeat true; TogglePlayPause]
    init_player.


(** [long.wav] playing with repeat on, then paused, its thread inside the
    wait in front of the first chunk. *)
Definition paused_long : Player :=
  exec_all exact env_demo [TogglePlayPause; ThreadStep 0] repeating_long.

(** The file with the blank in its name, added to the playlist. *)
Definition listing_c : Player :=
  exec_all exact env_demo [OpenFileDialog [path_c]; AddSelectedFiles] init_player.

(** The player holds the thread [tid], which is in its loop between two
    chunks. *)
Definition live_between_chunks (p : Player) (tid : nat) : Prop :=
  exists t sr cf data pending,
    audio_thread p = Some tid /\ threads p !! tid = Some t /\
    phase t = Streaming sr cf data pending false.

(** ** The history list of the window

    [addToHistory] also appends a line to the [historyList] widget, and
    [playHistoryTrack] takes the row of the line that was clicked as an
    index into the deque.  [rows] holds, for each line of the widget, the
    track the line was made from. *)
Record HistoryView := {
  deque : list AudioTrack;
  rows : list AudioTrack
}.

(** [addToHistory] on the deque and the widget *)
Definition addToHistory_view (track : AudioTrack) (v : HistoryView) : HistoryView :=
  if existsb (same_track track) (deque v) then v
  else {| deque := take 100 (track :: deque v); rows := rows v ++ [track] |}.

(** The history after the tracks of [l] were started, the first first. *)
Definition history_view_after (l : list AudioTrack) : HistoryView :=
  fold_left (fun v track => addToHistory_view track v) l {| deque := []; rows := [] |}.

(** The track [playHistoryTrack] looks up for a click on the row [index]. *)
Definition history_track_at (index : nat) (v : HistoryView) : option AudioTrack :=
  deque v !! index.

(** ** More observations *)

(** The positions a session stored, in order. *)
Definition positions (t : list Event) : list Q :=
  omap (fun e => match e with EPosition q => Some q | _ => None end) t.

(** An event with the samples blanked: what is left says when what was
    done, and with how many frames and channels. *)
Definition silenced (e : Event) : Event :=
  match e with
  | EWrite c => EWrite (zeros_like c)
  | EVisualize c n => EVisualize (zeros_like c) n
  | _ => e
  end.

(** The position of the frame [frames] of a file, in milliseconds, as the
    loop computes it. *)
Definition millis_of (fl : Q -> Q) (samplerate : positive) (frames : Z) : Q :=
  fl (fl (inject_Z frames / inject_Z (Z.pos samplerate)) * 1000)%Q.

(** ** Threads inside the wait *)

(** A thread inside [pause_event.wait()] stands in front of a chunk and its
    event is clear: had the event been set since, the thread would have been
    woken. *)
Definition wait_ok (t : AudioThread) : Prop :=
  forall sr cf data pending,
    phase t = Streaming sr cf data pending true ->
    pause_event t = false /\ pending <> [].

Definition waits_ok (p : Player) : Prop := Forall wait_ok (threads p).

(** ** Track objects *)

(** Every track object the player holds was made by the player, so its
    number is below [next_oid]; and no object is twice in the playlist. *)
Definition objects_known (p : Player) : Prop :=
  NoDup (map oid (tracks p)) /\
  Forall (fun t => (oid t < next_oid p)%nat) (tracks p) /\
  Forall (fun t => (oid t < next_oid p)%nat) (playback_history p) /\
  (forall t, currentTrack p = Some t -> (oid t < next_oid p)%nat).

(** What starting, stopping and stepping sessions do to the track objects:
    none is made, the playlist stays, and the history and the current track
    take objects from the playlist only. *)
Record keeps_objects (p p' : Player) : Prop := {
  ko_next_oid : next_oid p' = next_oid p;
  ko_tracks : tracks p' = tracks p;
  ko_history : forall t, In t (playback_history p') ->
                 In t (playback_history p) \/ In t (tracks p);
  ko_current : forall t, currentTrack p' = Some t ->
                 currentTrack p = Some t \/ In t (tracks p)
}.

(** * Properties *)

(** ** Truncation and rounding *)

Lemma Qtrunc_inject_Z (z : Z) : Qtrunc (inject_Z z) = z.
Proof. unfold Qtrunc; simpl. apply Z.quot_1_r. Qed.

Lemma Qtrunc_lower (a : Z) (x : Q) : (inject_Z a <= x)%Q -> a <= Qtrunc x.
Proof.
  unfold Qle, Qtrunc; simpl. intros H.
  rewrite Z.mul_1_r in H.
  rewrite <- (Z.quot_mul a (Z.pos (Qden x))) at 1 by discriminate.
  apply Z.quot_le_mono; [reflexivity | exact H].
Qed.

Lemma Qtrunc_upper (b : Z) (x : Q) : (x <= inject_Z b)%Q -> Qtrunc x <= b.
Proof.
  unfold Qle, Qtrunc; simpl. intros H.
  rewrite Z.mul_1_r in H.
  rewrite <- (Z.quot_mul b (Z.pos (Qden x))) at 1 by discriminate.
  apply Z.quot_le_mono; [reflexivity | exact H].
Qed.

Lemma Qtrunc_eq (z : Z) (x : Q) : (x == inject_Z z)%Q -> Qtrunc x = z.
Proof.
  intros H. apply Z.le_antisymm.
  - apply Qtrunc_upper. rewrite H. apply Qle_refl.
  - apply Qtrunc_lower. rewrite H. apply Qle_refl.
Qed.

Lemma wrap16_id (z : Z) : int16 z -> wrap16 z = z.
Proof. unfold int16, wrap16. intros H. rewrite Z.mod_small; lia. Qed.

Lemma clip16_id (z : Z) : int16 z -> clip16 z = z.
Proof. unfold int16, clip16. lia. Qed.

Lemma exact_rounding : rounding exact.
Proof.
  split.
  - intros a b H. unfold exact. rewrite !Qred_correct. exact H.
  - intros z _. unfold exact. apply Qred_correct.
Qed.

(** A sample scaled by a gain between 0 and 1 stays between 0 and itself. *)
Lemma scaled_sample_between (fl : Q -> Q) (s : Z) (g : Q) :
  rounding fl -> int16 s -> (0 <= g <= 1)%Q ->
  Z.min 0 s <= Qtrunc (fl (inject_Z s * g)%Q) <= Z.max 0 s.
Proof.
  intros R Hs [Hg0 Hg1].
  assert (Hs53 : Z.abs s <= 2 ^ 53) by (unfold int16 in Hs; lia).
  assert (H053 : Z.abs 0 <= 2 ^ 53) by (simpl; lia).
  pose proof (fl_int fl R s Hs53) as Es.
  pose proof (fl_int fl R 0 H053) as E0.
  assert (Ls : (inject_Z s <= fl (inject_Z s))%Q) by (rewrite Es; apply Qle_refl).
  assert (Us : (fl (inject_Z s) <= inject_Z s)%Q) by (rewrite Es; apply Qle_refl).
  assert (L0 : (inject_Z 0 <= fl (inject_Z 0))%Q) by (rewrite E0; apply Qle_refl).
  assert (U0 : (fl (inject_Z 0) <= inject_Z 0)%Q) by (rewrite E0; apply Qle_refl).
  destruct (Z_le_gt_dec 0 s) as [Hpos | Hneg].
  - assert (Hq : (0 <= inject_Z s)%Q) by (unfold Qle; simpl; lia).
    split.
    + rewrite Z.min_l by lia. apply Qtrunc_lower.
      eapply Qle_trans; [exact L0 | apply (fl_mono fl R)].
      change (inject_Z 0) with 0%Q. nra.
    + rewrite Z.max_r by lia. apply Qtrunc_upper.
      eapply Qle_trans; [apply (fl_mono fl R) | exact Us]. nra.
  - assert (Hq : (inject_Z s <= 0)%Q) by (unfold Qle; simpl; lia).
    split.
    + rewrite Z.min_r by lia. apply Qtrunc_lower.
      eapply Qle_trans; [exact Ls | apply (fl_mono fl R)]. nra.
    + rewrite Z.max_l by lia. apply Qtrunc_upper.
      eapply Qle_trans; [apply (fl_mono fl R) | exact U0].
      change (inject_Z 0) with 0%Q. nra.
Qed.

Lemma rounding_proper (fl : Q -> Q) (a b : Q) :
  rounding fl -> (a == b)%Q -> (fl a == fl b)%Q.
Proof.
  intros R H. apply Qle_antisym; apply (fl_mono fl R); rewrite H; apply Qle_refl.
Qed.

Lemma Forall2_map_self {A B} (P : A -> B -> Prop) (f : A -> B) (l : list A) :
  Forall (fun x => P x (f x)) l -> Forall2 P l (map f l).
Proof. induction 1; simpl; constructor; assumption. Qed.

(** ** The streaming loop *)

Section EngineFacts.

Variable fl : Q -> Q.
Variable env : Env.

Lemma chunk_body_write tid self sr cf data i c :
  In (EWrite c) (fst (chunk_body fl env tid self sr cf data i)) ->
  c = process_chunk fl self (py_slice data i (i + chunk_size)).
Proof.
  unfold chunk_body.
  destruct (length (py_slice data i (i + chunk_size)) =? 0)%nat; simpl; [tauto |].
  destruct (stream_write env tid i); simpl.
  - intros [H | [H | [H | []]]]; congruence.
  - intros [H | []]; discriminate.
Qed.

Lemma loop_body_write tid self sr cf data i c :
  In (EWrite c) (fst (loop_body fl env tid self sr cf data i)) ->
  stop_flag self = false /\
  c = process_chunk fl self (py_slice data i (i + chunk_size)).
Proof.
  unfold loop_body. destruct (stop_flag self); simpl; [tauto |].
  intros H. split; [reflexivity | eapply chunk_body_write; exact H].
Qed.

Lemma silence_scaled (g : Q) (c : list frame) :
  rounding fl -> Forall2 (Forall2 (fun _ o => o = 0)) c (scale_chunk fl g (zeros_like c)).
Proof.
  intros R. unfold scale_chunk, zeros_like. rewrite map_map.
  apply Forall2_map_self, Forall_forall. intros f _.
  rewrite map_map. apply Forall2_map_self, Forall_forall. intros s _.
  unfold astype_int16.
  rewrite (Qtrunc_eq 0); [reflexivity |].
  apply Qeq_trans with (fl (inject_Z 0)).
  - apply rounding_proper; [exact R | ring].
  - apply (fl_int fl R). simpl; lia.
Qed.

Lemma gain_scaled (g : Q) (c : list frame) :
  rounding fl -> (0 <= g <= 1)%Q -> Forall (Forall int16) c ->
  Forall2 (Forall2 (fun s o =>
             o = clip16 (Qtrunc (fl (inject_Z s * g)%Q)) /\
             o = Qtrunc (fl (inject_Z s * g)%Q) /\ int16 o))
          c (scale_chunk fl g c).
Proof.
  intros R Hg Hc. unfold scale_chunk.
  apply Forall2_map_self. eapply Forall_impl; [exact Hc |].
  intros f Hf. simpl. apply Forall2_map_self. eapply Forall_impl; [exact Hf |].
  intros s Hs. simpl.
  pose proof (scaled_sample_between fl s g R Hs Hg) as B.
  assert (I : int16 (Qtrunc (fl (inject_Z s * g)%Q))) by (unfold int16 in *; lia).
  unfold astype_int16. rewrite wrap16_id, clip16_id by exact I. auto.
Qed.

Lemma Forall_take_drop {A} (P : A -> Prop) (l : list A) (i j : nat) :
  Forall P l -> Forall P (py_slice l i j).
Proof. intros H. unfold py_slice. apply Forall_take, Forall_drop, H. Qed.

(** C2.  A chunk that an iteration of the loop hands to the device has the
    shape of the chunk read from the data, and: when the thread is muted,
    every sample of it is zero, whatever the gain and the data; when it is
    not muted and the gain lies in [0,1], every sample is the input sample
    times the gain, rounded as a float and truncated toward zero, which is an
    int16 value as it stands, so clipping it to the int16 range changes
    nothing and the conversion to int16 does not wrap. *)
Theorem written_chunk_silent_or_scaled tid self sr cf data i c :
  rounding fl ->
  Forall (Forall int16) data ->
  In (EWrite c) (fst (loop_body fl env tid self sr cf data i)) ->
  let raw := py_slice data i (i + chunk_size) in
  (muted self = true -> Forall2 (Forall2 (fun _ o => o = 0)) raw c) /\
  (muted self = false -> (0 <= volume self <= 1)%Q ->
   Forall2 (Forall2 (fun s o =>
              o = clip16 (Qtrunc (fl (inject_Z s * volume self)%Q)) /\
              o = Qtrunc (fl (inject_Z s * volume self)%Q) /\ int16 o))
           raw c).
Proof.
  intros R Hdata Hw raw.
  apply loop_body_write in Hw. destruct Hw as [_ ->].
  fold raw. unfold process_chunk. split.
  - intros ->. apply silence_scaled, R.
  - intros -> Hg. apply gain_scaled; [exact R | exact Hg |].
    apply Forall_take_drop, Hdata.
Qed.


Lemma chunk_body_events tid self sr cf data i :
  let r := chunk_body fl env tid self sr cf data i in
  completions (fst r) = 0%nat /\
  visualized (fst r) = map (fun c => (c, length c)) (written_chunks (fst r)) /\
  (snd r = false -> written_chunks (fst r) = []).
Proof.
  unfold chunk_body.
  destruct (length (py_slice data i (i + chunk_size)) =? 0)%nat; simpl; [auto |].
  destruct (stream_write env tid i); simpl; auto.
  repeat split; discriminate.
Qed.

Lemma loop_body_events tid self sr cf data i :
  let r := loop_body fl env tid self sr cf data i in
  completions (fst r) = 0%nat /\
  visualized (fst r) = map (fun c => (c, length c)) (written_chunks (fst r)).
Proof.
  unfold loop_body. destruct (stop_flag self); simpl; [auto |].
  pose proof (chunk_body_events tid self sr cf data i) as H. simpl in H. tauto.
Qed.

Lemma completions_app (t1 t2 : list Event) :
  completions (t1 ++ t2) = (completions t1 + completions t2)%nat.
Proof. unfold completions. rewrite List.filter_app, length_app. reflexivity. Qed.

Lemma run_loop_events tid sched sr cf data pending k :
  let t := run_loop fl env tid sched sr cf data pending k in
  completions t = 0%nat /\
  visualized t = map (fun c => (c, length c)) (written_chunks t).
Proof.
  revert k. induction pending as [| i rest IH]; intros k; simpl; [auto |].
  pose proof (loop_body_events tid (sched k) sr cf data i) as H. simpl in H.
  destruct (loop_body fl env tid (sched k) sr cf data i) as [evs continue].
  simpl in H. destruct H as [Hc Hv].
  unfold visualized, written_chunks in *.
  rewrite completions_app, !omap_app, map_app, Hc, Hv.
  destruct continue.
  - destruct (IH (S k)) as [IHc IHv]. unfold visualized, written_chunks in IHv.
    rewrite IHc, IHv. auto.
  - simpl. auto.
Qed.

Lemma open_session_fails tid audio_path pos :
  isfile env audio_path = false \/ sf_read env audio_path = None
  \/ pyaudio_open env tid = false ->
  exists message, open_session fl env tid audio_path pos = inl message.
Proof.
  unfold open_session. intros H.
  destruct (isfile env audio_path); simpl; [| eauto].
  destruct (sf_read env audio_path) as [[a sr] |]; [| eauto].
  destruct (pyaudio_open env tid); simpl; [| eauto].
  destruct H as [H | [H | H]]; discriminate.
Qed.

Lemma open_session_succeeds tid audio_path pos a sr :
  isfile env audio_path = true -> sf_read env audio_path = Some (a, sr) ->
  pyaudio_open env tid = true ->
  open_session fl env tid audio_path pos
  = inr (sr, start_frame fl pos sr, py_slice_from (expand_dims a) (start_frame fl pos sr)).
Proof.
  unfold open_session. intros -> -> ->. reflexivity.
Qed.

Lemma py_slice_from_past_end {A} (l : list A) (k : Z) :
  Z.of_nat (length l) <= k -> py_slice_from l k = [].
Proof.
  intros H. unfold py_slice_from.
  destruct (Z.ltb_spec k 0); [lia |]. apply drop_ge. lia.
Qed.

(** C6.  A session whose file is missing, whose file cannot be decoded or
    whose device cannot be opened reports one error and does nothing else: no
    chunk is written and the completion callback is not called.  A session
    that gets past the opening calls the completion callback exactly once, as
    its last act and after releasing the device, whatever the flags it reads
    and whichever writes fail; and if its first frame lies at or past the end
    of the data, releasing and completing is all it does. *)
Theorem session_fails_silently_or_completes_once tid audio_path pos sched :
  let trace := run fl env tid audio_path pos sched in
  (isfile env audio_path = false \/ sf_read env audio_path = None
   \/ pyaudio_open env tid = false ->
   (exists message, trace = [EError message])
   /\ written_chunks trace = [] /\ completions trace = 0%nat) /\
  (forall a sr,
     isfile env audio_path = true -> sf_read env audio_path = Some (a, sr) ->
     pyaudio_open env tid = true ->
     completions trace = 1%nat
     /\ (exists before, trace = before ++ [ERelease; EFinished]
                        /\ completions before = 0%nat)
     /\ (Z.of_nat (length (expand_dims a)) <= start_frame fl pos sr ->
         trace = [ERelease; EFinished])).
Proof.
  intros trace. subst trace. unfold run. split.
  - intros H. destruct (open_session_fails tid audio_path pos H) as [m ->].
    simpl. eauto.
  - intros a sr H1 H2 H3.
    rewrite (open_session_succeeds tid audio_path pos a sr H1 H2 H3).
    match goal with |- context [run_loop ?f ?e ?t ?s ?r ?c ?d ?p ?k] =>
      pose proof (run_loop_events t s r c d p k) as [Hc _] end.
    repeat split.
    + rewrite completions_app, Hc. reflexivity.
    + eexists. split; [reflexivity | exact Hc].
    + intros Hpast. rewrite (py_slice_from_past_end _ _ Hpast). reflexivity.
Qed.

Lemma chunk_body_visualize tid self sr cf data i c n :
  In (EVisualize c n) (fst (chunk_body fl env tid self sr cf data i)) ->
  c = process_chunk fl self (py_slice data i (i + chunk_size)) /\ n = length c.
Proof.
  unfold chunk_body.
  destruct (length (py_slice data i (i + chunk_size)) =? 0)%nat; simpl; [tauto |].
  destruct (stream_write env tid i); simpl.
  - intros [H | [H | [H | []]]]; try discriminate. injection H as <- <-. auto.
  - intros [H | []]; discriminate.
Qed.

Lemma run_loop_visualize tid sched sr cf data pending k c n :
  In (EVisualize c n) (run_loop fl env tid sched sr cf data pending k) ->
  exists k' i, In i pending /\
    c = process_chunk fl (sched k') (py_slice data i (i + chunk_size)) /\ n = length c.
Proof.
  revert k. induction pending as [| i rest IH]; intros k; simpl; [tauto |].
  destruct (loop_body fl env tid (sched k) sr cf data i) as [evs continue] eqn:E.
  rewrite in_app_iff. intros [H | H].
  - exists k, i. split; [left; reflexivity |].
    unfold loop_body in E. destruct (stop_flag (sched k)).
    + injection E as <- _. destruct H.
    + apply (chunk_body_visualize tid (sched k) sr cf data i). rewrite E. exact H.
  - destruct continue; [| destruct H].
    destruct (IH (S k) H) as (k' & j & Hj & Hc). exists k', j. split; [right; exact Hj | exact Hc].
Qed.

(** C3, as the code has it.  The visualization callback is called once for
    every chunk the device accepted, in the same order, with that very chunk
    and its number of frames; and that chunk is the data after muting and
    after the gain was applied, not the data before the gain. *)
Theorem visualization_gets_written_chunks tid audio_path pos sched :
  let trace := run fl env tid audio_path pos sched in
  visualized trace = map (fun c => (c, length c)) (written_chunks trace) /\
  forall c n, In (EVisualize c n) trace ->
    exists k i samplerate current_frame data,
      open_session fl env tid audio_path pos = inr (samplerate, current_frame, data) /\
      In i (py_range (length data) chunk_size) /\
      c = process_chunk fl (sched k) (py_slice data i (i + chunk_size)) /\
      n = length c.
Proof.
  intros trace. subst trace. unfold run.
  destruct (open_session fl env tid audio_path pos) as [m | [[sr cf] data]].
  - split; [reflexivity |]. intros c n [H | []]. discriminate.
  - split.
    + match goal with |- context [run_loop ?f ?e ?t ?s ?r ?c ?d ?p ?k] =>
        pose proof (run_loop_events t s r c d p k) as [_ Hv] end.
      unfold visualized, written_chunks in *. rewrite !omap_app, map_app, Hv.
      simpl. rewrite !app_nil_r. reflexivity.
    + intros c n H. apply in_app_iff in H. destruct H as [H | [H | [H | []]]];
        try discriminate.
      destruct (run_loop_visualize _ _ _ _ _ _ _ _ _ H) as (k & i & Hi & Hc & Hn).
      exists k, i, sr, cf, data. auto.
Qed.

End EngineFacts.

(** ** Sessions under the controller *)

(** ** The pause event *)

Lemma event_set_pause t : pause_event (event_set t) = true.
Proof. reflexivity. Qed.

Lemma event_set_stop_flag t : stop_flag (event_set t) = stop_flag t.
Proof.
  unfold event_set. destruct (phase t) as [| sr cf data pending [|] | sr cf data pending];
    reflexivity.
Qed.

Lemma event_set_gain t : gain_state (event_set t) = gain_state t.
Proof.
  unfold event_set. destruct (phase t) as [| sr cf data pending [|] | sr cf data pending];
    reflexivity.
Qed.

(** [set()] wakes the thread inside the wait, and no other. *)
Lemma event_set_waiting t sr cf data pending :
  phase t = Streaming sr cf data pending true ->
  event_set t = with_pause_event true (with_phase (Woken sr cf data pending) t).
Proof. intros H. unfold event_set. rewrite H. reflexivity. Qed.

Lemma event_set_elsewhere t :
  (forall sr cf data pending, phase t <> Streaming sr cf data pending true) ->
  event_set t = with_pause_event true t.
Proof.
  intros H. unfold event_set.
  destruct (phase t) as [| sr cf data pending [|] | sr cf data pending] eqn:E;
    try reflexivity.
  exfalso. apply (H sr cf data pending). reflexivity.
Qed.

Lemma event_set_exited t : phase t = Exited -> event_set t = with_pause_event true t.
Proof. intros H. unfold event_set. rewrite H. reflexivity. Qed.

Lemma event_set_head t sr cf data pending :
  phase t = Streaming sr cf data pending false -> event_set t = with_pause_event true t.
Proof. intros H. unfold event_set. rewrite H. reflexivity. Qed.



Section ControllerFacts.

Variable fl : Q -> Q.
Variable env : Env.

Lemma evolves_refl p : evolves fl p p.
Proof.
  split; auto.
  intros tid t H1 H2. apply lookup_lt_Some in H2. lia.
Qed.

Lemma evolves_trans p1 p2 p3 : evolves fl p1 p2 -> evolves fl p2 p3 -> evolves fl p1 p3.
Proof.
  intros [T1 I1 V1 H1 L1 O1 N1] [T2 I2 V2 H2 L2 O2 N2]. split.
  - congruence.
  - rewrite T1 in I2. destruct I2 as [I2 | I2]; [rewrite I2; exact I1 | right; exact I2].
  - congruence.
  - auto.
  - lia.
  - intros tid Ht. rewrite O2 by lia. apply O1, Ht.
  - intros tid t Ht Hl.
    destruct (Nat.lt_ge_cases tid (length (threads p2))) as [Hlt | Hge].
    + pose proof (O2 tid Hlt) as E. rewrite Hl in E.
      destruct (threads p2 !! tid) as [t2 |] eqn:E2; [| discriminate].
      simpl in E. injection E as Em Ev.
      destruct (N1 tid t2 Ht E2). split; congruence.
    + rewrite <- V1. apply (N2 tid t Hge Hl).
Qed.

(** A change of fields the relation does not speak about. *)
Lemma evolves_same p p' :
  tracks p' = tracks p -> currentTrackIndex p' = currentTrackIndex p ->
  volume_level p' = volume_level p -> playback_history p' = playback_history p ->
  threads p' = threads p -> evolves fl p p'.
Proof.
  intros T I V H Th. split; auto.
  - unfold history_ok. rewrite H. auto.
  - rewrite Th. auto.
  - rewrite Th. auto.
  - rewrite Th. intros tid t H1 H2. apply lookup_lt_Some in H2. lia.
Qed.

(** A change of a field the relation does not speak about. *)
Lemma evolves_set_position v p : evolves fl p (set_playback_position v p).
Proof. apply evolves_same; reflexivity. Qed.

Lemma evolves_set_audio_thread v p : evolves fl p (set_audio_thread v p).
Proof. apply evolves_same; reflexivity. Qed.

Lemma evolves_set_currentTrack v p : evolves fl p (set_currentTrack v p).
Proof. apply evolves_same; reflexivity. Qed.

Lemma evolves_set_draws v p : evolves fl p (set_draws v p).
Proof. apply evolves_same; reflexivity. Qed.

Lemma evolves_index v p :
  0 <= v < Z.of_nat (length (tracks p)) -> evolves fl p (set_currentTrackIndex v p).
Proof.
  intros Hv. split; simpl; auto.
  intros tid t H1 H2. apply lookup_lt_Some in H2. lia.
Qed.

Lemma evolves_update_thread tid f p :
  (forall t, gain_state (f t) = gain_state t) -> evolves fl p (update_thread tid f p).
Proof.
  intros Hf. split; simpl; auto.
  - rewrite length_alter. auto.
  - intros k Hk. rewrite list_lookup_alter. destruct (decide (tid = k)) as [-> |]; [| reflexivity].
    destruct (threads p !! k) as [t |]; simpl; [rewrite Hf |]; reflexivity.
  - intros k t Hk Hl. apply lookup_lt_Some in Hl. rewrite length_alter in Hl. lia.
Qed.

Lemma evolves_observe tid evs p : evolves fl p (observe tid evs p).
Proof.
  unfold observe. revert p. induction evs as [| ev evs IH]; intros p; simpl.
  - apply evolves_refl.
  - eapply evolves_trans; [| apply IH].
    destruct ev; apply evolves_same; reflexivity.
Qed.

Lemma take_map_NoDup {A B} (f : A -> B) (n : nat) (l : list A) :
  NoDup (map f l) -> NoDup (map f (take n l)).
Proof.
  change (map f l) with (f <$> l). change (map f (take n l)) with (f <$> take n l).
  rewrite fmap_take. intros H. eauto using sublist_NoDup, sublist_take.
Qed.

Lemma addToHistory_ok track p : history_ok p -> history_ok (addToHistory track p).
Proof.
  intros [Hl Hn]. unfold addToHistory.
  destruct (existsb (same_track track) (playback_history p)) eqn:E; [split; assumption |].
  unfold history_ok. cbn [playback_history set_playback_history]. split.
  - rewrite length_take. lia.
  - apply take_map_NoDup. simpl map. apply NoDup_cons. split; [| exact Hn].
    intros Hin. apply list_elem_of_In, in_map_iff in Hin. destruct Hin as [t [Ho Ht]].
    assert (X : existsb (same_track track) (playback_history p) = true).
    { apply existsb_exists. exists t. split; [exact Ht |].
      unfold same_track. apply Nat.eqb_eq. congruence. }
    congruence.
Qed.

Lemma evolves_addToHistory track p : evolves fl p (addToHistory track p).
Proof.
  split; try (unfold addToHistory; destruct (existsb _ _); simpl; auto; fail).
  - intros H. apply addToHistory_ok, H.
  - unfold addToHistory; destruct (existsb _ _); simpl;
      intros tid t H1 H2; apply lookup_lt_Some in H2; lia.
Qed.

Lemma evolves_spawn p : evolves fl p (spawn fl env p).
Proof.
  unfold spawn. destruct (start_phase fl env (length (threads p)) p) as [ph evs].
  eapply evolves_trans; [| apply evolves_observe].
  split; simpl; auto.
  - rewrite length_app. lia.
  - intros tid Ht. rewrite lookup_app_l by exact Ht. reflexivity.
  - intros tid t Ht Hl.
    destruct (decide (tid = length (threads p))) as [-> | Hne].
    + rewrite lookup_app_r, Nat.sub_diag in Hl by lia. simpl in Hl.
      injection Hl as <-. simpl. auto.
    + apply lookup_lt_Some in Hl. rewrite length_app in Hl. simpl in Hl. lia.
Qed.

Create HintDb evolves.

(** [peel] proves that the player evolves through a composition of steps,
    the outermost first, each step by a lemma of the hint base. *)
Local Hint Resolve evolves_refl evolves_set_position evolves_set_audio_thread
  evolves_set_currentTrack evolves_set_draws evolves_observe evolves_addToHistory
  evolves_spawn : evolves.
Local Hint Extern 1 (evolves _ _ (update_thread _ event_set _)) =>
  apply evolves_update_thread; apply event_set_gain : evolves.
Local Hint Extern 2 (evolves _ _ (update_thread _ _ _)) =>
  apply evolves_update_thread; reflexivity : evolves.

Ltac peel :=
  repeat match goal with
         | |- evolves _ ?p ?p => apply evolves_refl
         | |- evolves _ ?p (?F ?q) =>
             apply (evolves_trans p q (F q)); [| solve [auto with evolves]]
         end.

Lemma evolves_start_current p : evolves fl p (start_current fl env p).
Proof.
  unfold start_current.
  destruct (negb _); [apply evolves_refl |].
  destruct (tracks p !! Z.to_nat (currentTrackIndex p)) as [trk |]; peel.
Qed.

Local Hint Resolve evolves_start_current : evolves.

Lemma evolves_nextTrack_with play p :
  (forall q, evolves fl q (play q)) -> evolves fl p (nextTrack_with env play p).
Proof.
  intros Hplay. unfold nextTrack_with.
  destruct (Nat.ltb_spec 0 (length (tracks p))) as [Hlen |]; [| apply evolves_refl].
  eapply evolves_trans; [| apply Hplay].
  eapply evolves_trans; [| apply evolves_set_position].
  destruct (shuffle p).
  - unfold randint.
    eapply evolves_trans; [apply (evolves_set_draws (S (draws p))) |].
    apply evolves_index. simpl.
    pose proof (Nat.mod_upper_bound (random_source env (draws p)) (length (tracks p))).
    lia.
  - apply evolves_index.
    apply Z.mod_pos_bound. lia.
Qed.

Lemma evolves_playback_finished p : evolves fl p (playback_finished fl env p).
Proof.
  unfold playback_finished.
  eapply evolves_trans; [apply (evolves_set_audio_thread None) |].
  cbn [repeat set_audio_thread].
  destruct (repeat p).
  - apply evolves_start_current.
  - apply evolves_nextTrack_with. intros q. apply evolves_start_current.
Qed.

Local Hint Resolve evolves_playback_finished : evolves.

Lemma evolves_finalize tid p : evolves fl p (finalize fl env tid p).
Proof. unfold finalize. peel. Qed.

Local Hint Resolve evolves_finalize : evolves.

Lemma evolves_thread_step tid p : evolves fl p (thread_step fl env tid p).
Proof.
  unfold thread_step.
  destruct (threads p !! tid) as [self |]; [| apply evolves_refl].
  destruct (phase self) as [| sr cf data pending waiting | sr cf data pending];
    [apply evolves_refl | |].
  - destruct pending as [| i rest]; [apply evolves_finalize |].
    destruct (negb waiting && stop_flag self); [apply evolves_finalize |].
    destruct (negb (pause_event self)); [peel |].
    destruct (chunk_body fl env tid self sr cf data i) as [evs continue].
    destruct continue; peel.
  - destruct pending as [| i rest]; [apply evolves_finalize |].
    destruct (chunk_body fl env tid self sr cf data i) as [evs continue].
    destruct continue; peel.
Qed.

Local Hint Resolve evolves_thread_step : evolves.

Lemma evolves_join tid p : evolves fl p (join fl env tid p).
Proof. unfold join. peel. Qed.

Local Hint Resolve evolves_join : evolves.

Lemma evolves_stopPlayback p : evolves fl p (stopPlayback fl env p).
Proof.
  unfold stopPlayback. destruct (audio_thread p) as [tid |]; peel.
Qed.

Local Hint Resolve evolves_stopPlayback : evolves.

Lemma evolves_playCurrentTrack p : evolves fl p (playCurrentTrack fl env p).
Proof. unfold playCurrentTrack. peel. Qed.

Local Hint Resolve evolves_playCurrentTrack : evolves.

Lemma evolves_restart p :
  evolves fl p match audio_thread p with
               | Some _ => playCurrentTrack fl env p
               | None => p
               end.
Proof.
  destruct (audio_thread p); [apply evolves_playCurrentTrack | apply evolves_refl].
Qed.

Lemma index_of_lt track l k : index_of track l = Some k -> (k < length l)%nat.
Proof.
  revert k. induction l as [| t rest IH]; intros k; simpl; [discriminate |].
  destruct (same_track t track).
  - intros [= <-]. lia.
  - destruct (index_of track rest) as [j |]; simpl; [| discriminate].
    intros [= <-]. specialize (IH j eq_refl). lia.
Qed.

(** Playing the track at a valid index. *)
Lemma evolves_play_at v p :
  0 <= v < Z.of_nat (length (tracks p)) ->
  evolves fl p (playCurrentTrack fl env
                  (set_playback_position 0 (set_currentTrackIndex v p))).
Proof.
  intros Hv. peel. apply evolves_index, Hv.
Qed.

Lemma evolves_exec a p : plays a = true -> evolves fl p (exec fl env a p).
Proof.
  destruct a; simpl; try discriminate; intros _.
  - apply evolves_same; reflexivity.
  - unfold togglePlayPause.
    destruct (currentTrackIndex p <? 0).
    + destruct (Nat.ltb_spec 0 (length (tracks p))); [| apply evolves_refl].
      peel. apply evolves_index. lia.
    + destruct (audio_thread p) as [tid |]; [| apply evolves_playCurrentTrack].
      destruct (pause_is_set tid p); peel.
  - unfold prevTrack.
    destruct (Nat.ltb_spec 0 (length (tracks p))); [| apply evolves_refl].
    apply evolves_play_at, Z.mod_pos_bound. lia.
  - apply evolves_nextTrack_with. apply evolves_playCurrentTrack.
  - unfold rewind15.
    eapply evolves_trans; [| apply evolves_restart]. apply evolves_set_position.
  - unfold forward15. destruct (currentTrack p) as [trk |]; [| apply evolves_refl].
    destruct (Qltb _ _); [| apply evolves_refl].
    eapply evolves_trans; [| apply evolves_restart]. apply evolves_set_position.
  - apply evolves_same; reflexivity.
  - apply evolves_same; reflexivity.
  - unfold onSeekEnd. destruct (currentTrack p) as [trk |]; [| apply evolves_refl].
    eapply evolves_trans; [| apply evolves_restart]. apply evolves_set_position.
  - unfold playHistoryTrack.
    destruct (playback_history p !! index) as [track |]; [| apply evolves_refl].
    destruct (index_of track (tracks p)) as [k |] eqn:E; [| apply evolves_refl].
    apply index_of_lt in E. apply evolves_play_at. lia.
  - unfold playSelectedTrack.
    destruct (Nat.ltb_spec index (length (tracks p))); [| apply evolves_refl].
    apply evolves_play_at. lia.
  - unfold jumpToTrackByNumber.
    destruct ((1 <=? track_number) && (track_number <=? Z.of_nat (length (tracks p)))) eqn:E;
      [| apply evolves_refl].
    apply andb_prop in E. destruct E as [E1 E2].
    apply Z.leb_le in E1. apply Z.leb_le in E2.
    apply evolves_play_at. lia.
  - apply evolves_stopPlayback.
  - apply evolves_thread_step.
Qed.


(** The slots that add tracks leave the sessions and the index alone. *)
Lemma append_tracks_frame (files : list pstr) (g : pstr -> pstr) (keep : pstr -> bool) p :
  let p' := fold_left (fun p f => if keep (g f) then append_track fl env (g f) p else p)
                      files p in
  currentTrackIndex p' = currentTrackIndex p /\
  playback_history p' = playback_history p /\
  threads p' = threads p /\
  volume_level p' = volume_level p /\
  (length (tracks p) <= length (tracks p'))%nat.
Proof.
  revert p. induction files as [| f files IH]; intros p; simpl; [auto |].
  destruct (keep (g f)).
  - destruct (IH (append_track fl env (g f) p)) as (I & H & T & V & L).
    simpl in *. rewrite length_app in L. simpl in L. repeat split; auto. lia.
  - apply IH.
Qed.

Lemma addSelectedFiles_frame p :
  let p' := addSelectedFiles fl env p in
  currentTrackIndex p' = currentTrackIndex p /\
  playback_history p' = playback_history p /\
  threads p' = threads p /\
  volume_level p' = volume_level p /\
  (length (tracks p) <= length (tracks p'))%nat.
Proof.
  unfold addSelectedFiles. destruct (pendingFiles p) as [| f files] eqn:E; [simpl; auto |].
  pose proof (append_tracks_frame (f :: files) (fun f => f) (fun _ => true) p) as H.
  cbv zeta in *. simpl in *. exact H.
Qed.

Lemma loadPlaylist_frame text p :
  let p' := loadPlaylist fl env text p in
  currentTrackIndex p' = currentTrackIndex p /\
  playback_history p' = playback_history p /\
  threads p' = threads p /\
  volume_level p' = volume_level p.
Proof.
  unfold loadPlaylist.
  pose proof (append_tracks_frame (readlines text) strip (isfile env) (set_tracks [] p)) as H.
  cbv zeta in H. simpl in H. tauto.
Qed.

Lemma changeVolume_frame value p :
  let p' := changeVolume fl value p in
  tracks p' = tracks p /\
  currentTrackIndex p' = currentTrackIndex p /\
  playback_history p' = playback_history p /\
  length (threads p') = length (threads p) /\
  volume_level p' = value.
Proof.
  unfold changeVolume. simpl.
  destruct (audio_thread p) as [tid |]; simpl; [| auto].
  destruct (threads p !! tid) as [t |]; simpl; [| auto].
  destruct (negb (muted t)); simpl; rewrite ?length_alter; auto.
Qed.

Lemma toggleMute_frame p :
  let p' := toggleMute p in
  tracks p' = tracks p /\
  currentTrackIndex p' = currentTrackIndex p /\
  playback_history p' = playback_history p /\
  length (threads p') = length (threads p) /\
  volume_level p' = volume_level p.
Proof.
  unfold toggleMute. destruct (audio_thread p) as [tid |]; simpl;
    rewrite ?length_alter; auto.
Qed.

(** [removeTrackAt] is the deletion followed by one of three things. *)
Lemma removeTrackAt_cases row p :
  let p1 := set_tracks (delete (Z.to_nat row) (tracks p)) p in
  (removeTrackAt fl env row p = p
   /\ ~ (0 <= row < Z.of_nat (length (tracks p)))) \/
  (0 <= row < Z.of_nat (length (tracks p)) /\
   ((row = currentTrackIndex p /\ removeTrackAt fl env row p = stopPlayback fl env p1) \/
    (row < currentTrackIndex p /\
     removeTrackAt fl env row p = set_currentTrackIndex (currentTrackIndex p - 1) p1) \/
    (currentTrackIndex p < row /\ removeTrackAt fl env row p = p1))).
Proof.
  unfold removeTrackAt.
  destruct (Z.leb_spec 0 row); destruct (Z.ltb_spec row (Z.of_nat (length (tracks p))));
    simpl; try (left; split; [reflexivity | lia]).
  right. split; [lia |].
  destruct (Z.eqb_spec row (currentTrackIndex p)); [left; auto |].
  destruct (Z.ltb_spec row (currentTrackIndex p)); [right; left; auto |].
  right; right. split; [lia | reflexivity].
Qed.


Lemma exec_history_ok a p : history_ok p -> history_ok (exec fl env a p).
Proof.
  intros H. destruct (plays a) eqn:E.
  - apply (ev_history _ _ _ (evolves_exec a p E)), H.
  - unfold history_ok in *. destruct a; try discriminate; simpl.
    + destruct (addSelectedFiles_frame p) as (_ & -> & _). exact H.
    + destruct (changeVolume_frame value p) as (_ & _ & -> & _). exact H.
    + destruct (toggleMute_frame p) as (_ & _ & -> & _). exact H.
    + destruct (loadPlaylist_frame text p) as (_ & -> & _). exact H.
    + destruct (removeTrackAt_cases row p) as [[-> _] | [_ [[_ ->] | [[_ ->] | [_ ->]]]]];
        try exact H.
      apply (ev_history _ _ _ (evolves_stopPlayback _)). exact H.
Qed.

Lemma reachable_history_ok p : reachable fl env p -> history_ok p.
Proof.
  induction 1 as [| a p _ IH].
  - split; simpl; [lia | constructor].
  - apply exec_history_ok, IH.
Qed.






(** C7, as the code has it.  In every state the player can reach the history
    holds at most 100 tracks and no track object twice.  A track that is not
    in the history is put at its front, the oldest entry leaving when there
    are 100 already; a track that is in the history leaves the history, and
    the player, as they are: its entry keeps its place. *)
Theorem history_bounded_distinct_front_insert p track :
  reachable fl env p ->
  history_ok p /\
  history_ok (addToHistory track p) /\
  (existsb (same_track track) (playback_history p) = false ->
   playback_history (addToHistory track p) = take 100 (track :: playback_history p)) /\
  (existsb (same_track track) (playback_history p) = true ->
   addToHistory track p = p).
Proof.
  intros R. pose proof (reachable_history_ok p R) as H.
  split; [exact H |]. split; [apply addToHistory_ok, H |].
  unfold addToHistory. split; intros ->; reflexivity.
Qed.

Lemma exec_new_threads a p tid t :
  (length (threads p) <= tid)%nat ->
  threads (exec fl env a p) !! tid = Some t ->
  muted t = false /\ volume t = fl (inject_Z (volume_level (exec fl env a p)) / 100)%Q.
Proof.
  intros Hn Hl. destruct (plays a) eqn:E.
  - destruct (evolves_exec a p E) as [_ _ V _ _ _ N]. rewrite V. eapply N; eassumption.
  - apply lookup_lt_Some in Hl as Hlt.
    destruct a; try discriminate; simpl in *.
    + destruct (addSelectedFiles_frame p) as (_ & _ & T & _). rewrite T in Hlt. lia.
    + destruct (changeVolume_frame value p) as (_ & _ & _ & T & _). rewrite T in Hlt. lia.
    + destruct (toggleMute_frame p) as (_ & _ & _ & T & _). rewrite T in Hlt. lia.
    + destruct (loadPlaylist_frame text p) as (_ & _ & T & _). rewrite T in Hlt. lia.
    + destruct (removeTrackAt_cases row p) as [[X _] | [_ [[_ X] | [[_ X] | [_ X]]]]];
        rewrite X in *; simpl in *; try lia.
      match goal with |- context [stopPlayback fl env ?q] =>
        destruct (evolves_stopPlayback q) as [_ _ V _ _ _ N] end.
      rewrite V. eapply N; eassumption.
Qed.

(** C10.  A thread object that a slot or a step of a thread brings into
    being is unmuted and has the volume setting of the player, divided by
    100, as its gain, whatever the mute flags of the threads before it;
    seeking, rewinding, forwarding, next, previous and every change of
    track make their sessions this way. *)
Theorem new_session_unmuted_at_volume_setting a p tid t :
  (length (threads p) <= tid)%nat ->
  threads (exec fl env a p) !! tid = Some t ->
  muted t = false /\
  volume t = fl (inject_Z (volume_level (exec fl env a p)) / 100)%Q /\
  (forall value, a <> ChangeVolume value ->
   volume_level (exec fl env a p) = volume_level p).
Proof.
  intros Hn Hl. destruct (exec_new_threads a p tid t Hn Hl) as [Hm Hv].
  split; [exact Hm |]. split; [exact Hv |].
  intros value Ha. destruct (plays a) eqn:E.
  - apply (ev_volume_level _ _ _ (evolves_exec a p E)).
  - destruct a; try discriminate; simpl.
    + apply addSelectedFiles_frame.
    + exfalso. apply lookup_lt_Some in Hl. simpl in Hl.
      destruct (changeVolume_frame value0 p) as (_ & _ & _ & T & _). rewrite T in Hl. lia.
    + apply toggleMute_frame.
    + apply loadPlaylist_frame.
    + destruct (removeTrackAt_cases row p) as [[X _] | [_ [[_ X] | [[_ X] | [_ X]]]]];
        rewrite X; simpl; try reflexivity.
      match goal with |- context [stopPlayback fl env ?q] =>
        apply (ev_volume_level _ _ _ (evolves_stopPlayback q)) end.
Qed.


Lemma update_thread_lookup tid f p t :
  threads p !! tid = Some t -> threads (update_thread tid f p) !! tid = Some (f t).
Proof.
  intros H. simpl. rewrite list_lookup_alter_eq, H. reflexivity.
Qed.

Lemma output_observe tid evs p :
  output (observe tid evs p) = output p ++ map (fun ev => (tid, ev)) evs.
Proof.
  unfold observe. revert p. induction evs as [| ev evs IH]; intros p; simpl.
  - rewrite app_nil_r. reflexivity.
  - rewrite IH. destruct ev; simpl; rewrite <- app_assoc; reflexivity.
Qed.

(** What a thread that is in its loop, neither stopped nor paused, puts out
    in its next step when the device takes the chunk. *)
Lemma thread_step_writes tid p t sr cf data i rest w :
  threads p !! tid = Some t ->
  phase t = Streaming sr cf data (i :: rest) w ->
  pause_event t = true -> negb w && stop_flag t = false ->
  stream_write env tid i = true ->
  py_slice data i (i + chunk_size) <> [] ->
  let chunk := process_chunk fl t (py_slice data i (i + chunk_size)) in
  output (thread_step fl env tid p)
  = output p ++ [(tid, EWrite chunk);
                 (tid, EPosition (position_after fl sr cf i (length chunk)));
                 (tid, EVisualize chunk (length chunk))].
Proof.
  intros Hl Hp Hpause Hstop Hw Hne chunk.
  unfold thread_step. rewrite Hl, Hp, Hstop, Hpause. simpl negb. cbv iota.
  unfold chunk_body. rewrite Hw.
  destruct (py_slice data i (i + chunk_size)) as [| f c] eqn:E; [congruence |].
  cbn [length Nat.eqb]. cbv iota. fold chunk.
  cbn [output update_thread set_threads]. rewrite output_observe. reflexivity.
Qed.

(** C4, as the code has it.  [changeVolume] always stores the new setting in
    the player.  If the current session is not muted, it also stores the new
    gain in the session, and the next chunk the session writes is the data
    scaled by the new gain.  If the current session is muted, the session is
    left as it is: its gain is the one from before the change. *)
Theorem volume_change_reaches_unmuted_session value p tid t :
  audio_thread p = Some tid -> threads p !! tid = Some t ->
  let p' := changeVolume fl value p in
  let g := fl (inject_Z value / 100)%Q in
  volume_level p' = value /\
  (muted t = true -> threads p' = threads p) /\
  (muted t = false ->
   threads p' !! tid = Some (with_volume g t) /\
   forall sr cf data i rest w,
     phase t = Streaming sr cf data (i :: rest) w ->
     pause_event t = true -> negb w && stop_flag t = false ->
     stream_write env tid i = true ->
     py_slice data i (i + chunk_size) <> [] ->
     let chunk := scale_chunk fl g (py_slice data i (i + chunk_size)) in
     output (thread_step fl env tid p')
     = output p ++ [(tid, EWrite chunk);
                    (tid, EPosition (position_after fl sr cf i (length chunk)));
                    (tid, EVisualize chunk (length chunk))]).
Proof.
  intros Ha Hl p' g.
  assert (Hmuted : muted t = true -> p' = set_volume_level value p).
  { intros Hm. subst p'. unfold changeVolume.
    cbn [audio_thread set_volume_level threads]. rewrite Ha, Hl, Hm. reflexivity. }
  assert (Hclear : muted t = false ->
                   p' = update_thread tid (with_volume g) (set_volume_level value p)).
  { intros Hm. subst p'. unfold changeVolume.
    cbn [audio_thread set_volume_level threads]. rewrite Ha, Hl, Hm. reflexivity. }
  split; [destruct (muted t); [rewrite Hmuted | rewrite Hclear]; reflexivity |].
  split; intros Hm; [rewrite (Hmuted Hm); reflexivity |].
  rewrite (Hclear Hm).
  assert (Hl' : threads (update_thread tid (with_volume g) (set_volume_level value p)) !! tid
                = Some (with_volume g t)).
  { apply update_thread_lookup. exact Hl. }
  split; [exact Hl' |].
  intros sr cf data i rest w Hp Hpause Hstop Hw Hne. cbv zeta.
  rewrite (thread_step_writes tid _ (with_volume g t) sr cf data i rest w Hl' Hp Hpause Hstop Hw Hne).
  unfold process_chunk. cbn [muted volume with_volume]. rewrite Hm. reflexivity.
Qed.


(** *** What exactly a restart does *)

Lemma session_of_transport tid p q :
  transport p = transport q -> session_of fl env tid p = session_of fl env tid q.
Proof.
  unfold transport, session_of, start_phase, AudioThread_init.
  intros [= _ _ -> -> _ _ ->]. reflexivity.
Qed.

Lemma spawn_spec p :
  transport (spawn fl env p) = transport p /\
  playback_history (spawn fl env p) = playback_history p /\
  audio_thread (spawn fl env p) = Some (length (threads p)) /\
  threads (spawn fl env p) = threads p ++ [session_of fl env (length (threads p)) p].
Proof.
  unfold spawn, session_of.
  destruct (start_phase fl env (length (threads p)) p) as [ph evs] eqn:E.
  assert (Hevs : evs = [] \/ exists m, evs = [EError m]).
  { unfold start_phase in E. destruct (currentTrack p) as [trk |]; [| injection E; auto].
    destruct (open_session _ _ _ _ _) as [m | [[sr cf] data]]; injection E; eauto. }
  destruct Hevs as [-> | [m ->]]; simpl; auto.
Qed.

Lemma addToHistory_spec track p :
  transport (addToHistory track p) = transport p /\
  audio_thread (addToHistory track p) = audio_thread p /\
  threads (addToHistory track p) = threads p.
Proof. unfold addToHistory. destruct (existsb _ _); simpl; auto. Qed.

Lemma start_current_spec p trk :
  0 <= currentTrackIndex p < Z.of_nat (length (tracks p)) ->
  tracks p !! Z.to_nat (currentTrackIndex p) = Some trk ->
  let q := set_currentTrack (Some trk) p in
  transport (start_current fl env p) = transport q /\
  audio_thread (start_current fl env p) = Some (length (threads p)) /\
  threads (start_current fl env p) = threads p ++ [session_of fl env (length (threads p)) q].
Proof.
  intros Hi Ht q. unfold start_current. rewrite Ht.
  destruct (Z.leb_spec 0 (currentTrackIndex p)); [| lia].
  destruct (Z.ltb_spec (currentTrackIndex p) (Z.of_nat (length (tracks p)))); [| lia].
  simpl negb. cbv iota. fold q.
  destruct (addToHistory_spec trk (spawn fl env q)) as (A1 & A2 & A3).
  destruct (spawn_spec q) as (S1 & _ & S2 & S3).
  rewrite A1, A2, A3, S1, S2, S3. auto.
Qed.

(** The end of a session when repeat is on: the same track starts again,
    from the position the player has at that moment. *)
Lemma playback_finished_repeat p trk :
  repeat p = true ->
  0 <= currentTrackIndex p < Z.of_nat (length (tracks p)) ->
  tracks p !! Z.to_nat (currentTrackIndex p) = Some trk ->
  let q := set_currentTrack (Some trk) p in
  transport (playback_finished fl env p) = transport q /\
  audio_thread (playback_finished fl env p) = Some (length (threads p)) /\
  threads (playback_finished fl env p)
  = threads p ++ [session_of fl env (length (threads p)) q].
Proof.
  intros Hr Hi Ht q. unfold playback_finished.
  cbn [repeat set_audio_thread]. rewrite Hr.
  destruct (start_current_spec (set_audio_thread None p) trk Hi Ht) as (T & A & Th).
  cbv zeta in *. rewrite T, A, Th. repeat split.
Qed.



Lemma thread_step_exited tid p t :
  threads p !! tid = Some t -> phase t = Exited -> thread_step fl env tid p = p.
Proof. intros Hl Hp. unfold thread_step. rewrite Hl, Hp. reflexivity. Qed.

(** A thread between two chunks that finds its stop flag set goes through
    [finally]. *)
Lemma thread_step_stopped tid p t sr cf data pending :
  threads p !! tid = Some t -> phase t = Streaming sr cf data pending false ->
  stop_flag t = true -> thread_step fl env tid p = finalize fl env tid p.
Proof.
  intros Hl Hp Hs. unfold thread_step. rewrite Hl, Hp, Hs.
  destruct pending; reflexivity.
Qed.





Lemma Qltb_lt (a b : Q) : Qltb a b = true <-> (a < b)%Q.
Proof.
  unfold Qltb. rewrite negb_true_iff. split.
  - intros E. apply Qnot_le_lt. intros H. apply Qle_bool_iff in H. congruence.
  - intros H. destruct (Qle_bool b a) eqn:E; [| reflexivity].
    apply Qle_bool_iff in E. exfalso. apply (Qlt_not_le _ _ H E).
Qed.



(** *** The source text of [playback_finished], and [join] *)

Lemma stopPlayback_idle p : audio_thread p = None -> stopPlayback fl env p = p.
Proof. intros H. unfold stopPlayback. rewrite H. reflexivity. Qed.

Lemma playCurrentTrack_idle p :
  audio_thread p = None -> playCurrentTrack fl env p = start_current fl env p.
Proof. intros H. unfold playCurrentTrack. rewrite stopPlayback_idle by exact H. reflexivity. Qed.

(** [playback_finished] as the source writes it. *)
Lemma playback_finished_unfold p :
  playback_finished fl env p
  = let p := set_audio_thread None p in
    if repeat p then playCurrentTrack fl env p else nextTrack fl env p.
Proof.
  unfold playback_finished, nextTrack, nextTrack_with, randint. cbv zeta.
  cbn [repeat shuffle tracks set_audio_thread].
  destruct (repeat p).
  - rewrite playCurrentTrack_idle; reflexivity.
  - destruct (0 <? length (tracks p))%nat; [| reflexivity].
    destruct (shuffle p); rewrite playCurrentTrack_idle; reflexivity.
Qed.

Lemma start_current_position p :
  playback_position (start_current fl env p) = playback_position p /\
  currentTrackIndex (start_current fl env p) = currentTrackIndex p.
Proof.
  unfold start_current.
  destruct (negb _); [auto |].
  destruct (tracks p !! Z.to_nat (currentTrackIndex p)) as [trk |]; [| auto].
  destruct (addToHistory_spec trk (spawn fl env (set_currentTrack (Some trk) p))) as (A & _).
  destruct (spawn_spec (set_currentTrack (Some trk) p)) as (S & _).
  rewrite S in A. unfold transport in A. injection A as _ A1 _ A2 _ _ _.
  simpl in *. auto.
Qed.

(** With repeat on, the completion handler keeps the index and does not
    reset the position: the session it starts begins where the finished one
    stopped. *)
Lemma playback_finished_repeat_position p :
  repeat p = true ->
  playback_position (playback_finished fl env p) = playback_position p /\
  currentTrackIndex (playback_finished fl env p) = currentTrackIndex p.
Proof.
  intros Hr. unfold playback_finished. cbn [repeat set_audio_thread]. rewrite Hr.
  apply (start_current_position (set_audio_thread None p)).
Qed.

(** The threads of the store are never removed and a step of one thread
    changes no other. *)
Lemma start_current_threads p :
  exists l, threads (start_current fl env p) = threads p ++ l.
Proof.
  unfold start_current.
  destruct (negb _); [exists []; rewrite app_nil_r; reflexivity |].
  destruct (tracks p !! Z.to_nat (currentTrackIndex p)) as [trk |];
    [| exists []; rewrite app_nil_r; reflexivity].
  destruct (addToHistory_spec trk (spawn fl env (set_currentTrack (Some trk) p))) as (_ & _ & A).
  destruct (spawn_spec (set_currentTrack (Some trk) p)) as (_ & _ & _ & S).
  rewrite A, S. eexists. reflexivity.
Qed.

Lemma playback_finished_threads p :
  exists l, threads (playback_finished fl env p) = threads p ++ l.
Proof.
  unfold playback_finished, nextTrack_with, randint. cbv zeta.
  cbn [repeat shuffle tracks set_audio_thread].
  destruct (repeat p); [apply (start_current_threads (set_audio_thread None p)) |].
  destruct (0 <? length (tracks p))%nat; [| exists []; rewrite app_nil_r; reflexivity].
  destruct (shuffle p);
    match goal with |- context [start_current fl env ?q] =>
      apply (start_current_threads q) end.
Qed.

Lemma threads_observe tid evs p : threads (observe tid evs p) = threads p.
Proof.
  unfold observe. revert p. induction evs as [| ev evs IH]; intros p; simpl; [reflexivity |].
  rewrite IH. destruct ev; reflexivity.
Qed.

Lemma finalize_exits tid p t :
  threads p !! tid = Some t ->
  threads (finalize fl env tid p) !! tid = Some (with_phase Exited t).
Proof.
  intros Hl. unfold finalize.
  match goal with |- context [playback_finished fl env ?q] =>
    destruct (playback_finished_threads q) as [l ->]; set (q0 := q) end.
  assert (H : threads q0 !! tid = Some (with_phase Exited t)).
  { subst q0. apply update_thread_lookup. rewrite threads_observe. exact Hl. }
  rewrite lookup_app_l; [exact H | apply lookup_lt_Some in H; exact H].
Qed.

(** Two steps are all [join] needs once [stopPlayback] has set the flags. *)
Lemma join_exits tid p t :
  threads p !! tid = Some t -> stop_flag t = true -> pause_event t = true ->
  exists t', threads (join fl env tid p) !! tid = Some t' /\ phase t' = Exited
             /\ stop_flag t' = true.
Proof.
  intros Hl Hs Hp. unfold join.
  assert (Done : forall q u, threads q !! tid = Some u -> phase u = Exited ->
            stop_flag u = true ->
            exists t', threads (thread_step fl env tid q) !! tid = Some t'
                       /\ phase t' = Exited /\ stop_flag t' = true).
  { intros q u Hq Hu Hsu. rewrite (thread_step_exited tid q u Hq Hu). eauto. }
  assert (Fin : forall q u, threads q !! tid = Some u -> stop_flag u = true ->
            exists t', threads (thread_step fl env tid (finalize fl env tid q)) !! tid = Some t'
                       /\ phase t' = Exited /\ stop_flag t' = true).
  { intros q u Hq Hsu. eapply Done; [apply finalize_exits, Hq | reflexivity | exact Hsu]. }
  assert (Body : forall sr cf data i rest,
            exists t',
              threads (thread_step fl env tid
                         (let '(evs, continue) := chunk_body fl env tid t sr cf data i in
                          let p := observe tid evs p in
                          if continue then
                            update_thread tid (with_phase (Streaming sr cf data rest false)) p
                          else finalize fl env tid p)) !! tid = Some t'
              /\ phase t' = Exited /\ stop_flag t' = true).
  { intros sr cf data i rest.
    destruct (chunk_body fl env tid t sr cf data i) as [evs continue].
    cbv beta iota zeta.
    assert (Ho : threads (observe tid evs p) !! tid = Some t)
      by (rewrite threads_observe; exact Hl).
    destruct continue; [| eapply Fin; [exact Ho | exact Hs]].
    set (u := with_phase (Streaming sr cf data rest false) t).
    assert (Hu : threads (update_thread tid (with_phase (Streaming sr cf data rest false))
                            (observe tid evs p)) !! tid = Some u)
      by (apply update_thread_lookup, Ho).
    rewrite (thread_step_stopped tid _ u sr cf data rest Hu eq_refl Hs).
    eexists. split; [apply finalize_exits, Hu | split; [reflexivity | exact Hs]]. }
  destruct (phase t) as [| sr cf data pending waiting | sr cf data pending] eqn:Hph.
  - rewrite (thread_step_exited tid p t Hl Hph). eapply Done; eassumption.
  - unfold thread_step at 2. rewrite Hl, Hph, Hs, Hp.
    destruct pending as [| i rest]; [eapply Fin; eassumption |].
    destruct waiting; simpl andb; cbv iota; [| eapply Fin; eassumption].
    simpl negb. cbv iota. apply Body.
  - unfold thread_step at 2. rewrite Hl, Hph.
    destruct pending as [| i rest]; [eapply Fin; eassumption | apply Body].
Qed.

(** A step of a thread between two chunks, not paused, is an iteration of
    the loop of [run]. *)
Lemma thread_step_runs_loop_body tid p t sr cf data i rest :
  threads p !! tid = Some t ->
  phase t = Streaming sr cf data (i :: rest) false -> pause_event t = true ->
  snd (loop_body fl env tid t sr cf data i) = true ->
  output (thread_step fl env tid p)
  = output p ++ map (fun ev => (tid, ev)) (fst (loop_body fl env tid t sr cf data i)) /\
  phase <$> threads (thread_step fl env tid p) !! tid
  = Some (Streaming sr cf data rest false).
Proof.
  intros Hl Hp Hpause Hc. unfold thread_step. rewrite Hl, Hp, Hpause.
  unfold loop_body in *. destruct (stop_flag t); [discriminate |].
  simpl andb. simpl negb. cbv iota.
  destruct (chunk_body fl env tid t sr cf data i) as [evs continue].
  simpl in Hc. subst continue. simpl fst. split.
  - cbn [output update_thread set_threads]. apply output_observe.
  - cbn [threads update_thread set_threads]. rewrite threads_observe.
    rewrite list_lookup_alter_eq, Hl. reflexivity.
Qed.

End ControllerFacts.

(** ** Playlists as text *)

Lemma universal_newlines_id (s : pstr) : ~ In 13%N s -> universal_newlines s = s.
Proof.
  induction s as [| c rest IH]; simpl; [reflexivity |].
  intros H. destruct (N.eqb_spec c 13) as [-> | _]; [tauto |].
  rewrite IH by tauto. reflexivity.
Qed.

Lemma split_lines_line (s rest cur : pstr) :
  ~ In 10%N s ->
  split_lines (s ++ 10%N :: rest) cur = (cur ++ s ++ [10%N]) :: split_lines rest [].
Proof.
  revert cur. induction s as [| c s IH]; intros cur H; simpl.
  - reflexivity.
  - destruct (N.eqb_spec c 10) as [-> | _]; [simpl in H; tauto |].
    rewrite IH by (simpl in H; tauto). rewrite <- app_assoc. reflexivity.
Qed.

Lemma playlist_text_no_cr (l : list AudioTrack) :
  Forall (fun t => line_safe (path t)) l -> ~ In 13%N (playlist_text l).
Proof.
  unfold playlist_text. induction 1 as [| t l [_ [_ H13]] _ IH]; simpl; [tauto |].
  rewrite <- app_assoc, !in_app_iff. simpl. intros [H | [[H | []] | H]]; [tauto | lia | tauto].
Qed.

Lemma readlines_playlist_text (l : list AudioTrack) :
  Forall (fun t => line_safe (path t)) l ->
  readlines (playlist_text l) = map (fun t => path t ++ [10%N]) l.
Proof.
  intros H. unfold readlines.
  rewrite universal_newlines_id by (apply playlist_text_no_cr, H).
  unfold playlist_text. induction H as [| t l [_ [H10 _]] _ IH]; simpl; [reflexivity |].
  rewrite <- app_assoc. simpl. rewrite split_lines_line by exact H10.
  rewrite IH. reflexivity.
Qed.

Lemma lstrip_length (s : pstr) : (length (lstrip s) <= length s)%nat.
Proof.
  induction s as [| c s IH]; simpl; [lia |].
  destruct (is_space c); simpl; lia.
Qed.

Lemma lstrip_fixed (s : pstr) : length (lstrip s) = length s -> lstrip s = s.
Proof.
  destruct s as [| c s]; simpl; [reflexivity |].
  destruct (is_space c); [| reflexivity].
  pose proof (lstrip_length s). simpl. lia.
Qed.

Lemma strip_fixed (s : pstr) : strip s = s -> lstrip s = s /\ lstrip (rev s) = rev s.
Proof.
  intros H.
  assert (L : length (strip s) = length s) by (rewrite H; reflexivity).
  unfold strip in L. rewrite length_rev in L.
  pose proof (lstrip_length (rev (lstrip s))) as L1. rewrite length_rev in L1.
  pose proof (lstrip_length s) as L2.
  assert (E : lstrip s = s) by (apply lstrip_fixed; lia).
  split; [exact E |].
  unfold strip in H. rewrite E in H.
  rewrite <- H at 2. rewrite rev_involutive. reflexivity.
Qed.

Lemma strip_line (s : pstr) : strip s = s -> strip (s ++ [10%N]) = s.
Proof.
  intros H. destruct (strip_fixed s H) as [E1 E2]. unfold strip.
  destruct s as [| c s]; [reflexivity |].
  assert (Hc : is_space c = false).
  { simpl in E1. destruct (is_space c); [| reflexivity].
    pose proof (lstrip_length s) as L. rewrite E1 in L. simpl in L. lia. }
  assert (E : lstrip ((c :: s) ++ [10%N]) = (c :: s) ++ [10%N])
    by (simpl; rewrite Hc; reflexivity).
  rewrite E, rev_unit.
  change (lstrip (10%N :: rev (c :: s))) with (lstrip (rev (c :: s))).
  rewrite E2. apply rev_involutive.
Qed.

Lemma path_AudioTrack_new fl env o f : path (AudioTrack_new fl env o f) = f.
Proof.
  unfold AudioTrack_new. destruct (extract_metadata env f (basename f)) as [[a b] c].
  reflexivity.
Qed.

Lemma load_lines fl env (l : list AudioTrack) (q : Player) :
  Forall (fun t => line_safe (path t)) l ->
  map path (tracks (fold_left
                      (fun p line =>
                         let path := strip line in
                         if isfile env path then append_track fl env path p else p)
                      (map (fun t => path t ++ [10%N]) l) q))
  = map path (tracks q) ++ List.filter (isfile env) (map path l).
Proof.
  intros H. revert q. induction H as [| t l [Hs _] _ IH]; intros q; simpl.
  - rewrite app_nil_r. reflexivity.
  - rewrite (strip_line _ Hs). destruct (isfile env (path t)).
    + rewrite IH. simpl. rewrite map_app. simpl. rewrite path_AudioTrack_new.
      rewrite <- app_assoc. reflexivity.
    + apply IH.
Qed.

(** C9, as the code has it.  For a playlist whose paths contain no line
    break and neither start nor end with white space, loading the text that
    saving wrote gives tracks with the same paths in the same order, less
    those that are not files when the text is loaded. *)
Theorem playlist_round_trip fl env (p q : Player) (text : pstr) :
  Forall (fun t => line_safe (path t)) (tracks p) ->
  savePlaylist p = Some text ->
  map path (tracks (loadPlaylist fl env text q))
  = List.filter (isfile env) (map path (tracks p)).
Proof.
  intros H S. unfold savePlaylist in S.
  assert (E : text = playlist_text (tracks p))
    by (destruct (tracks p); [discriminate | injection S; auto]).
  subst text. unfold loadPlaylist.
  rewrite (readlines_playlist_text _ H). apply (load_lines fl env _ (set_tracks [] q) H).
Qed.

(** ** The player at work in the small world *)

Lemma reachable_exec_all fl env (l : list Action) (p : Player) :
  reachable fl env p -> reachable fl env (exec_all fl env l p).
Proof.
  revert p. induction l as [| a l IH]; intros p H; simpl; [exact H |].
  apply IH, reachable_exec, H.
Qed.

(** C1.  [a.wav] is played to its end with repeat on: two chunks are
    written, the position stands at 250 ms, the loop is exhausted and the
    completion handler runs.  The index stays 0 and a new session is made,
    but the handler does not reset the position: the new session starts at
    frame 2000, the end of the 2000 frames of the file, and has no data left
    to play, where the claim has it start at frame 0. *)
Theorem repeat_restarts_at_the_end_of_the_track :
  let p := exec_all exact env_demo [ThreadStep 0; ThreadStep 0; ThreadStep 0] repeating_a in
  repeat repeating_a = true /\
  playback_position repeating_a = 0%Q /\
  length (written_chunks (map snd (output p))) = 2%nat /\
  completions (map snd (output p)) = 1%nat /\
  currentTrackIndex p = 0 /\
  playback_position p = 250%Q /\
  audio_thread p = Some 1%nat /\
  phase <$> threads p !! 1%nat = Some (Streaming 8000 2000 [] [] false) /\
  start_frame exact 0 8000 = 0.
Proof. vm_compute. repeat split; reflexivity. Qed.

(** C2, at work: half-way between two integers the scaled sample loses its
    fraction, and a muted thread writes zeros whatever its gain. *)
Lemma written_chunk_silent_or_scaled_witness :
  Forall2 (Forall2 (fun s o =>
             o = clip16 (Qtrunc (exact (inject_Z s * (1 # 8))%Q)) /\
             o = Qtrunc (exact (inject_Z s * (1 # 8))%Q) /\ int16 o))
          [[100; -100]] [[12; -12]] /\
  Forall2 (Forall2 (fun _ o => o = 0)) [[100; -100]] [[0; 0]].
Proof.
  split.
  - refine (proj2 (written_chunk_silent_or_scaled exact env_demo 0
                     (thread_with false (1 # 8)) 8000 0 [[100; -100]] 0 [[12; -12]]
                     exact_rounding _ _) eq_refl _).
    + repeat constructor; unfold int16; lia.
    + vm_compute. left. reflexivity.
    + split; unfold Qle; simpl; lia.
  - refine (proj1 (written_chunk_silent_or_scaled exact env_demo 0
                     (thread_with true (1 # 8)) 8000 0 [[100; -100]] 0 [[0; 0]]
                     exact_rounding _ _) eq_refl).
    + repeat constructor; unfold int16; lia.
    + vm_compute. left. reflexivity.
Defined.

(** C3 refuted.  [b.wav] holds the one frame (100, -100).  Played at gain
    1/2 and unmuted, the chunk after muting and before the gain is that
    frame, and the visualization callback gets (50, -50), the chunk the
    device got. *)
Lemma visualization_gets_the_scaled_chunk :
  sf_read env_demo path_b = Some (Arr2 [[100; -100]], 8000%positive) /\
  run exact env_demo 0 path_b 0 (fun _ => thread_with false (1 # 2))
  = [EWrite [[50; -50]]; EPosition (1 # 8); EVisualize [[50; -50]] 1;
     ERelease; EFinished] /\
  pre_gain_chunk (thread_with false (1 # 2)) [[100; -100]] = [[100; -100]] /\
  [[50; -50]] <> [[100; -100]].
Proof. repeat split; try (vm_compute; reflexivity). discriminate. Qed.

(** C4, at work: the slider moves to 20 while [a.wav] plays unmuted, and the
    next chunk written is the data at gain 1/5. *)
Lemma volume_change_reaches_unmuted_session_witness :
  volume_level (changeVolume exact 20 playing_a) = 20 /\
  written_chunks (map snd (output (thread_step exact env_demo 0
                                     (changeVolume exact 20 playing_a))))
  = [replicate 1024 [20]].
Proof.
  eassert (Hl : threads playing_a !! 0%nat = Some _) by (vm_compute; reflexivity).
  pose proof (volume_change_reaches_unmuted_session exact env_demo 20 playing_a 0%nat _
                eq_refl Hl) as (H1 & _ & H3).
  split; [exact H1 |].
  destruct (H3 eq_refl) as (_ & H5).
  erewrite H5; [| vm_compute; reflexivity | reflexivity | reflexivity | reflexivity
                | vm_compute; discriminate].
  vm_compute. reflexivity.
Defined.

(** C4 refuted.  [a.wav] plays at the initial setting 80, is muted, and the
    slider moves to 20: the player stores 20 and the session keeps gain 4/5.
    Unmuted again, the session writes its next chunk at gain 4/5, every
    sample 80, not at the new gain 1/5, which would make every sample 20. *)
Lemma volume_change_while_muted_is_not_applied :
  let p := muted_then_turned_down in
  let p' := exec_all exact env_demo [ToggleMute; ThreadStep 0] p in
  volume_level p = 20 /\
  gain_state <$> threads p !! 0%nat = Some (true, 4 # 5) /\
  gain_state <$> threads p' !! 0%nat = Some (false, 4 # 5) /\
  written_chunks (map snd (output p')) = [replicate 1024 [80]] /\
  scale_chunk exact (exact (inject_Z 20 / 100)) (replicate 1024 [100])
  = replicate 1024 [20] /\
  replicate 1024 [80] <> replicate 1024 [20].
Proof. repeat split; try (vm_compute; reflexivity). vm_compute. discriminate. Qed.


(** C7, at work, on the player that played [a.wav] and then [b.wav]. *)
Lemma history_bounded_distinct_front_insert_witness :
  let a := AudioTrack_new exact env_demo 0 path_a in
  history_ok played_a_then_b /\
  map oid (playback_history played_a_then_b) = [1; 0]%nat /\
  addToHistory a played_a_then_b = played_a_then_b.
Proof.
  pose proof (history_bounded_distinct_front_insert exact env_demo played_a_then_b
                (AudioTrack_new exact env_demo 0 path_a)
                (reachable_exec_all _ _ _ _ (reachable_init _ _))) as (H1 & _ & _ & H4).
  split; [exact H1 |]. split; [vm_compute; reflexivity |].
  apply H4. vm_compute. reflexivity.
Defined.

(** C7 refuted.  The history holds [b.wav], then [a.wav]; [a.wav] is played
    again, and the history is as before, where the claim moves [a.wav] to
    the front. *)
Lemma replayed_track_keeps_its_place :
  let p := exec exact env_demo (PlaySelectedTrack 0) played_a_then_b in
  map oid (playback_history played_a_then_b) = [1; 0]%nat /\
  oid <$> currentTrack p = Some 0%nat /\
  map oid (playback_history p) = [1; 0]%nat /\
  (exists a, currentTrack p = Some a /\
             map oid (moved_to_front a (playback_history played_a_then_b)) = [0; 1]%nat) /\
  [1; 0]%nat <> [0; 1]%nat.
Proof.
  repeat split; try (vm_compute; reflexivity); [| discriminate].
  eexists. split; vm_compute; reflexivity.
Qed.


(** C6, at work: a device that fails on the second chunk, a stop request
    seen at the second iteration, a missing file, and a start one second
    into a file of a quarter of a second. *)
Lemma session_fails_silently_or_completes_once_witness :
  let playing := fun _ : nat => thread_with false 1 in
  let stopped_at_1 := fun k : nat =>
    if (k =? 0)%nat then thread_with false 1 else with_stop_flag true (thread_with false 1) in
  completions (run exact env_flaky 0 path_a 0 playing) = 1%nat /\
  List.filter is_error (run exact env_flaky 0 path_a 0 playing) = [EError "Playback error"] /\
  completions (run exact env_demo 0 path_a 0 stopped_at_1) = 1%nat /\
  length (written_chunks (run exact env_demo 0 path_a 0 stopped_at_1)) = 1%nat /\
  (exists message, run exact env_demo 0 (pstr_of "gone.wav") 0 playing = [EError message]) /\
  run exact env_demo 0 path_a 1000 playing = [ERelease; EFinished].
Proof.
  cbv zeta.
  split; [| split; [vm_compute; reflexivity |]].
  - eapply (proj2 (session_fails_silently_or_completes_once exact env_flaky 0 path_a 0 _));
      vm_compute; reflexivity.
  - split; [| split; [vm_compute; reflexivity |]].
    + eapply (proj2 (session_fails_silently_or_completes_once exact env_demo 0 path_a 0 _));
        vm_compute; reflexivity.
    + split.
      * apply (proj1 (session_fails_silently_or_completes_once exact env_demo 0
                        (pstr_of "gone.wav") 0 _)).
        left. vm_compute. reflexivity.
      * eapply (proj2 (session_fails_silently_or_completes_once exact env_demo 0 path_a
                         1000 _)); vm_compute; try reflexivity. discriminate.
Defined.

Lemma demo_paths_line_safe :
  Forall (fun t => line_safe (path t)) (tracks played_a_then_b).
Proof.
  assert (E : tracks played_a_then_b
              = [AudioTrack_new exact env_demo 0 path_a;
                 AudioTrack_new exact env_demo 1 path_b])
    by (vm_compute; reflexivity).
  rewrite E. repeat constructor; rewrite path_AudioTrack_new;
    try (vm_compute; reflexivity); simpl; intuition discriminate.
Qed.

(** C9, at work: the playlist of [a.wav] and [b.wav] comes back as it was,
    and without [b.wav] when that file was deleted before loading. *)
Lemma playlist_round_trip_witness :
  map path (tracks played_a_then_b) = [path_a; path_b] /\
  savePlaylist played_a_then_b = Some (playlist_text (tracks played_a_then_b)) /\
  map path (tracks (loadPlaylist exact env_demo
                      (playlist_text (tracks played_a_then_b)) init_player))
  = [path_a; path_b] /\
  map path (tracks (loadPlaylist exact env_without_b
                      (playlist_text (tracks played_a_then_b)) init_player))
  = [path_a].
Proof.
  assert (S : savePlaylist played_a_then_b = Some (playlist_text (tracks played_a_then_b)))
    by (vm_compute; reflexivity).
  split; [vm_compute; reflexivity |]. split; [exact S |]. split.
  - rewrite (playlist_round_trip exact env_demo played_a_then_b init_player _
               demo_paths_line_safe S).
    vm_compute. reflexivity.
  - rewrite (playlist_round_trip exact env_without_b played_a_then_b init_player _
               demo_paths_line_safe S).
    vm_compute. reflexivity.
Defined.

(** C9 refuted.  The playlist holds the one path [" c.wav"], which is a
    file.  The saved text is that path and a line break.  Loading it strips
    the blank and looks for ["c.wav"], which is no file: the loaded playlist
    is empty, where the claim has it hold [" c.wav"]. *)
Lemma path_with_leading_blank_is_lost :
  let text := path_c ++ [10%N] in
  map path (tracks listing_c) = [path_c] /\
  savePlaylist listing_c = Some text /\
  List.filter (isfile env_demo) [path_c] = [path_c] /\
  map path (tracks (loadPlaylist exact env_demo text listing_c)) = [] /\
  [] <> [path_c].
Proof. repeat split; try (vm_compute; reflexivity). discriminate. Qed.

(** C10, at work: [a.wav] plays muted with the slider moved to 20; the
    sessions that [nextTrack] makes are unmuted and have gain 1/5. *)
Lemma new_session_unmuted_at_volume_setting_witness :
  let p := exec exact env_demo NextTrack muted_then_turned_down in
  gain_state <$> threads muted_then_turned_down !! 0%nat = Some (true, 4 # 5) /\
  length (threads muted_then_turned_down) = 1%nat /\
  exists t, threads p !! 1%nat = Some t /\ audio_thread p = Some 2%nat /\
            muted t = false /\ volume t = (1 # 5)%Q.
Proof.
  cbv zeta. split; [vm_compute; reflexivity |]. split; [vm_compute; reflexivity |].
  eassert (Hl : threads (exec exact env_demo NextTrack muted_then_turned_down) !! 1%nat
                = Some _) by (vm_compute; reflexivity).
  eexists. split; [exact Hl |]. split; [vm_compute; reflexivity |].
  destruct (new_session_unmuted_at_volume_setting exact env_demo NextTrack
              muted_then_turned_down 1%nat _ ltac:(vm_compute; lia) Hl) as (Hm & Hv & _).
  split; [exact Hm |]. rewrite Hv. vm_compute. reflexivity.
Defined.

(** Stopping a live session runs its completion handler.  [a.wav] and
    [b.wav] are in the playlist, repeat is off, [a.wav] plays and stands at
    128 ms.  [rewind15] sets the position to 0 and calls [playCurrentTrack];
    the stopped thread calls [playback_finished] on its way out, which moves
    the index on to [b.wav] and starts a session there, and
    [playCurrentTrack] then starts another. *)
Lemma stopping_a_session_moves_the_playlist_on :
  let p := rewind15 exact env_demo one_chunk_into_a in
  currentTrackIndex one_chunk_into_a = 0 /\
  playback_position one_chunk_into_a = 128%Q /\
  audio_thread one_chunk_into_a = Some 0%nat /\
  currentTrackIndex p = 1 /\
  playback_position p = 0%Q /\
  audio_thread p = Some 2%nat /\
  path <$> currentTrack p = Some path_b /\
  length (threads p) = 3%nat.
Proof. vm_compute. repeat split; reflexivity. Qed.

(** * Further properties of the code *)

(** ** The streaming loop, chunk by chunk *)

Lemma py_range_cover (n c : nat) : (0 < c)%nat -> (n <= (n + c - 1) / c * c)%nat.
Proof.
  intros Hc.
  pose proof (Nat.div_mod_eq (n + c - 1) c) as E.
  pose proof (Nat.mod_upper_bound (n + c - 1) c ltac:(lia)) as U.
  nia.
Qed.

Lemma py_range_below (n c i : nat) : (0 < c)%nat -> In i (py_range n c) -> (i < n)%nat.
Proof.
  intros Hc Hi. unfold py_range in Hi. apply in_map_iff in Hi.
  destruct Hi as (k & <- & Hk). apply in_seq in Hk.
  pose proof (Nat.div_mod_eq (n + c - 1) c) as E.
  pose proof (Nat.mod_upper_bound (n + c - 1) c ltac:(lia)) as U.
  nia.
Qed.

Lemma py_slice_chunk {A} (l : list A) (i c : nat) :
  py_slice l i (i + c) = take c (drop i l).
Proof. unfold py_slice. f_equal. lia. Qed.

Lemma chunks_from {A} (l : list A) (c a m : nat) :
  concat (map (fun i => py_slice l i (i + c)) (map (fun k => (k * c)%nat) (seq a m)))
  = take (m * c) (drop (a * c) l).
Proof.
  revert a. induction m as [| m IH]; intros a; simpl; [reflexivity |].
  rewrite IH, py_slice_chunk.
  replace (S a * c)%nat with (a * c + c)%nat by lia.
  rewrite <- drop_drop, take_take_drop. reflexivity.
Qed.

(** The chunks of the loop are the data, cut up. *)
Lemma chunks_cover {A} (l : list A) (c : nat) :
  (0 < c)%nat ->
  concat (map (fun i => py_slice l i (i + c)) (py_range (length l) c)) = l.
Proof.
  intros Hc. unfold py_range. rewrite chunks_from. simpl. rewrite drop_0.
  apply take_ge. apply py_range_cover, Hc.
Qed.

Lemma imap_ignore {A B} (f : A -> B) (l : list A) : imap (fun _ x => f x) l = map f l.
Proof. induction l as [| x l IH]; simpl; [reflexivity |]. f_equal. exact IH. Qed.

Section EngineMore.

Variable fl : Q -> Q.
Variable env : Env.

Lemma process_chunk_app self (a b : list frame) :
  process_chunk fl self (a ++ b) = process_chunk fl self a ++ process_chunk fl self b.
Proof.
  unfold process_chunk, scale_chunk, zeros_like.
  destruct (muted self); rewrite ?map_app; reflexivity.
Qed.

Lemma process_chunk_concat self (cs : list (list frame)) :
  process_chunk fl self (concat cs) = concat (map (process_chunk fl self) cs).
Proof.
  induction cs as [| c cs IH]; simpl.
  - unfold process_chunk. destruct (muted self); reflexivity.
  - rewrite process_chunk_app, IH. reflexivity.
Qed.

Lemma process_chunk_gain self self' (c : list frame) :
  gain_state self = gain_state self' -> process_chunk fl self c = process_chunk fl self' c.
Proof. unfold gain_state, process_chunk. intros [= -> ->]. reflexivity. Qed.

Lemma length_process_chunk self (c : list frame) :
  length (process_chunk fl self c) = length c.
Proof.
  unfold process_chunk, scale_chunk, zeros_like.
  destruct (muted self); rewrite ?length_map; reflexivity.
Qed.

Lemma zeros_like_process_chunk self (c : list frame) :
  zeros_like (process_chunk fl self c) = zeros_like c.
Proof.
  unfold process_chunk, scale_chunk, zeros_like.
  destruct (muted self); rewrite ?map_map; apply map_ext; intros f;
    rewrite ?map_map; reflexivity.
Qed.

(** What an iteration does when the thread is not stopped, the chunk is not
    empty and the device takes it. *)
Lemma loop_body_plays tid self sr cf data i :
  stop_flag self = false -> stream_write env tid i = true -> (i < length data)%nat ->
  let chunk := process_chunk fl self (py_slice data i (i + chunk_size)) in
  loop_body fl env tid self sr cf data i
  = ([EWrite chunk; EPosition (position_after fl sr cf i (length chunk));
      EVisualize chunk (length chunk)], true).
Proof.
  intros Hs Hw Hi chunk. unfold loop_body, chunk_body. rewrite Hs, Hw.
  destruct (Nat.eqb_spec (length (py_slice data i (i + chunk_size))) 0) as [E | _];
    [| reflexivity].
  rewrite py_slice_chunk, length_take, length_drop in E. unfold chunk_size in E. lia.
Qed.

Lemma run_loop_plays tid sched sr cf data pending k :
  (forall k, stop_flag (sched k) = false) -> (forall i, stream_write env tid i = true) ->
  Forall (fun i => (i < length data)%nat) pending ->
  let t := run_loop fl env tid sched sr cf data pending k in
  written_chunks t
  = imap (fun j i => process_chunk fl (sched (k + j)%nat) (py_slice data i (i + chunk_size)))
         pending /\
  positions t
  = map (fun i => position_after fl sr cf i (length (py_slice data i (i + chunk_size))))
        pending.
Proof.
  intros Hs Hw Hp. revert k. induction Hp as [| i rest Hi _ IH]; intros k; [simpl; auto |].
  cbv zeta. cbn [run_loop].
  rewrite (loop_body_plays tid (sched k) sr cf data i (Hs k) (Hw i) Hi).
  destruct (IH (S k)) as [IHw IHp]. cbv zeta in IHw, IHp.
  unfold written_chunks, positions in *. rewrite !omap_app, IHw, IHp.
  rewrite length_process_chunk. cbn [imap map]. rewrite Nat.add_0_r. split; [| reflexivity].
  change (omap _ [EWrite ?c; _; _]) with [c]. simpl app.
  f_equal. apply imap_ext. intros j x _. simpl. do 2 f_equal. lia.
Qed.

(** X1.  A session that is never stopped, whose writes all succeed and
    whose mute flag and gain stay as they are in [self], hands the device the
    data from its first frame on, whole and in order, muted or scaled: the
    chunks lose no frame and repeat none. *)
Theorem uninterrupted_session_writes_all_data tid audio_path pos sched self sr cf data :
  open_session fl env tid audio_path pos = inr (sr, cf, data) ->
  (forall k, stop_flag (sched k) = false) ->
  (forall i, stream_write env tid i = true) ->
  (forall k, gain_state (sched k) = gain_state self) ->
  concat (written_chunks (run fl env tid audio_path pos sched))
  = process_chunk fl self data.
Proof.
  intros Ho Hs Hw Hg. unfold run. rewrite Ho.
  assert (Hp : Forall (fun i => (i < length data)%nat) (py_range (length data) chunk_size)).
  { apply Forall_forall. intros i Hi. apply list_elem_of_In in Hi.
    apply (py_range_below _ chunk_size); [unfold chunk_size; lia | exact Hi]. }
  destruct (run_loop_plays tid sched sr cf data _ 0 Hs Hw Hp) as [Hc _].
  unfold written_chunks in *. rewrite omap_app, Hc. simpl omap. rewrite app_nil_r.
  rewrite (imap_ext _ (fun _ i => process_chunk fl self (py_slice data i (i + chunk_size))))
    by (intros j x _; apply process_chunk_gain, Hg).
  rewrite imap_ignore.
  rewrite <- (map_map (fun i => py_slice data i (i + chunk_size)) (process_chunk fl self)).
  rewrite <- process_chunk_concat, chunks_cover by (unfold chunk_size; lia).
  reflexivity.
Qed.

Lemma millis_of_mono sr (b1 b2 : Z) :
  rounding fl -> b1 <= b2 -> (millis_of fl sr b1 <= millis_of fl sr b2)%Q.
Proof.
  intros R H. unfold millis_of. apply (fl_mono fl R).
  apply Qmult_le_compat_r; [| discriminate].
  apply (fl_mono fl R). unfold Qdiv. apply Qmult_le_compat_r.
  - unfold Qle. simpl. lia.
  - apply Qinv_le_0_compat. unfold Qle. simpl. lia.
Qed.

Lemma loop_body_positions tid self sr cf data i :
  positions (fst (loop_body fl env tid self sr cf data i)) = [] \/
  exists len, (len <= chunk_size)%nat /\
    positions (fst (loop_body fl env tid self sr cf data i))
    = [millis_of fl sr (cf + Z.of_nat i + Z.of_nat len)].
Proof.
  unfold loop_body, chunk_body. destruct (stop_flag self); [left; reflexivity |].
  destruct (length (py_slice data i (i + chunk_size)) =? 0)%nat; [left; reflexivity |].
  destruct (stream_write env tid i); [| left; reflexivity].
  right. exists (length (process_chunk fl self (py_slice data i (i + chunk_size)))).
  split; [| reflexivity].
  rewrite length_process_chunk, py_slice_chunk, length_take. lia.
Qed.

Lemma run_loop_positions_from tid sched sr cf data pending k lo :
  rounding fl -> Forall (fun j => (lo <= j)%nat) pending ->
  Forall (fun x => (millis_of fl sr (cf + Z.of_nat lo) <= x)%Q)
         (positions (run_loop fl env tid sched sr cf data pending k)).
Proof.
  intros R Hp. revert k. induction Hp as [| i rest Hi _ IH]; intros k; [constructor |].
  cbn [run_loop].
  pose proof (loop_body_positions tid (sched k) sr cf data i) as Hb.
  destruct (loop_body fl env tid (sched k) sr cf data i) as [evs continue].
  simpl fst in Hb. unfold positions in *. rewrite omap_app. apply Forall_app. split.
  - destruct Hb as [-> | (len & _ & ->)]; constructor; [| constructor].
    apply millis_of_mono; [exact R | lia].
  - destruct continue; [apply IH | constructor].
Qed.

Lemma run_loop_positions_sorted tid sched sr cf data pending k :
  rounding fl ->
  StronglySorted (fun i j => (i + chunk_size <= j)%nat) pending ->
  StronglySorted Qle (positions (run_loop fl env tid sched sr cf data pending k)).
Proof.
  intros R Hp. revert k. induction Hp as [| i rest _ IH Hi]; intros k; [constructor |].
  cbn [run_loop].
  pose proof (loop_body_positions tid (sched k) sr cf data i) as Hb.
  destruct (loop_body fl env tid (sched k) sr cf data i) as [evs continue].
  simpl fst in Hb. unfold positions in *. rewrite omap_app.
  destruct continue.
  - destruct Hb as [-> | (len & Hlen & ->)]; [apply IH |].
    simpl app. constructor; [apply IH |].
    pose proof (run_loop_positions_from tid sched sr cf data rest (S k) (i + chunk_size)
                  R Hi) as F.
    unfold positions in F. eapply Forall_impl; [exact F |].
    intros x Hx. eapply Qle_trans; [| exact Hx].
    apply millis_of_mono; [exact R | lia].
  - simpl omap at 2. rewrite app_nil_r.
    destruct Hb as [-> | (len & _ & ->)]; repeat constructor.
Qed.

Lemma py_range_spaced (n c : nat) :
  StronglySorted (fun i j => (i + c <= j)%nat) (py_range n c).
Proof.
  unfold py_range. generalize ((n + c - 1) / c)%nat as m. generalize 0%nat as a.
  intros a m. revert a. induction m as [| m IH]; intros a; simpl; constructor; [apply IH |].
  apply Forall_forall. intros j Hj. apply list_elem_of_In, in_map_iff in Hj.
  destruct Hj as (k & <- & Hk). apply in_seq in Hk. nia.
Qed.

(** X2.  The positions a session stores never decrease, whatever the flags
    it reads and whichever write fails. *)
Theorem positions_never_decrease tid audio_path pos sched :
  rounding fl ->
  StronglySorted Qle (positions (run fl env tid audio_path pos sched)).
Proof.
  intros R. unfold run.
  destruct (open_session fl env tid audio_path pos) as [m | [[sr cf] data]];
    [constructor |].
  unfold positions. rewrite omap_app. simpl omap at 2. rewrite app_nil_r.
  apply run_loop_positions_sorted; [exact R | apply py_range_spaced].
Qed.


Lemma chunk_body_silenced tid self self' sr cf data i :
  map silenced (fst (chunk_body fl env tid self sr cf data i))
  = map silenced (fst (chunk_body fl env tid self' sr cf data i)) /\
  snd (chunk_body fl env tid self sr cf data i)
  = snd (chunk_body fl env tid self' sr cf data i).
Proof.
  unfold chunk_body.
  destruct (length (py_slice data i (i + chunk_size)) =? 0)%nat; [auto |].
  destruct (stream_write env tid i); [| auto].
  simpl. rewrite !zeros_like_process_chunk, !length_process_chunk. auto.
Qed.

(** X4.  Two sessions on the same file from the same position that read the
    same stop flags, and differ in mute flags and gains as they may, do the
    same things at the same points: the same events in the same order, with
    the same positions, frame counts and shapes; only the samples differ.
    Muting and the volume never change the timing. *)
Theorem mute_and_gain_keep_the_timing tid audio_path pos sched sched' :
  (forall k, stop_flag (sched k) = stop_flag (sched' k)) ->
  map silenced (run fl env tid audio_path pos sched)
  = map silenced (run fl env tid audio_path pos sched').
Proof.
  intros Hs. unfold run.
  destruct (open_session fl env tid audio_path pos) as [m | [[sr cf] data]];
    [reflexivity |].
  rewrite !map_app. f_equal.
  generalize (py_range (length data) chunk_size) as pending. generalize 0%nat as k.
  intros k pending. revert k. induction pending as [| i rest IH]; intros k; [reflexivity |].
  cbn [run_loop]. unfold loop_body. rewrite <- (Hs k).
  destruct (stop_flag (sched k)); [reflexivity |].
  destruct (chunk_body_silenced tid (sched k) (sched' k) sr cf data i) as [E1 E2].
  destruct (chunk_body fl env tid (sched k) sr cf data i) as [evs c].
  destruct (chunk_body fl env tid (sched' k) sr cf data i) as [evs' c'].
  simpl in E1, E2. subst c'. rewrite !map_app, E1. f_equal.
  destruct c; [apply IH | reflexivity].
Qed.

End EngineMore.

(** ** Pausing and stopping *)

Section ControllerMore.

Variable fl : Q -> Q.
Variable env : Env.

Lemma position_observe_quiet tid evs p :
  positions evs = [] -> playback_position (observe tid evs p) = playback_position p.
Proof.
  unfold observe. revert p. induction evs as [| ev evs IH]; intros p H; [reflexivity |].
  simpl. destruct ev; try discriminate; rewrite IH by exact H; reflexivity.
Qed.

(** A thread that finds [pause_event] clear goes into the wait and stays. *)
Lemma thread_step_paused tid p t sr cf data i rest w :
  threads p !! tid = Some t ->
  phase t = Streaming sr cf data (i :: rest) w ->
  pause_event t = false -> negb w && stop_flag t = false ->
  thread_step fl env tid p
  = update_thread tid (with_phase (Streaming sr cf data (i :: rest) true)) p.
Proof.
  intros Hl Hp Hpause Hs. unfold thread_step. rewrite Hl, Hp, Hs, Hpause. reflexivity.
Qed.

Lemma paused_steps tid p t sr cf data i rest w n :
  threads p !! tid = Some t ->
  phase t = Streaming sr cf data (i :: rest) w ->
  pause_event t = false -> negb w && stop_flag t = false ->
  let q := Nat.iter n (thread_step fl env tid) p in
  output q = output p /\ playback_position q = playback_position p /\
  audio_thread q = audio_thread p /\ currentTrackIndex q = currentTrackIndex p /\
  length (threads q) = length (threads p) /\
  exists t' w', threads q !! tid = Some t' /\
    phase t' = Streaming sr cf data (i :: rest) w' /\ pause_event t' = false /\
    negb w' && stop_flag t' = false /\ gain_state t' = gain_state t /\
    stop_flag t' = stop_flag t.
Proof.
  intros Hl Hp Hpause Hs. induction n as [| n IH]; cbv zeta.
  - simpl. repeat split; auto. exists t, w. auto 10.
  - rewrite Nat.iter_succ. cbv zeta in IH.
    destruct IH as (O & P & A & I & L & t' & w' & Hl' & Hp' & Hpause' & Hs' & G & S).
    rewrite (thread_step_paused tid _ t' sr cf data i rest w' Hl' Hp' Hpause' Hs').
    simpl. rewrite length_alter. repeat split; auto.
    exists (with_phase (Streaming sr cf data (i :: rest) true) t'), true.
    rewrite list_lookup_alter_eq, Hl'. simpl. auto 10.
Qed.

(** A thread that [set()] has let out of the wait plays the chunk of the
    iteration when the device takes it, whatever its flags are by then. *)
Lemma thread_step_woken tid p t sr cf data i rest :
  threads p !! tid = Some t ->
  phase t = Woken sr cf data (i :: rest) ->
  stream_write env tid i = true ->
  py_slice data i (i + chunk_size) <> [] ->
  let chunk := process_chunk fl t (py_slice data i (i + chunk_size)) in
  thread_step fl env tid p
  = update_thread tid (with_phase (Streaming sr cf data rest false))
      (observe tid [EWrite chunk;
                    EPosition (position_after fl sr cf i (length chunk));
                    EVisualize chunk (length chunk)] p).
Proof.
  intros Hl Hp Hw Hne chunk.
  unfold thread_step. rewrite Hl, Hp.
  unfold chunk_body. rewrite Hw.
  destruct (py_slice data i (i + chunk_size)) as [| f c] eqn:E; [congruence |].
  reflexivity.
Qed.

(** X5.  Play/pause on a running session only clears [pause_event]: while it
    is clear the thread writes nothing and stores no position, however many
    steps it is given, and no session is made or dropped.  Play/pause again
    sets the event, and the thread's next step writes the chunk it would
    have written without the pause. *)
Theorem paused_session_waits_and_resumes p tid t sr cf data i rest n :
  0 <= currentTrackIndex p -> audio_thread p = Some tid -> threads p !! tid = Some t ->
  phase t = Streaming sr cf data (i :: rest) false ->
  pause_event t = true -> stop_flag t = false ->
  stream_write env tid i = true -> py_slice data i (i + chunk_size) <> [] ->
  let paused := Nat.iter n (thread_step fl env tid) (togglePlayPause fl env p) in
  output paused = output p /\
  playback_position paused = playback_position p /\
  audio_thread paused = Some tid /\
  length (threads paused) = length (threads p) /\
  output (thread_step fl env tid (togglePlayPause fl env paused))
  = output (thread_step fl env tid p).
Proof.
  intros Hi Ha Hl Hp Hpause Hs Hw Hne.
  assert (T1 : togglePlayPause fl env p = update_thread tid (with_pause_event false) p).
  { unfold togglePlayPause, pause_is_set. destruct (Z.ltb_spec (currentTrackIndex p) 0); [lia |].
    rewrite Ha, Hl, Hpause. reflexivity. }
  rewrite T1. cbv zeta.
  set (p1 := update_thread tid (with_pause_event false) p).
  assert (Hl1 : threads p1 !! tid = Some (with_pause_event false t))
    by (apply update_thread_lookup, Hl).
  destruct (paused_steps tid p1 (with_pause_event false t) sr cf data i rest false n
              Hl1 Hp eq_refl) as (O & P & A & I & L & t' & w' & Hl' & Hp' & Hpause' & Hs' & G & S).
  { simpl. exact Hs. }
  set (q := Nat.iter n (thread_step fl env tid) p1) in *.
  split; [exact O |]. split; [exact P |]. split; [rewrite A; exact Ha |].
  split; [rewrite L; subst p1; simpl; apply length_alter |].
  assert (T2 : togglePlayPause fl env q = update_thread tid event_set q).
  { unfold togglePlayPause, pause_is_set. rewrite I. simpl currentTrackIndex.
    destruct (Z.ltb_spec (currentTrackIndex p) 0); [lia |].
    rewrite A. simpl audio_thread. rewrite Ha, Hl', Hpause'. reflexivity. }
  rewrite T2.
  assert (Hl2 : threads (update_thread tid event_set q) !! tid = Some (event_set t'))
    by (apply update_thread_lookup, Hl').
  assert (Out : let chunk := process_chunk fl t' (py_slice data i (i + chunk_size)) in
                output (thread_step fl env tid (update_thread tid event_set q))
                = output q ++ [(tid, EWrite chunk);
                               (tid, EPosition (position_after fl sr cf i (length chunk)));
                               (tid, EVisualize chunk (length chunk))]).
  { cbv zeta. destruct w'.
    - rewrite (event_set_waiting t' _ _ _ _ Hp') in Hl2.
      rewrite (thread_step_woken tid _ _ sr cf data i rest Hl2 eq_refl Hw Hne).
      cbn [output update_thread set_threads]. rewrite output_observe. reflexivity.
    - rewrite (event_set_head t' _ _ _ _ Hp') in Hl2.
      rewrite (thread_step_writes fl env tid _ _ sr cf data i rest false Hl2 Hp' eq_refl
                 Hs' Hw Hne).
      reflexivity. }
  cbv zeta in Out. rewrite Out.
  rewrite (thread_step_writes fl env tid p t sr cf data i rest false Hl Hp Hpause
             ltac:(simpl; exact Hs) Hw Hne).
  rewrite O. subst p1. cbn [output update_thread set_threads].
  rewrite (process_chunk_gain fl t' t) by exact G. reflexivity.
Qed.

(** What the controller adds to the output on its own: no chunk. *)
Lemma start_current_output p :
  exists l, output (start_current fl env p) = output p ++ l
            /\ written_chunks (map snd l) = [].
Proof.
  unfold start_current.
  destruct (negb _); [exists []; rewrite app_nil_r; auto |].
  destruct (tracks p !! Z.to_nat (currentTrackIndex p)) as [trk |];
    [| exists []; rewrite app_nil_r; auto].
  set (q := set_currentTrack (Some trk) p).
  assert (Ha : output (addToHistory trk (spawn fl env q)) = output (spawn fl env q))
    by (unfold addToHistory; destruct (existsb _ _); reflexivity).
  rewrite Ha. unfold spawn.
  destruct (start_phase fl env (length (threads q)) q) as [ph evs] eqn:E.
  assert (Hevs : evs = [] \/ exists m, evs = [EError m]).
  { unfold start_phase in E. destruct (currentTrack q) as [t |]; [| injection E; auto].
    destruct (open_session _ _ _ _ _) as [m | [[sr cf] data]]; injection E; eauto. }
  rewrite output_observe. cbn [output set_audio_thread set_threads]. subst q.
  cbn [output set_currentTrack]. eexists. split; [reflexivity |].
  destruct Hevs as [-> | [m ->]]; reflexivity.
Qed.

Lemma playback_finished_output p :
  exists l, output (playback_finished fl env p) = output p ++ l
            /\ written_chunks (map snd l) = [].
Proof.
  unfold playback_finished, nextTrack_with, randint. cbv zeta.
  cbn [repeat shuffle tracks set_audio_thread].
  destruct (repeat p); [apply (start_current_output (set_audio_thread None p)) |].
  destruct (0 <? length (tracks p))%nat; [| exists []; rewrite app_nil_r; auto].
  destruct (shuffle p);
    match goal with |- context [start_current fl env ?q] =>
      apply (start_current_output q) end.
Qed.

Lemma finalize_output tid p :
  exists l, output (finalize fl env tid p)
            = output p ++ [(tid, ERelease); (tid, EFinished)] ++ l
            /\ written_chunks (map snd l) = [].
Proof.
  unfold finalize.
  match goal with |- context [playback_finished fl env ?q] =>
    destruct (playback_finished_output q) as (l & -> & Hl) end.
  exists l. split; [| exact Hl].
  cbn [output update_thread set_threads]. rewrite output_observe. simpl map.
  rewrite <- app_assoc. reflexivity.
Qed.

(** X6.  After [stopPlayback] no session is held and the thread that was
    held has left [run], also when it was paused; a second [stopPlayback]
    changes nothing. *)
Theorem stopPlayback_joins_the_held_thread p :
  audio_thread (stopPlayback fl env p) = None /\
  stopPlayback fl env (stopPlayback fl env p) = stopPlayback fl env p /\
  forall tid t, audio_thread p = Some tid -> threads p !! tid = Some t ->
    exists t', threads (stopPlayback fl env p) !! tid = Some t' /\ phase t' = Exited.
Proof.
  assert (N : audio_thread (stopPlayback fl env p) = None).
  { unfold stopPlayback. destruct (audio_thread p) eqn:E; [reflexivity | exact E]. }
  split; [exact N |]. split; [apply stopPlayback_idle, N |].
  intros tid t Ha Hl. unfold stopPlayback. rewrite Ha.
  cbn [threads set_audio_thread].
  destruct (join_exits fl env tid
              (update_thread tid event_set (update_thread tid (with_stop_flag true) p))
              (event_set (with_stop_flag true t))) as (t' & H1 & H2 & _).
  - apply update_thread_lookup, update_thread_lookup, Hl.
  - apply event_set_stop_flag.
  - apply event_set_pause.
  - exists t'. auto.
Qed.

(** X7.  What a session still does when it is stopped.  Stopped between two
    chunks it releases the device and calls the completion handler.
    Stopped inside the wait of a pause it first writes the chunk it was
    waiting in front of, stores the position and calls the visualization:
    the stop flag is tested before the wait only.  Nothing else is written
    on the way. *)
Theorem stopped_session_last_events p tid t sr cf data i rest waiting :
  audio_thread p = Some tid -> threads p !! tid = Some t ->
  phase t = Streaming sr cf data (i :: rest) waiting ->
  stream_write env tid i = true -> py_slice data i (i + chunk_size) <> [] ->
  let chunk := process_chunk fl t (py_slice data i (i + chunk_size)) in
  exists more,
    output (stopPlayback fl env p)
    = output p
      ++ (if waiting
          then [(tid, EWrite chunk);
                (tid, EPosition (position_after fl sr cf i (length chunk)));
                (tid, EVisualize chunk (length chunk))]
          else [])
      ++ [(tid, ERelease); (tid, EFinished)] ++ more
    /\ written_chunks (map snd more) = [].
Proof.
  intros Ha Hl Hp Hw Hne chunk. unfold stopPlayback. rewrite Ha.
  cbn [output set_audio_thread].
  set (p2 := update_thread tid event_set (update_thread tid (with_stop_flag true) p)).
  set (t2 := event_set (with_stop_flag true t)).
  assert (Hl2 : threads p2 !! tid = Some t2)
    by (apply update_thread_lookup, update_thread_lookup, Hl).
  assert (Ho2 : output p2 = output p) by reflexivity.
  unfold join. destruct waiting.
  - subst t2. rewrite (event_set_waiting (with_stop_flag true t) _ _ _ _ Hp) in Hl2.
    set (t2 := with_pause_event true
                 (with_phase (Woken sr cf data (i :: rest)) (with_stop_flag true t))) in *.
    rewrite (thread_step_woken tid p2 t2 sr cf data i rest Hl2 eq_refl Hw Hne).
    match goal with |- context [thread_step fl env tid ?q] => set (p3 := q) end.
    assert (Hl3 : threads p3 !! tid = Some (with_phase (Streaming sr cf data rest false) t2)).
    { subst p3. apply update_thread_lookup. rewrite threads_observe. exact Hl2. }
    rewrite (thread_step_stopped fl env tid p3 _ sr cf data rest Hl3 eq_refl eq_refl).
    destruct (finalize_output tid p3) as (l & -> & Hl').
    exists l. split; [| exact Hl'].
    subst p3. cbn [output update_thread set_threads]. rewrite output_observe, Ho2.
    rewrite <- !app_assoc. reflexivity.
  - subst t2. rewrite (event_set_head (with_stop_flag true t) _ _ _ _ Hp) in Hl2.
    set (t2 := with_pause_event true (with_stop_flag true t)) in *.
    rewrite (thread_step_stopped fl env tid p2 t2 sr cf data (i :: rest) Hl2 Hp eq_refl).
    pose proof (finalize_exits fl env tid p2 t2 Hl2) as Hl3.
    rewrite (thread_step_exited fl env tid _ _ Hl3 eq_refl).
    destruct (finalize_output tid p2) as (l & -> & Hl').
    exists l. split; [| exact Hl']. rewrite Ho2. reflexivity.
Qed.

(** ** Starting a track while a session is live *)

Lemma stopPlayback_live p tid :
  live_between_chunks p tid ->
  stopPlayback fl env p
  = set_audio_thread None
      (finalize fl env tid
         (update_thread tid event_set
            (update_thread tid (with_stop_flag true) p))).
Proof.
  intros (t & sr & cf & data & pending & Ha & Hl & Hp).
  unfold stopPlayback. rewrite Ha.
  set (p2 := update_thread tid event_set (update_thread tid (with_stop_flag true) p)).
  set (t2 := with_pause_event true (with_stop_flag true t)).
  assert (Hl2 : threads p2 !! tid = Some t2).
  { subst t2. rewrite <- (event_set_head (with_stop_flag true t) _ _ _ _ Hp).
    apply update_thread_lookup, update_thread_lookup, Hl. }
  unfold join.
  rewrite (thread_step_stopped fl env tid p2 t2 sr cf data pending Hl2 Hp eq_refl).
  rewrite (thread_step_exited fl env tid _ _ (finalize_exits fl env tid p2 t2 Hl2) eq_refl).
  reflexivity.
Qed.

(** Whatever the completion handler starts, [playCurrentTrack] starts once
    more. *)
Lemma playCurrentTrack_live p tid q trk :
  live_between_chunks p tid ->
  currentTrack q = Some trk ->
  0 <= currentTrackIndex q < Z.of_nat (length (tracks q)) ->
  tracks q !! Z.to_nat (currentTrackIndex q) = Some trk ->
  (forall q0, transport q0 = transport p ->
     transport (playback_finished fl env q0) = transport q /\
     threads (playback_finished fl env q0)
     = threads q0 ++ [session_of fl env (length (threads q0)) q]) ->
  let p' := playCurrentTrack fl env p in
  let n := length (threads p) in
  transport p' = transport q /\
  audio_thread p' = Some (S n) /\ length (threads p') = S (S n) /\
  threads p' !! n = Some (session_of fl env n q) /\
  threads p' !! S n = Some (session_of fl env (S n) q).
Proof.
  intros L Hc Hi Ht Hfin. cbv zeta. unfold playCurrentTrack.
  rewrite (stopPlayback_live p tid L). unfold finalize.
  match goal with |- context [playback_finished fl env ?x] => set (q0 := x) end.
  assert (T0 : transport q0 = transport p) by reflexivity.
  assert (L0 : length (threads q0) = length (threads p)).
  { subst q0. cbn [threads update_thread set_threads]. rewrite threads_observe.
    cbn [threads update_thread set_threads]. rewrite !length_alter. reflexivity. }
  destruct (Hfin q0 T0) as (T1 & Th1).
  set (st := set_audio_thread None (playback_finished fl env q0)).
  assert (Tst : transport st = transport q) by exact T1.
  assert (Hst : tracks st = tracks q /\ currentTrackIndex st = currentTrackIndex q)
    by (unfold transport in Tst; injection Tst; auto).
  destruct Hst as (S1 & S2).
  destruct (start_current_spec fl env st trk) as (T2 & A2 & Th2).
  { rewrite S1, S2. exact Hi. }
  { rewrite S1, S2. exact Ht. }
  assert (Lst : length (threads st) = S (length (threads p))).
  { subst st. cbn [threads set_audio_thread]. rewrite Th1, length_app, L0. simpl. lia. }
  assert (Eq : transport (set_currentTrack (Some trk) st) = transport q).
  { clear T2 A2 Th2 Lst S1 S2 T1. subst st. unfold transport in Tst |- *.
    cbn [set_audio_thread set_currentTrack tracks currentTrackIndex currentTrack
      playback_position repeat shuffle volume_level] in Tst |- *.
    injection Tst as E1 E2 E3 E4 E5 E6 E7. rewrite Hc. congruence. }
  split; [rewrite T2; exact Eq |].
  split; [rewrite A2, Lst; reflexivity |].
  rewrite Th2. split; [rewrite length_app, Lst; simpl; lia |].
  rewrite (session_of_transport fl env _ _ q Eq), Lst. split.
  - rewrite lookup_app_l by lia. subst st. cbn [threads set_audio_thread].
    rewrite Th1, lookup_app_r by lia. rewrite L0, Nat.sub_diag. reflexivity.
  - rewrite lookup_app_r by lia. rewrite Lst, Nat.sub_diag. reflexivity.
Qed.

Lemma playback_finished_advance p trk :
  repeat p = false -> shuffle p = false ->
  let j := (currentTrackIndex p + 1) mod Z.of_nat (length (tracks p)) in
  tracks p !! Z.to_nat j = Some trk ->
  let q := set_currentTrack (Some trk)
             (set_playback_position 0 (set_currentTrackIndex j p)) in
  0 <= j < Z.of_nat (length (tracks p)) /\
  transport (playback_finished fl env p) = transport q /\
  threads (playback_finished fl env p)
  = threads p ++ [session_of fl env (length (threads p)) q].
Proof.
  intros Hr Hs j Ht q.
  assert (Hn : (0 < length (tracks p))%nat).
  { apply lookup_lt_Some in Ht. lia. }
  assert (Hj : 0 <= j < Z.of_nat (length (tracks p))) by (apply Z.mod_pos_bound; lia).
  split; [exact Hj |].
  unfold playback_finished, nextTrack_with. cbv zeta.
  cbn [repeat shuffle tracks set_audio_thread]. rewrite Hr, Hs.
  destruct (Nat.ltb_spec 0 (length (tracks p))); [| lia].
  match goal with |- context [start_current fl env ?x] =>
    destruct (start_current_spec fl env x trk Hj Ht) as (T & _ & Th) end.
  rewrite T, Th. split; reflexivity.
Qed.

(** X8.  A slot that starts a track while a session is live between two
    chunks, repeat and shuffle off, does not end on the track it chose.
    Stopping the live session runs its completion handler, which moves the
    index one further and resets the position; so [playCurrentTrack] leaves
    the index at the successor, [nextTrack] moves it by two, [prevTrack]
    leaves it where it was, and a jump to number [k] ends on the track
    after the [k]-th.  Two sessions are started on the track the index ends
    on, both from position 0, and only the second is held. *)
Theorem starting_over_a_live_session_moves_one_further p tid :
  live_between_chunks p tid -> repeat p = false -> shuffle p = false ->
  (0 < length (tracks p))%nat ->
  let n := Z.of_nat (length (tracks p)) in
  let after := fun i => (i + 1) mod n in
  (let p' := playCurrentTrack fl env p in
   let j := after (currentTrackIndex p) in
   currentTrackIndex p' = j /\ playback_position p' = 0%Q /\
   currentTrack p' = tracks p !! Z.to_nat j /\
   audio_thread p' = Some (S (length (threads p))) /\
   length (threads p') = S (S (length (threads p))) /\
   threads p' !! length (threads p)
   = Some (session_of fl env (length (threads p)) p') /\
   threads p' !! S (length (threads p))
   = Some (session_of fl env (S (length (threads p))) p')) /\
  currentTrackIndex (nextTrack fl env p) = after (after (currentTrackIndex p)) /\
  currentTrackIndex (prevTrack fl env p) = after ((currentTrackIndex p - 1) mod n) /\
  (forall k, 1 <= k <= n ->
     currentTrackIndex (jumpToTrackByNumber fl env k p) = after (k - 1)) /\
  (forall index, (index < length (tracks p))%nat ->
     currentTrackIndex (playSelectedTrack fl env index p) = after (Z.of_nat index)).
Proof.
  intros L Hr Hs Hn n after.
  assert (G : forall x, live_between_chunks x tid -> repeat x = false -> shuffle x = false ->
                tracks x = tracks p ->
                let x' := playCurrentTrack fl env x in
                let j := after (currentTrackIndex x) in
                currentTrackIndex x' = j /\ playback_position x' = 0%Q /\
                currentTrack x' = tracks p !! Z.to_nat j /\
                audio_thread x' = Some (S (length (threads x))) /\
                length (threads x') = S (S (length (threads x))) /\
                threads x' !! length (threads x)
                = Some (session_of fl env (length (threads x)) x') /\
                threads x' !! S (length (threads x))
                = Some (session_of fl env (S (length (threads x))) x')).
  { intros x Lx Rx Sx Tx. cbv zeta.
    set (j := after (currentTrackIndex x)).
    assert (Hj : 0 <= j < Z.of_nat (length (tracks x))).
    { subst j after n. cbv beta. rewrite Tx. apply Z.mod_pos_bound. lia. }
    destruct (lookup_lt_is_Some_2 (tracks x) (Z.to_nat j)) as [trk Ht]; [lia |].
    set (q := set_currentTrack (Some trk)
                (set_playback_position 0 (set_currentTrackIndex j x))).
    assert (Hj' : j = (currentTrackIndex x + 1) mod Z.of_nat (length (tracks x)))
      by (subst j after n; cbv beta; rewrite Tx; reflexivity).
    destruct (playCurrentTrack_live x tid q trk Lx eq_refl Hj Ht) as (T & A & Ln & T1 & T2).
    { intros q0 T0.
      assert (E : tracks q0 = tracks x /\ currentTrackIndex q0 = currentTrackIndex x
                  /\ repeat q0 = repeat x /\ shuffle q0 = shuffle x)
        by (unfold transport in T0; injection T0; auto).
      destruct E as (E1 & E2 & E3 & E4).
      destruct (playback_finished_advance q0 trk) as (_ & Ta & Tha).
      - congruence.
      - congruence.
      - rewrite E1, E2, <- Hj'. exact Ht.
      - rewrite Ta, Tha. cbv zeta. rewrite E1, E2, <- Hj'. split.
        + unfold transport in *. simpl. injection T0 as _ _ _ _ -> -> ->. rewrite E1. reflexivity.
        + do 2 f_equal. apply session_of_transport.
          unfold transport in *. simpl. injection T0 as _ _ _ _ -> -> ->. rewrite E1. reflexivity. }
    assert (E : transport (playCurrentTrack fl env x) = transport q) by exact T.
    unfold transport in T. cbn [q set_currentTrack set_playback_position
      set_currentTrackIndex tracks currentTrackIndex currentTrack playback_position
      repeat shuffle volume_level] in T.
    injection T as _ T2' T3 T4 _ _ _.
    rewrite (session_of_transport fl env _ _ q E), (session_of_transport fl env _ _ q E).
    rewrite <- Tx, Ht. auto 10. }
  split; [apply (G p L Hr Hs eq_refl) |].
  split; [| split; [| split]].
  - unfold nextTrack, nextTrack_with. destruct (Nat.ltb_spec 0 (length (tracks p))); [| lia].
    rewrite Hs.
    match goal with |- context [playCurrentTrack fl env ?x] =>
      destruct (G x L Hr Hs eq_refl) as (-> & _) end. reflexivity.
  - unfold prevTrack. destruct (Nat.ltb_spec 0 (length (tracks p))); [| lia].
    match goal with |- context [playCurrentTrack fl env ?x] =>
      destruct (G x L Hr Hs eq_refl) as (-> & _) end. reflexivity.
  - intros k Hk. unfold jumpToTrackByNumber.
    destruct (Z.leb_spec 1 k); [| lia].
    destruct (Z.leb_spec k (Z.of_nat (length (tracks p)))); [| subst n; lia].
    simpl andb. cbv iota.
    match goal with |- context [playCurrentTrack fl env ?x] =>
      destruct (G x L Hr Hs eq_refl) as (-> & _) end. reflexivity.
  - intros index Hi. unfold playSelectedTrack.
    destruct (Nat.ltb_spec index (length (tracks p))); [| lia].
    match goal with |- context [playCurrentTrack fl env ?x] =>
      destruct (G x L Hr Hs eq_refl) as (-> & _) end. reflexivity.
Qed.

(** X9.  With repeat on, starting the track of the index while a session
    is live between two chunks starts it twice.  The completion handler of
    the stopped session starts a session on the track, and
    [playCurrentTrack] starts another: two threads are made, both on that
    track and from the position the player has, and only the second is
    held, so that [stopPlayback] cannot reach the first. *)
Theorem restart_with_repeat_starts_two_sessions p tid trk :
  live_between_chunks p tid -> repeat p = true ->
  0 <= currentTrackIndex p < Z.of_nat (length (tracks p)) ->
  tracks p !! Z.to_nat (currentTrackIndex p) = Some trk ->
  let p' := playCurrentTrack fl env p in
  let n := length (threads p) in
  currentTrackIndex p' = currentTrackIndex p /\
  playback_position p' = playback_position p /\
  currentTrack p' = Some trk /\
  audio_thread p' = Some (S n) /\ length (threads p') = S (S n) /\
  threads p' !! n = Some (session_of fl env n p') /\
  threads p' !! S n = Some (session_of fl env (S n) p').
Proof.
  intros L Hr Hi Ht. cbv zeta.
  set (q := set_currentTrack (Some trk) p).
  destruct (playCurrentTrack_live p tid q trk L eq_refl Hi Ht) as (T & A & Ln & T1 & T2).
  { intros q0 T0.
    assert (E : tracks q0 = tracks p /\ currentTrackIndex q0 = currentTrackIndex p
                /\ repeat q0 = repeat p)
      by (unfold transport in T0; injection T0; auto).
    destruct E as (E1 & E2 & E3).
    destruct (playback_finished_repeat fl env q0 trk) as (Ta & _ & Tha).
    - congruence.
    - rewrite E1, E2. exact Hi.
    - rewrite E1, E2. exact Ht.
    - assert (Eq : transport (set_currentTrack (Some trk) q0) = transport q).
      { unfold transport in T0 |- *. subst q.
        cbn [set_currentTrack tracks currentTrackIndex currentTrack
          playback_position repeat shuffle volume_level].
        injection T0 as F1 F2 F3 F4 F5 F6 F7. congruence. }
      cbv zeta in Ta, Tha. rewrite Ta, Tha. split; [exact Eq |].
      do 2 f_equal. apply session_of_transport, Eq. }
  assert (E : transport (playCurrentTrack fl env p) = transport q) by exact T.
  unfold transport in T. cbn [q set_currentTrack tracks currentTrackIndex currentTrack
    playback_position repeat shuffle volume_level] in T.
  injection T as _ T2' T3 T4 _ _ _.
  rewrite (session_of_transport fl env _ _ q E), (session_of_transport fl env _ _ q E).
  auto 10.
Qed.

(** ** Next and previous *)

Lemma playCurrentTrack_valid p :
  0 <= currentTrackIndex p < Z.of_nat (length (tracks p)) ->
  0 <= currentTrackIndex (playCurrentTrack fl env p) < Z.of_nat (length (tracks p)).
Proof.
  intros Hv. destruct (evolves_playCurrentTrack fl env p) as [_ I _ _ _ _ _]. lia.
Qed.

Lemma play_at_idle v p trk :
  audio_thread p = None ->
  0 <= v < Z.of_nat (length (tracks p)) -> tracks p !! Z.to_nat v = Some trk ->
  let p' := playCurrentTrack fl env (set_playback_position 0 (set_currentTrackIndex v p)) in
  currentTrackIndex p' = v /\ playback_position p' = 0%Q /\ currentTrack p' = Some trk /\
  audio_thread p' = Some (length (threads p)) /\
  threads p' = threads p ++ [session_of fl env (length (threads p)) p'].
Proof.
  intros Ha Hv Ht. cbv zeta.
  set (x := set_playback_position 0 (set_currentTrackIndex v p)).
  rewrite (playCurrentTrack_idle fl env x Ha).
  destruct (start_current_spec fl env x trk Hv Ht) as (T & A & Th).
  assert (E : transport (start_current fl env x) = transport (set_currentTrack (Some trk) x))
    by exact T.
  unfold transport in T. cbn [x set_currentTrack set_playback_position
    set_currentTrackIndex tracks currentTrackIndex currentTrack playback_position
    repeat shuffle volume_level] in T.
  injection T as _ T2 T3 T4 _ _ _.
  rewrite (session_of_transport fl env _ _ _ E). auto 10.
Qed.

(** X10.  [nextTrack] and [prevTrack] do nothing on an empty playlist and
    leave a valid index on any other, whatever sessions there are.  With no
    session held they move the index by one, wrapping round at the ends
    (shuffle off for next; previous never shuffles), reset the position to 0
    and start one session, which is held, on the track they moved to. *)
Theorem next_and_previous_wrap_round p :
  let n := Z.of_nat (length (tracks p)) in
  (tracks p = [] -> nextTrack fl env p = p /\ prevTrack fl env p = p) /\
  (tracks p <> [] ->
   0 <= currentTrackIndex (nextTrack fl env p) < n /\
   0 <= currentTrackIndex (prevTrack fl env p) < n) /\
  (tracks p <> [] -> audio_thread p = None ->
   (shuffle p = false ->
    let p' := nextTrack fl env p in
    currentTrackIndex p' = (currentTrackIndex p + 1) mod n /\
    (currentTrackIndex p = n - 1 -> currentTrackIndex p' = 0) /\
    playback_position p' = 0%Q /\
    currentTrack p' = tracks p !! Z.to_nat (currentTrackIndex p') /\
    audio_thread p' = Some (length (threads p)) /\
    threads p' = threads p ++ [session_of fl env (length (threads p)) p']) /\
   (let p' := prevTrack fl env p in
    currentTrackIndex p' = (currentTrackIndex p - 1) mod n /\
    (currentTrackIndex p = 0 -> currentTrackIndex p' = n - 1) /\
    playback_position p' = 0%Q /\
    currentTrack p' = tracks p !! Z.to_nat (currentTrackIndex p') /\
    audio_thread p' = Some (length (threads p)) /\
    threads p' = threads p ++ [session_of fl env (length (threads p)) p'])).
Proof.
  intros n. split; [| split].
  - intros E. unfold nextTrack, nextTrack_with, prevTrack. rewrite E. auto.
  - intros Hne.
    assert (Hn : (0 < length (tracks p))%nat) by (destruct (tracks p); [congruence | simpl; lia]).
    split.
    + unfold nextTrack, nextTrack_with. destruct (Nat.ltb_spec 0 (length (tracks p))); [| lia].
      destruct (shuffle p).
      * unfold randint. apply playCurrentTrack_valid. simpl.
        pose proof (Nat.mod_upper_bound (random_source env (draws p)) (length (tracks p))
                      ltac:(lia)). lia.
      * apply playCurrentTrack_valid. simpl. apply Z.mod_pos_bound. lia.
    + unfold prevTrack. destruct (Nat.ltb_spec 0 (length (tracks p))); [| lia].
      apply playCurrentTrack_valid. simpl. apply Z.mod_pos_bound. lia.
  - intros Hne Ha.
    assert (Hn : (0 < length (tracks p))%nat) by (destruct (tracks p); [congruence | simpl; lia]).
    assert (Step : forall v, 0 <= v < n ->
              let p' := playCurrentTrack fl env
                          (set_playback_position 0 (set_currentTrackIndex v p)) in
              currentTrackIndex p' = v /\ playback_position p' = 0%Q /\
              currentTrack p' = tracks p !! Z.to_nat (currentTrackIndex p') /\
              audio_thread p' = Some (length (threads p)) /\
              threads p' = threads p ++ [session_of fl env (length (threads p)) p']).
    { intros v Hv. destruct (lookup_lt_is_Some_2 (tracks p) (Z.to_nat v)) as [trk Ht];
        [subst n; lia |].
      destruct (play_at_idle v p trk Ha Hv Ht) as (I & P & C & A & Th).
      cbv zeta. rewrite I at 1 2. rewrite Ht. auto. }
    split.
    + intros Hs. cbv zeta. unfold nextTrack, nextTrack_with.
      destruct (Nat.ltb_spec 0 (length (tracks p))); [| lia]. rewrite Hs.
      destruct (Step ((currentTrackIndex p + 1) mod n)) as (I & P & C & A & Th);
        [apply Z.mod_pos_bound; subst n; lia |].
      split; [exact I |]. split; [| auto].
      intros E. transitivity ((currentTrackIndex p + 1) mod n); [exact I |].
      rewrite E. replace (n - 1 + 1) with n by lia.
      apply Z.mod_same. subst n. lia.
    + cbv zeta. unfold prevTrack.
      destruct (Nat.ltb_spec 0 (length (tracks p))); [| lia].
      destruct (Step ((currentTrackIndex p - 1) mod n)) as (I & P & C & A & Th);
        [apply Z.mod_pos_bound; subst n; lia |].
      split; [exact I |]. split; [| auto].
      intros E. transitivity ((currentTrackIndex p - 1) mod n); [exact I |].
      rewrite E. change (0 - 1) with (-1).
      assert (Hn' : 0 < n) by (subst n; lia).
      rewrite <- (Z.mod_add (-1) 1 n) by lia.
      replace (-1 + 1 * n) with (n - 1) by lia. apply Z.mod_small. lia.
Qed.

(** ** The playlist *)

(** X11.  Removing a track other than the one the index points at leaves
    the index on the same track: a row below the index lowers the index with
    the track, a row above leaves both.  The playlist loses that one track
    and nothing else changes: the session, the position, the current track
    and the history stay.  A row outside the playlist removes nothing. *)
Theorem removing_another_track_keeps_the_current_one row p :
  let p' := removeTrackAt fl env row p in
  (~ (0 <= row < Z.of_nat (length (tracks p))) -> p' = p) /\
  (0 <= row < Z.of_nat (length (tracks p)) -> row <> currentTrackIndex p ->
   tracks p' = delete (Z.to_nat row) (tracks p) /\
   S (length (tracks p')) = length (tracks p) /\
   (0 <= currentTrackIndex p ->
    0 <= currentTrackIndex p' /\
    tracks p' !! Z.to_nat (currentTrackIndex p')
    = tracks p !! Z.to_nat (currentTrackIndex p)) /\
   (currentTrackIndex p < 0 -> currentTrackIndex p' = currentTrackIndex p) /\
   audio_thread p' = audio_thread p /\ threads p' = threads p /\
   playback_position p' = playback_position p /\ currentTrack p' = currentTrack p /\
   playback_history p' = playback_history p /\ output p' = output p).
Proof.
  cbv zeta. split.
  - intros H. destruct (removeTrackAt_cases fl env row p) as [[E _] | [R _]]; [exact E | tauto].
  - intros R Hne.
    assert (Hlen : S (length (delete (Z.to_nat row) (tracks p))) = length (tracks p)).
    { rewrite length_delete by (apply lookup_lt_is_Some; lia). lia. }
    destruct (removeTrackAt_cases fl env row p) as [[_ N] | [_ [[E _] | [[L E] | [L E]]]]];
      [tauto | congruence | |]; rewrite E; simpl.
    + repeat split; try exact Hlen; try lia.
      rewrite list_lookup_delete_ge by lia. f_equal. lia.
    + repeat split; try exact Hlen; try lia.
      rewrite list_lookup_delete_lt by lia. reflexivity.
Qed.

Lemma append_tracks_spec (files : list pstr) (keep : pstr -> bool) (g : pstr -> pstr) p :
  let p' := fold_left (fun p f => if keep (g f) then append_track fl env (g f) p else p)
                      files p in
  let kept := List.filter keep (map g files) in
  tracks p'
  = tracks p ++ imap (fun k f => AudioTrack_new fl env (next_oid p + k) f) kept /\
  next_oid p' = (next_oid p + length kept)%nat /\
  currentTrackIndex p' = currentTrackIndex p /\ currentTrack p' = currentTrack p /\
  playback_position p' = playback_position p /\ audio_thread p' = audio_thread p /\
  threads p' = threads p /\ playback_history p' = playback_history p /\
  output p' = output p /\ pendingFiles p' = pendingFiles p.
Proof.
  revert p. induction files as [| f files IH]; intros p; cbv zeta; simpl.
  - rewrite app_nil_r, Nat.add_0_r. auto 12.
  - destruct (keep (g f)).
    + destruct (IH (append_track fl env (g f) p)) as (T & N & R). cbv zeta in T, N.
      rewrite T, N. simpl. rewrite <- app_assoc. simpl.
      split; [| split; [lia | exact R]].
      rewrite Nat.add_0_r. do 2 f_equal. apply imap_ext. intros k x _. simpl.
      f_equal. lia.
    + apply IH.
Qed.

Lemma map_path_imap_new (o : nat) (l : list pstr) :
  map path (imap (fun k f => AudioTrack_new fl env (o + k) f) l) = l.
Proof.
  revert o. induction l as [| f l IH]; intros o; simpl; [reflexivity |].
  rewrite path_AudioTrack_new. f_equal.
  rewrite <- (IH (S o)) at 2. f_equal. apply imap_ext. intros k x _. simpl. f_equal. lia.
Qed.

Lemma map_oid_imap_new (o : nat) (l : list pstr) :
  map oid (imap (fun k f => AudioTrack_new fl env (o + k) f) l) = seq o (length l).
Proof.
  revert o. induction l as [| f l IH]; intros o; simpl; [reflexivity |].
  f_equal.
  - unfold AudioTrack_new. destruct (extract_metadata env f (basename f)) as [[a b] c].
    simpl. lia.
  - rewrite <- (IH (S o)). f_equal. apply imap_ext. intros k x _. simpl. f_equal. lia.
Qed.

Lemma filter_true {A} (l : list A) : List.filter (fun _ => true) l = l.
Proof. induction l as [| x l IH]; simpl; [reflexivity |]. f_equal. exact IH. Qed.

(** X12.  [addSelectedFiles] puts the chosen files at the end of the
    playlist, in the order chosen, without looking whether they exist or are
    in the playlist already; the tracks that were there stay where they are;
    the new tracks are new objects, numbered on from the last; the choice is
    used up, so that a second call adds nothing. *)
Theorem addSelectedFiles_appends_in_order p :
  let p' := addSelectedFiles fl env p in
  map path (tracks p') = map path (tracks p) ++ pendingFiles p /\
  take (length (tracks p)) (tracks p') = tracks p /\
  map oid (drop (length (tracks p)) (tracks p'))
  = seq (next_oid p) (length (pendingFiles p)) /\
  pendingFiles p' = [] /\
  addSelectedFiles fl env p' = p'.
Proof.
  cbv zeta. destruct (pendingFiles p) as [| f files] eqn:E.
  - assert (H : addSelectedFiles fl env p = p)
      by (unfold addSelectedFiles; rewrite E; reflexivity).
    rewrite !H, app_nil_r, take_ge, drop_ge by lia. auto.
  - assert (H : addSelectedFiles fl env p
                = set_pendingFiles []
                    (fold_left (fun p f => append_track fl env f p) (f :: files) p))
      by (unfold addSelectedFiles; rewrite E; reflexivity).
    rewrite !H.
    assert (T : tracks (fold_left (fun p f => append_track fl env f p) (f :: files) p)
                = tracks p ++ imap (fun k f => AudioTrack_new fl env (next_oid p + k) f)
                                   (f :: files)).
    { destruct (append_tracks_spec (f :: files) (fun _ => true) (fun f => f) p) as (T & _).
      cbv zeta in T. rewrite map_id, filter_true in T. exact T. }
    cbn [tracks set_pendingFiles pendingFiles].
    rewrite T, map_app, map_path_imap_new.
    rewrite take_app_length, drop_app_length, map_oid_imap_new.
    repeat split.
Qed.

Lemma lstrip_idem (s : pstr) : lstrip (lstrip s) = lstrip s.
Proof.
  induction s as [| c s IH]; simpl; [reflexivity |].
  destruct (is_space c) eqn:E; [exact IH |]. simpl. rewrite E. reflexivity.
Qed.

Lemma lstrip_suffix (s : pstr) : exists pre, s = pre ++ lstrip s.
Proof.
  induction s as [| c s [pre IH]]; simpl; [exists []; reflexivity |].
  destruct (is_space c).
  - exists (c :: pre). simpl. f_equal. exact IH.
  - exists []. reflexivity.
Qed.

Lemma lstrip_prefix_fixed (a b : pstr) : lstrip (a ++ b) = a ++ b -> lstrip a = a.
Proof.
  destruct a as [| c a]; simpl; [reflexivity |].
  destruct (is_space c); [| reflexivity].
  intros H. pose proof (lstrip_length (a ++ b)) as L. rewrite H in L. simpl in L. lia.
Qed.

(** [strip] leaves nothing for a second [strip]. *)
Lemma strip_idem (s : pstr) : strip (strip s) = strip s.
Proof.
  unfold strip.
  set (a := lstrip s). set (b := lstrip (rev a)).
  assert (Ha : lstrip a = a) by apply lstrip_idem.
  assert (Hb : lstrip b = b) by apply lstrip_idem.
  destruct (lstrip_suffix (rev a)) as [pre Hpre]. fold b in Hpre.
  assert (Hrev : a = rev b ++ rev pre).
  { rewrite <- (rev_involutive a), Hpre, rev_app_distr. reflexivity. }
  assert (Hrb : lstrip (rev b) = rev b).
  { apply (lstrip_prefix_fixed (rev b) (rev pre)). rewrite <- Hrev. exact Ha. }
  rewrite Hrb, rev_involutive, Hb. reflexivity.
Qed.

(** X13.  [loadPlaylist] replaces the playlist by the lines of the text,
    stripped, that are files, in their order.  Every track of the loaded
    playlist is a file when it is loaded and its path has no white space at
    its ends; blank lines and lines that name no file leave no track.  The
    session, the current track, the position and the history are not
    touched. *)
Theorem loaded_playlist_holds_the_files_of_the_text text p :
  let p' := loadPlaylist fl env text p in
  map path (tracks p') = List.filter (isfile env) (map strip (readlines text)) /\
  Forall (fun t => isfile env (path t) = true /\ strip (path t) = path t) (tracks p') /\
  audio_thread p' = audio_thread p /\ threads p' = threads p /\
  currentTrack p' = currentTrack p /\ playback_position p' = playback_position p /\
  playback_history p' = playback_history p.
Proof.
  cbv zeta. unfold loadPlaylist.
  destruct (append_tracks_spec (readlines text) (isfile env) strip (set_tracks [] p))
    as (T & _ & _ & C & P & A & Th & H & _).
  cbv zeta in *. simpl in T.
  assert (M : map path (tracks (fold_left
                (fun p0 line => if isfile env (strip line)
                                then append_track fl env (strip line) p0 else p0)
                (readlines text) (set_tracks [] p)))
              = List.filter (isfile env) (map strip (readlines text))).
  { rewrite T. apply (map_path_imap_new (next_oid p)). }
  split; [exact M |]. split; [| auto 10].
  apply Forall_forall. intros t Ht.
  assert (Hin : In (path t) (List.filter (isfile env) (map strip (readlines text)))).
  { rewrite <- M. apply in_map, list_elem_of_In, Ht. }
  apply filter_In in Hin. destruct Hin as [Hin Hf]. split; [exact Hf |].
  apply in_map_iff in Hin. destruct Hin as (line & <- & _). apply strip_idem.
Qed.

(** ** Tracks of unknown length *)

Lemma rounding_zero (x : Q) : rounding fl -> (x == 0)%Q -> (fl x == 0)%Q.
Proof.
  intros R H. apply Qeq_trans with (fl (inject_Z 0)).
  - apply rounding_proper; [exact R | exact H].
  - apply (fl_int fl R). simpl. lia.
Qed.

(** X14.  A file that cannot be probed gives a track of duration 0.  While
    the current track has duration 0, [forward15] does nothing at any
    position from 0 on, and [onSeekEnd] puts the position at 0 wherever the
    slider stands. *)
Theorem unknown_duration_blocks_forward_and_seek p trk :
  rounding fl -> currentTrack p = Some trk -> (duration trk == 0)%Q ->
  ((0 <= playback_position p)%Q -> forward15 fl env p = p) /\
  (forall slider_val,
     onSeekEnd fl env slider_val p
     = match audio_thread p with
       | Some _ => playCurrentTrack fl env (set_playback_position 0 p)
       | None => set_playback_position 0 p
       end) /\
  (forall o f, sf_info env f = None -> duration (AudioTrack_new fl env o f) = 0%Q).
Proof.
  intros R Hc Hd. split; [| split].
  - intros Hp. unfold forward15. rewrite Hc.
    destruct (Qltb _ _) eqn:E; [| reflexivity].
    apply Qltb_lt in E. exfalso.
    assert (Z0 : (fl (duration trk * 1000) == 0)%Q).
    { apply rounding_zero; [exact R |]. rewrite Hd. ring. }
    assert (P0 : (0 <= fl (playback_position p + 15000))%Q).
    { apply Qle_trans with (fl (inject_Z 0)).
      - assert (X : (fl (inject_Z 0) == 0)%Q) by (apply (fl_int fl R); simpl; lia).
        rewrite X. apply Qle_refl.
      - apply (fl_mono fl R). change (inject_Z 0) with 0%Q. lra. }
    rewrite Z0 in E. apply (Qlt_not_le _ _ E P0).
  - intros slider_val. unfold onSeekEnd. rewrite Hc.
    assert (Z0 : Qtrunc (fl (fl (fl (inject_Z slider_val / 1000) * duration trk) * 1000)) = 0).
    { apply Qtrunc_eq. apply rounding_zero; [exact R |].
      assert (X : (fl (fl (inject_Z slider_val / 1000) * duration trk) == 0)%Q).
      { apply rounding_zero; [exact R |]. rewrite Hd. ring. }
      rewrite X. ring. }
    rewrite Z0. reflexivity.
  - intros o f Hf. unfold AudioTrack_new, get_duration.
    destruct (extract_metadata env f (basename f)) as [[a b] c]. simpl. rewrite Hf.
    reflexivity.
Qed.

End ControllerMore.

(** ** Rewind and forward *)

Section SeekFacts.

Variable fl : Q -> Q.
Variable env : Env.











End SeekFacts.


(** ** The history list *)

Lemma lookup_rev {A} (l : list A) (r : nat) :
  (r < length l)%nat -> rev l !! r = l !! (length l - 1 - r)%nat.
Proof.
  induction l as [| a l IH]; simpl; [lia |]. intros Hr.
  destruct (decide (r = length l)) as [-> | Hne].
  - rewrite lookup_app_r by (rewrite length_rev; lia).
    rewrite length_rev, Nat.sub_0_r, !Nat.sub_diag. reflexivity.
  - rewrite lookup_app_l by (rewrite length_rev; lia). rewrite IH by lia.
    rewrite Nat.sub_0_r. replace (length l - r)%nat with (S (length l - 1 - r)) by lia.
    reflexivity.
Qed.

Lemma addToHistory_view_inv track v :
  deque v = take 100 (rev (rows v)) ->
  deque (addToHistory_view track v) = take 100 (rev (rows (addToHistory_view track v))).
Proof.
  intros H. unfold addToHistory_view.
  destruct (existsb (same_track track) (deque v)); [exact H |].
  cbn [deque rows]. rewrite rev_unit, H.
  change (take 100 (track :: ?l)) with (track :: take 99 l).
  rewrite take_take. reflexivity.
Qed.

(** X15.  The history widget and the history deque run against each other:
    [addToHistory] puts a new track at the front of the deque and at the end
    of the widget, so the deque is the last 100 rows of the widget read
    upwards.  As long as the widget has at most 100 rows, a double click on
    row [r] plays the track shown in row [len - 1 - r], counted from the
    other end. *)
Theorem history_rows_run_against_the_deque (l : list AudioTrack) :
  let v := history_view_after l in
  deque v = take 100 (rev (rows v)) /\
  (forall p, playback_history p = [] ->
     playback_history (fold_left (fun p track => addToHistory track p) l p) = deque v) /\
  ((length (rows v) <= 100)%nat ->
   forall r, (r < length (rows v))%nat ->
     history_track_at r v = rows v !! (length (rows v) - 1 - r)%nat).
Proof.
  cbv zeta. unfold history_view_after.
  assert (Inv : forall v0, deque v0 = take 100 (rev (rows v0)) ->
            deque (fold_left (fun v track => addToHistory_view track v) l v0)
            = take 100 (rev (rows (fold_left (fun v track => addToHistory_view track v) l v0)))).
  { induction l as [| t l IH]; intros v0 H; simpl; [exact H |].
    apply IH, addToHistory_view_inv, H. }
  assert (I0 := Inv {| deque := []; rows := [] |} eq_refl).
  split; [exact I0 |]. split.
  - assert (G : forall p v0, playback_history p = deque v0 ->
              playback_history (fold_left (fun p track => addToHistory track p) l p)
              = deque (fold_left (fun v track => addToHistory_view track v) l v0)).
    { clear Inv I0. induction l as [| t l IH]; intros p v0 H; simpl; [exact H |].
      apply IH. unfold addToHistory, addToHistory_view. rewrite H.
      destruct (existsb (same_track t) (deque v0)); [exact H |]. reflexivity. }
    intros p Hp. apply G. exact Hp.
  - intros Hlen r Hr. unfold history_track_at. rewrite I0.
    rewrite take_ge by (rewrite length_rev; exact Hlen).
    apply lookup_rev, Hr.
Qed.

(** ** Track objects *)

Section ObjectFacts.

Variable fl : Q -> Q.
Variable env : Env.

Lemma ko_refl p : keeps_objects p p.
Proof. split; auto. Qed.

Lemma ko_trans p1 p2 p3 :
  keeps_objects p1 p2 -> keeps_objects p2 p3 -> keeps_objects p1 p3.
Proof.
  intros [N1 T1 H1 C1] [N2 T2 H2 C2]. split; [congruence | congruence | |].
  - intros t Ht. destruct (H2 t Ht) as [X | X]; [apply H1, X | right; rewrite <- T1; exact X].
  - intros t Ht. destruct (C2 t Ht) as [X | X]; [apply C1, X | right; rewrite <- T1; exact X].
Qed.

Lemma ko_same p p' :
  next_oid p' = next_oid p -> tracks p' = tracks p ->
  playback_history p' = playback_history p -> currentTrack p' = currentTrack p ->
  keeps_objects p p'.
Proof. intros N T H C. split; auto; [rewrite H | rewrite C]; auto. Qed.

Lemma ko_set_position v p : keeps_objects p (set_playback_position v p).
Proof. apply ko_same; reflexivity. Qed.

Lemma ko_set_audio_thread v p : keeps_objects p (set_audio_thread v p).
Proof. apply ko_same; reflexivity. Qed.

Lemma ko_set_index v p : keeps_objects p (set_currentTrackIndex v p).
Proof. apply ko_same; reflexivity. Qed.

Lemma ko_set_draws v p : keeps_objects p (set_draws v p).
Proof. apply ko_same; reflexivity. Qed.

Lemma ko_update_thread tid f p : keeps_objects p (update_thread tid f p).
Proof. apply ko_same; reflexivity. Qed.

Lemma ko_observe tid evs p : keeps_objects p (observe tid evs p).
Proof.
  unfold observe. revert p. induction evs as [| ev evs IH]; intros p; simpl.
  - apply ko_refl.
  - eapply ko_trans; [| apply IH]. destruct ev; apply ko_same; reflexivity.
Qed.

Lemma ko_spawn p : keeps_objects p (spawn fl env p).
Proof.
  unfold spawn. destruct (start_phase fl env (length (threads p)) p) as [ph evs].
  eapply ko_trans; [| apply ko_observe]. apply ko_same; reflexivity.
Qed.

Lemma ko_addToHistory trk p : In trk (tracks p) -> keeps_objects p (addToHistory trk p).
Proof.
  intros Hin. unfold addToHistory.
  destruct (existsb (same_track trk) (playback_history p)); [apply ko_refl |].
  split; simpl; auto.
  intros t [<- | Ht]; [auto |].
  apply list_elem_of_In, elem_of_take in Ht. destruct Ht as (i & Hi & _).
  apply list_elem_of_lookup_2, list_elem_of_In in Hi. auto.
Qed.

Lemma ko_start_current p : keeps_objects p (start_current fl env p).
Proof.
  unfold start_current. destruct (negb _); [apply ko_refl |].
  destruct (tracks p !! Z.to_nat (currentTrackIndex p)) as [trk |] eqn:E; [| apply ko_refl].
  assert (Hin : In trk (tracks p)) by (apply list_elem_of_lookup_2, list_elem_of_In in E; exact E).
  eapply ko_trans; [| apply ko_addToHistory].
  - eapply ko_trans; [| apply ko_spawn].
    split; simpl; auto. intros t [= <-]. auto.
  - rewrite (ko_tracks _ _ (ko_spawn _)). exact Hin.
Qed.

Lemma ko_nextTrack_with play p :
  (forall q, keeps_objects q (play q)) -> keeps_objects p (nextTrack_with env play p).
Proof.
  intros Hplay. unfold nextTrack_with.
  destruct (0 <? length (tracks p))%nat; [| apply ko_refl].
  eapply ko_trans; [| apply Hplay].
  eapply ko_trans; [| apply ko_set_position].
  destruct (shuffle p); [unfold randint |]; apply ko_same; reflexivity.
Qed.

Lemma ko_playback_finished p : keeps_objects p (playback_finished fl env p).
Proof.
  unfold playback_finished.
  eapply ko_trans; [apply (ko_set_audio_thread None) |].
  cbn [repeat set_audio_thread].
  destruct (repeat p).
  - apply ko_start_current.
  - apply ko_nextTrack_with. intros q. apply ko_start_current.
Qed.

Lemma ko_finalize tid p : keeps_objects p (finalize fl env tid p).
Proof.
  unfold finalize. eapply ko_trans; [| apply ko_playback_finished].
  eapply ko_trans; [| apply ko_update_thread]. apply ko_observe.
Qed.

Lemma ko_thread_step tid p : keeps_objects p (thread_step fl env tid p).
Proof.
  unfold thread_step.
  destruct (threads p !! tid) as [self |]; [| apply ko_refl].
  assert (Body : forall sr cf data i rest,
            keeps_objects p
              (let '(evs, continue) := chunk_body fl env tid self sr cf data i in
               let p := observe tid evs p in
               if continue then
                 update_thread tid (with_phase (Streaming sr cf data rest false)) p
               else finalize fl env tid p)).
  { intros sr cf data i rest.
    destruct (chunk_body fl env tid self sr cf data i) as [evs continue].
    destruct continue.
    - eapply ko_trans; [| apply ko_update_thread]. apply ko_observe.
    - eapply ko_trans; [| apply ko_finalize]. apply ko_observe. }
  destruct (phase self) as [| sr cf data pending waiting | sr cf data pending];
    [apply ko_refl | |].
  - destruct pending as [| i rest]; [apply ko_finalize |].
    destruct (negb waiting && stop_flag self); [apply ko_finalize |].
    destruct (negb (pause_event self)); [apply ko_update_thread | apply Body].
  - destruct pending as [| i rest]; [apply ko_finalize | apply Body].
Qed.

Lemma ko_stopPlayback p : keeps_objects p (stopPlayback fl env p).
Proof.
  unfold stopPlayback. destruct (audio_thread p) as [tid |]; [| apply ko_refl].
  eapply ko_trans; [| apply ko_set_audio_thread]. unfold join.
  eapply ko_trans; [| apply ko_thread_step].
  eapply ko_trans; [| apply ko_thread_step].
  eapply ko_trans; [| apply ko_update_thread]. apply ko_update_thread.
Qed.

Lemma ko_playCurrentTrack p : keeps_objects p (playCurrentTrack fl env p).
Proof.
  unfold playCurrentTrack. eapply ko_trans; [apply ko_stopPlayback | apply ko_start_current].
Qed.

Lemma ko_restart p :
  keeps_objects p match audio_thread p with
                  | Some _ => playCurrentTrack fl env p
                  | None => p
                  end.
Proof. destruct (audio_thread p); [apply ko_playCurrentTrack | apply ko_refl]. Qed.

Lemma ko_play_at v p :
  keeps_objects p (playCurrentTrack fl env
                     (set_playback_position 0 (set_currentTrackIndex v p))).
Proof.
  eapply ko_trans; [| apply ko_playCurrentTrack].
  eapply ko_trans; [apply ko_set_index | apply ko_set_position].
Qed.

Lemma ko_exec a p : plays a = true -> keeps_objects p (exec fl env a p).
Proof.
  destruct a; simpl; try discriminate; intros _.
  - apply ko_same; reflexivity.
  - unfold togglePlayPause.
    destruct (currentTrackIndex p <? 0).
    + destruct (0 <? length (tracks p))%nat; [| apply ko_refl].
      eapply ko_trans; [apply ko_set_index | apply ko_playCurrentTrack].
    + destruct (audio_thread p) as [tid |]; [| apply ko_playCurrentTrack].
      destruct (pause_is_set tid p); apply ko_update_thread.
  - unfold prevTrack. destruct (0 <? length (tracks p))%nat; [| apply ko_refl].
    apply ko_play_at.
  - apply ko_nextTrack_with. apply ko_playCurrentTrack.
  - unfold rewind15. eapply ko_trans; [| apply ko_restart]. apply ko_set_position.
  - unfold forward15. destruct (currentTrack p) as [trk |]; [| apply ko_refl].
    destruct (Qltb _ _); [| apply ko_refl].
    eapply ko_trans; [| apply ko_restart]. apply ko_set_position.
  - apply ko_same; reflexivity.
  - apply ko_same; reflexivity.
  - unfold onSeekEnd. destruct (currentTrack p) as [trk |]; [| apply ko_refl].
    eapply ko_trans; [| apply ko_restart]. apply ko_set_position.
  - unfold playHistoryTrack.
    destruct (playback_history p !! index) as [track |]; [| apply ko_refl].
    destruct (index_of track (tracks p)) as [k |]; [| apply ko_refl].
    apply ko_play_at.
  - unfold playSelectedTrack. destruct (index <? length (tracks p))%nat; [| apply ko_refl].
    apply ko_play_at.
  - unfold jumpToTrackByNumber. destruct (_ && _); [| apply ko_refl]. apply ko_play_at.
  - apply ko_stopPlayback.
  - apply ko_thread_step.
Qed.

Lemma keeps_known p p' : keeps_objects p p' -> objects_known p -> objects_known p'.
Proof.
  intros [N T H C] (K1 & K2 & K3 & K4). unfold objects_known. rewrite N, T.
  split; [exact K1 |]. split; [exact K2 |]. split.
  - apply List.Forall_forall. intros t Ht.
    destruct (H t Ht) as [X | X];
      [apply (proj1 (List.Forall_forall _ _) K3 t X)
      | apply (proj1 (List.Forall_forall _ _) K2 t X)].
  - intros t Ht.
    destruct (C t Ht) as [X | X];
      [apply K4, X | apply (proj1 (List.Forall_forall _ _) K2 t X)].
Qed.

Lemma In_new_tracks (o : nat) (l : list pstr) (t : AudioTrack) :
  In t (imap (fun k f => AudioTrack_new fl env (o + k) f) l) ->
  (o <= oid t < o + length l)%nat.
Proof.
  intros Hin. apply (in_map oid) in Hin. rewrite map_oid_imap_new in Hin.
  apply in_seq in Hin. exact Hin.
Qed.

Lemma append_known (files : list pstr) (keep : pstr -> bool) (g : pstr -> pstr) p :
  objects_known p ->
  objects_known (fold_left (fun p f => if keep (g f) then append_track fl env (g f) p else p)
                           files p).
Proof.
  intros (K1 & K2 & K3 & K4).
  destruct (append_tracks_spec fl env files keep g p) as (T & N & _ & C & _ & _ & _ & H & _).
  cbv zeta in *. unfold objects_known. rewrite T, N, C, H.
  set (kept := List.filter keep (map g files)).
  assert (B : forall t, In t (tracks p) -> (oid t < next_oid p)%nat)
    by (apply List.Forall_forall; exact K2).
  split; [| split; [| split]].
  - rewrite map_app, map_oid_imap_new. apply NoDup_app.
    split; [exact K1 |]. split; [| apply NoDup_seq].
    intros x Hx Hs. apply elem_of_seq in Hs.
    apply list_elem_of_In, in_map_iff in Hx. destruct Hx as (t & <- & Ht).
    specialize (B t Ht). lia.
  - apply List.Forall_forall. intros t Ht. apply in_app_or in Ht.
    destruct Ht as [Ht | Ht]; [specialize (B t Ht); lia |].
    apply In_new_tracks in Ht. lia.
  - apply List.Forall_forall. intros t Ht.
    pose proof (proj1 (List.Forall_forall _ _) K3 t Ht) as X. simpl in X. lia.
  - intros t Ht. specialize (K4 t Ht). lia.
Qed.

Lemma delete_known i p :
  objects_known p -> objects_known (set_tracks (delete i (tracks p)) p).
Proof.
  intros (K1 & K2 & K3 & K4). unfold objects_known. simpl.
  split; [| split; [apply Forall_delete, K2 | split; [exact K3 | exact K4]]].
  change (NoDup (oid <$> delete i (tracks p))). rewrite list_fmap_delete.
  eauto using sublist_NoDup, sublist_delete.
Qed.

Lemma exec_known a p : objects_known p -> objects_known (exec fl env a p).
Proof.
  intros K. destruct (plays a) eqn:E; [apply (keeps_known p), K; apply ko_exec, E |].
  destruct a; try discriminate; simpl.
  - unfold addSelectedFiles. destruct (pendingFiles p) as [| f files]; [exact K |].
    apply (keeps_known (fold_left (fun p f => append_track fl env f p) (f :: files) p));
      [apply ko_same; reflexivity |].
    apply (append_known (f :: files) (fun _ => true) (fun f => f) p K).
  - apply (keeps_known p), K. unfold changeVolume. cbn [audio_thread set_volume_level threads].
    destruct (audio_thread p) as [tid |]; [| apply ko_same; reflexivity].
    destruct (threads p !! tid) as [t |]; [| apply ko_same; reflexivity].
    destruct (negb (muted t)); apply ko_same; reflexivity.
  - apply (keeps_known p), K. unfold toggleMute.
    destruct (audio_thread p); apply ko_same; reflexivity.
  - unfold loadPlaylist. apply (append_known (readlines text) (isfile env) strip).
    destruct K as (_ & _ & K3 & K4). unfold objects_known. simpl.
    split; [constructor | split; [constructor | split; [exact K3 | exact K4]]].
  - destruct (removeTrackAt_cases fl env row p) as [[-> _] | [_ [[_ ->] | [[_ ->] | [_ ->]]]]].
    + exact K.
    + eapply keeps_known; [apply ko_stopPlayback | apply delete_known, K].
    + eapply keeps_known; [apply ko_set_index | apply delete_known, K].
    + apply delete_known, K.
Qed.

Lemma reachable_known p : reachable fl env p -> objects_known p.
Proof.
  induction 1 as [| a p _ IH].
  - unfold objects_known. simpl. repeat split; try constructor. intros t. discriminate.
  - apply exec_known, IH.
Qed.

Lemma index_of_None track l :
  (forall x, In x l -> oid x <> oid track) -> index_of track l = None.
Proof.
  induction l as [| a l IH]; simpl; intros H; [reflexivity |].
  destruct (same_track a track) eqn:E.
  - apply Nat.eqb_eq in E. exfalso. apply (H a); auto.
  - rewrite IH; [reflexivity |]. intros x Hx. apply H. auto.
Qed.

(** X16.  The tracks of the playlist are distinct objects, and every track
    the player holds, in the playlist, in the history or as the current
    track, was made by the player, in every state it can reach.  So after
    [loadPlaylist], which makes a new object for every line, none of the
    tracks of the history is in the playlist, nor is the current track:
    [self.tracks.index(track)] of [playHistoryTrack] finds none of them,
    also when the file lists the very paths that were played.  After
    [removeTrackAt] the removed track is not in the playlist either. *)
Theorem history_outlives_the_playlist p :
  reachable fl env p ->
  objects_known p /\
  (forall text track,
     let p' := loadPlaylist fl env text p in
     In track (playback_history p') \/ currentTrack p' = Some track ->
     index_of track (tracks p') = None) /\
  (forall row track,
     0 <= row -> tracks p !! Z.to_nat row = Some track ->
     index_of track (tracks (removeTrackAt fl env row p)) = None).
Proof.
  intros R. pose proof (reachable_known p R) as K. split; [exact K |].
  destruct K as (K1 & K2 & K3 & K4). split.
  - intros text track p' Hin. apply index_of_None. intros x Hx.
    subst p'. unfold loadPlaylist in *.
    destruct (append_tracks_spec fl env (readlines text) (isfile env) strip (set_tracks [] p))
      as (T & _ & _ & C & _ & _ & _ & H & _).
    cbv zeta in T, C, H. simpl in T, C, H.
    rewrite T in Hx. apply In_new_tracks in Hx.
    assert (B : (oid track < next_oid p)%nat).
    { destruct Hin as [Hin | Hin].
      - rewrite H in Hin. exact (proj1 (List.Forall_forall _ _) K3 track Hin).
      - rewrite C in Hin. apply K4, Hin. }
    lia.
  - intros row track Hrow Hl.
    assert (Hr : 0 <= row < Z.of_nat (length (tracks p))).
    { apply lookup_lt_Some in Hl. lia. }
    assert (T : tracks (removeTrackAt fl env row p) = delete (Z.to_nat row) (tracks p)).
    { destruct (removeTrackAt_cases fl env row p) as [[_ N] | [_ [[_ ->] | [[_ ->] | [_ ->]]]]];
        [tauto | | reflexivity | reflexivity].
      rewrite (ko_tracks _ _ (ko_stopPlayback _)). reflexivity. }
    rewrite T. apply index_of_None. intros x Hx Ho.
    apply list_elem_of_In, list_elem_of_lookup_1 in Hx. destruct Hx as (j & Hj).
    assert (Hi : (oid <$> tracks p) !! Z.to_nat row = Some (oid track))
      by (rewrite list_lookup_fmap, Hl; reflexivity).
    destruct (Nat.lt_ge_cases j (Z.to_nat row)) as [Hlt | Hge].
    + rewrite list_lookup_delete_lt in Hj by exact Hlt.
      assert (Hj' : (oid <$> tracks p) !! j = Some (oid track))
        by (rewrite list_lookup_fmap, Hj; simpl; f_equal; exact Ho).
      pose proof (NoDup_lookup _ _ _ _ K1 Hi Hj'). lia.
    + rewrite list_lookup_delete_ge in Hj by exact Hge.
      assert (Hj' : (oid <$> tracks p) !! S j = Some (oid track))
        by (rewrite list_lookup_fmap, Hj; simpl; f_equal; exact Ho).
      pose proof (NoDup_lookup _ _ _ _ K1 Hi Hj'). lia.
Qed.

End ObjectFacts.

(** ** Play, the history rows and the toggles *)

Section SlotFacts.

Variable fl : Q -> Q.
Variable env : Env.

(** [playCurrentTrack] with no session held and a valid index. *)
Lemma playCurrentTrack_starts p :
  audio_thread p = None ->
  0 <= currentTrackIndex p < Z.of_nat (length (tracks p)) ->
  let p' := playCurrentTrack fl env p in
  currentTrackIndex p' = currentTrackIndex p /\
  playback_position p' = playback_position p /\
  currentTrack p' = tracks p !! Z.to_nat (currentTrackIndex p) /\
  audio_thread p' = Some (length (threads p)) /\
  threads p' = threads p ++ [session_of fl env (length (threads p)) p'].
Proof.
  intros Ha Hv. cbv zeta. rewrite (playCurrentTrack_idle fl env p Ha).
  destruct (lookup_lt_is_Some_2 (tracks p) (Z.to_nat (currentTrackIndex p))) as [trk Ht];
    [lia |].
  destruct (start_current_spec fl env p trk Hv Ht) as (T & A & Th).
  assert (E : transport (start_current fl env p) = transport (set_currentTrack (Some trk) p))
    by exact T.
  unfold transport in T. cbn [set_currentTrack tracks currentTrackIndex currentTrack
    playback_position repeat shuffle volume_level] in T.
  injection T as _ T2 T3 T4 _ _ _.
  rewrite (session_of_transport fl env _ _ _ E), Ht. auto 10.
Qed.

(** [playCurrentTrack] with no session held and the index past the
    playlist. *)
Lemma playCurrentTrack_invalid p :
  audio_thread p = None -> Z.of_nat (length (tracks p)) <= currentTrackIndex p ->
  playCurrentTrack fl env p = p.
Proof.
  intros Ha Hv. rewrite (playCurrentTrack_idle fl env p Ha). unfold start_current.
  destruct (Z.ltb_spec (currentTrackIndex p) (Z.of_nat (length (tracks p)))); [lia |].
  rewrite andb_false_r. reflexivity.
Qed.

(** X17.  Play with no session held.  With no track chosen yet it starts
    the first track of the playlist, and nothing on an empty playlist.
    With a track chosen it starts that track from the position the player
    holds, which is where the last session was stopped, not from 0.  With
    the index past the end of the playlist, where the removal of the last
    track leaves it, it does nothing. *)
Theorem play_resumes_from_the_stored_position p :
  audio_thread p = None ->
  let p' := togglePlayPause fl env p in
  let n := Z.of_nat (length (tracks p)) in
  let started := fun i =>
    currentTrackIndex p' = i /\ playback_position p' = playback_position p /\
    currentTrack p' = tracks p !! Z.to_nat i /\
    audio_thread p' = Some (length (threads p)) /\
    threads p' = threads p ++ [session_of fl env (length (threads p)) p'] in
  (currentTrackIndex p < 0 -> n = 0 -> p' = p) /\
  (currentTrackIndex p < 0 -> 0 < n -> started 0) /\
  (0 <= currentTrackIndex p < n -> started (currentTrackIndex p)) /\
  (n <= currentTrackIndex p -> p' = p).
Proof.
  intros Ha. cbv zeta. unfold togglePlayPause. rewrite Ha.
  destruct (Z.ltb_spec (currentTrackIndex p) 0) as [Hneg | Hpos].
  - split; [| split; [| split]]; try lia.
    + intros _ Hn. destruct (Nat.ltb_spec 0 (length (tracks p))); [lia | reflexivity].
    + intros _ Hn. destruct (Nat.ltb_spec 0 (length (tracks p))); [| lia].
      apply (playCurrentTrack_starts (set_currentTrackIndex 0 p) Ha). simpl. lia.
  - split; [| split; [| split]]; try lia.
    + intros Hv. apply (playCurrentTrack_starts p Ha Hv).
    + intros Hv. apply (playCurrentTrack_invalid p Ha Hv).
Qed.

Lemma index_of_Some track l k :
  NoDup (map oid l) -> l !! k = Some track -> index_of track l = Some k.
Proof.
  revert k. induction l as [| a l IH]; intros k Hn Hl; [discriminate |].
  simpl in Hn. apply NoDup_cons in Hn. destruct Hn as [Hna Hn].
  destruct k as [| k]; simpl in *.
  - injection Hl as ->. unfold same_track. rewrite Nat.eqb_refl. reflexivity.
  - destruct (same_track a track) eqn:E.
    + exfalso. apply Hna. apply Nat.eqb_eq in E. rewrite E.
      apply list_elem_of_In, in_map, list_elem_of_In, (list_elem_of_lookup_2 _ k), Hl.
    + rewrite (IH k Hn Hl). reflexivity.
Qed.

Lemma start_current_history p trk :
  0 <= currentTrackIndex p < Z.of_nat (length (tracks p)) ->
  tracks p !! Z.to_nat (currentTrackIndex p) = Some trk ->
  In trk (playback_history p) ->
  playback_history (start_current fl env p) = playback_history p.
Proof.
  intros Hv Ht Hin. unfold start_current. rewrite Ht.
  destruct (Z.leb_spec 0 (currentTrackIndex p)); [| lia].
  destruct (Z.ltb_spec (currentTrackIndex p) (Z.of_nat (length (tracks p)))); [| lia].
  simpl negb. cbv iota.
  destruct (spawn_spec fl env (set_currentTrack (Some trk) p)) as (_ & Hs & _).
  unfold addToHistory. rewrite Hs. simpl playback_history at 1.
  assert (X : existsb (same_track trk) (playback_history p) = true).
  { apply existsb_exists. exists trk. split; [exact Hin |].
    unfold same_track. apply Nat.eqb_refl. }
  rewrite X. exact Hs.
Qed.

(** X18.  A double click on a row of the history whose track is still in
    the playlist, with no session held, moves the index to the place of
    that track in the playlist, sets the position to 0 and starts one
    session on the track, which is held.  The history is left as it is. *)
Theorem history_row_starts_its_track index k track p :
  objects_known p -> audio_thread p = None ->
  playback_history p !! index = Some track -> tracks p !! k = Some track ->
  let p' := playHistoryTrack fl env index p in
  currentTrackIndex p' = Z.of_nat k /\ playback_position p' = 0%Q /\
  currentTrack p' = Some track /\ playback_history p' = playback_history p /\
  audio_thread p' = Some (length (threads p)) /\
  threads p' = threads p ++ [session_of fl env (length (threads p)) p'].
Proof.
  intros (K1 & _) Ha Hh Ht. cbv zeta. unfold playHistoryTrack.
  rewrite Hh, (index_of_Some track (tracks p) k K1 Ht).
  assert (Hk : 0 <= Z.of_nat k < Z.of_nat (length (tracks p))).
  { apply lookup_lt_Some in Ht. lia. }
  assert (Ht' : tracks p !! Z.to_nat (Z.of_nat k) = Some track)
    by (rewrite Nat2Z.id; exact Ht).
  destruct (play_at_idle fl env (Z.of_nat k) p track Ha Hk Ht') as (I & P & C & A & Th).
  split; [exact I |]. split; [exact P |]. split; [exact C |].
  split; [| split; [exact A | exact Th]].
  set (x := set_playback_position 0 (set_currentTrackIndex (Z.of_nat k) p)).
  rewrite (playCurrentTrack_idle fl env x Ha).
  apply (start_current_history x track Hk Ht').
  apply list_elem_of_In, (list_elem_of_lookup_2 _ index), Hh.
Qed.

Lemma alter_back {A} (f g : A -> A) (i : nat) (l : list A) :
  (forall t, l !! i = Some t -> g (f t) = t) -> alter g i (alter f i l) = l.
Proof.
  intros H. apply list_eq. intros j. rewrite !list_lookup_alter.
  destruct (decide (i = j)) as [<- |]; [| reflexivity].
  destruct (decide (i = i)) as [_ | N]; [| congruence].
  destruct (l !! i) as [t |] eqn:E; simpl.
  - rewrite (H t eq_refl). reflexivity.
  - reflexivity.
Qed.

Lemma set_threads_same p : set_threads (threads p) p = p.
Proof. destruct p. reflexivity. Qed.

(** X19.  Mute and play/pause toggle back.  [toggleMute] twice leaves the
    player as it was.  So does [togglePlayPause] twice on a held session once
    a track was chosen, when the thread is not inside [pause_event.wait()]:
    the second call resumes what the first paused, or pauses again what the
    first resumed.  (For the thread inside the wait see X20.) *)
Theorem mute_and_pause_toggle_back p :
  toggleMute (toggleMute p) = p /\
  (forall tid, 0 <= currentTrackIndex p -> audio_thread p = Some tid ->
     (forall t sr cf data pending,
        threads p !! tid = Some t -> phase t <> Streaming sr cf data pending true) ->
     togglePlayPause fl env (togglePlayPause fl env p) = p).
Proof.
  split.
  - unfold toggleMute. destruct (audio_thread p) as [tid |] eqn:Ha; [| rewrite Ha; reflexivity].
    cbn [audio_thread update_thread set_threads]. rewrite Ha.
    unfold update_thread. cbn [threads set_threads].
    rewrite alter_back; [apply (set_threads_same p) |].
    intros t _. destruct t. unfold with_muted. simpl. rewrite negb_involutive. reflexivity.
  - intros tid Hi Ha Hnw.
    set (flip := fun b : bool => if b then with_pause_event false else event_set).
    assert (T : forall q, 0 <= currentTrackIndex q -> audio_thread q = Some tid ->
              togglePlayPause fl env q = update_thread tid (flip (pause_is_set tid q)) q).
    { intros q Hq Hq'. unfold togglePlayPause.
      destruct (Z.ltb_spec (currentTrackIndex q) 0); [lia |].
      rewrite Hq'. destruct (pause_is_set tid q); reflexivity. }
    rewrite (T p Hi Ha).
    rewrite T by (simpl; assumption).
    unfold update_thread. cbn [threads set_threads].
    match goal with |- set_threads ?l _ = _ => assert (E : l = threads p) end.
    { apply alter_back. intros t Ht. unfold pause_is_set at 1.
      cbn [threads set_threads]. rewrite list_lookup_alter.
      destruct (decide (tid = tid)) as [_ | N]; [| congruence].
      unfold pause_is_set. rewrite Ht. simpl.
      assert (Hn : forall sr cf data pending, phase t <> Streaming sr cf data pending true)
        by (intros sr cf data pending; apply (Hnw t), Ht).
      destruct (pause_event t) eqn:Hpe; unfold flip.
      - cbn [pause_event with_pause_event].
        rewrite (event_set_elsewhere (with_pause_event false t) Hn).
        destruct t. simpl in *. subst. reflexivity.
      - rewrite (event_set_elsewhere t Hn). cbn [pause_event with_pause_event].
        destruct t. simpl in *. subst. reflexivity. }
    rewrite E. destruct p. reflexivity.
Qed.

(** X20.  Resume, then pause at once: the thread inside the wait is let
    through for one chunk.  [pause_event.set()] notifies it, and
    [pause_event.wait()] returns for it although [pause_event.clear()]
    follows before it runs: left alone the thread writes nothing, and after
    the two calls its next step writes the chunk it was waiting in front of
    and stores its position, with the event clear again. *)
Theorem resume_then_pause_lets_one_chunk_through p tid t sr cf data i rest :
  0 <= currentTrackIndex p -> audio_thread p = Some tid -> threads p !! tid = Some t ->
  phase t = Streaming sr cf data (i :: rest) true -> pause_event t = false ->
  stream_write env tid i = true -> py_slice data i (i + chunk_size) <> [] ->
  let p2 := togglePlayPause fl env (togglePlayPause fl env p) in
  let chunk := process_chunk fl t (py_slice data i (i + chunk_size)) in
  output (thread_step fl env tid p) = output p /\
  output p2 = output p /\ pause_is_set tid p2 = false /\
  output (thread_step fl env tid p2)
  = output p ++ [(tid, EWrite chunk);
                 (tid, EPosition (position_after fl sr cf i (length chunk)));
                 (tid, EVisualize chunk (length chunk))] /\
  playback_position (thread_step fl env tid p2)
  = position_after fl sr cf i (length chunk).
Proof.
  intros Hi Ha Hl Hp Hpause Hw Hne. cbv zeta.
  assert (T1 : togglePlayPause fl env p = update_thread tid event_set p).
  { unfold togglePlayPause, pause_is_set. destruct (Z.ltb_spec (currentTrackIndex p) 0); [lia |].
    rewrite Ha, Hl, Hpause. reflexivity. }
  set (t1 := with_pause_event true (with_phase (Woken sr cf data (i :: rest)) t)).
  assert (Hl1 : threads (update_thread tid event_set p) !! tid = Some t1).
  { subst t1. rewrite <- (event_set_waiting t _ _ _ _ Hp). apply update_thread_lookup, Hl. }
  assert (T2 : togglePlayPause fl env (update_thread tid event_set p)
               = update_thread tid (with_pause_event false) (update_thread tid event_set p)).
  { unfold togglePlayPause, pause_is_set. simpl currentTrackIndex.
    destruct (Z.ltb_spec (currentTrackIndex p) 0); [lia |].
    simpl audio_thread. rewrite Ha, Hl1. reflexivity. }
  rewrite T1, T2.
  set (p2 := update_thread tid (with_pause_event false) (update_thread tid event_set p)).
  assert (Hl2 : threads p2 !! tid = Some (with_pause_event false t1))
    by (apply update_thread_lookup, Hl1).
  split.
  - rewrite (thread_step_paused fl env tid p t sr cf data i rest true Hl Hp Hpause eq_refl).
    reflexivity.
  - split; [reflexivity |]. split.
    + unfold pause_is_set. rewrite Hl2. reflexivity.
    + rewrite (thread_step_woken fl env tid p2 _ sr cf data i rest Hl2 eq_refl Hw Hne).
      split; [| reflexivity].
      cbn [output update_thread set_threads]. rewrite output_observe. reflexivity.
Qed.

End SlotFacts.

(** ** Threads inside the wait *)

Section WaitFacts.

Variable fl : Q -> Q.
Variable env : Env.

Lemma wk_same p p' : threads p' = threads p -> waits_ok p -> waits_ok p'.
Proof. unfold waits_ok. intros ->. auto. Qed.

Lemma wk_update tid f p :
  (forall t, threads p !! tid = Some t -> wait_ok t -> wait_ok (f t)) ->
  waits_ok p -> waits_ok (update_thread tid f p).
Proof.
  intros Hf H. unfold waits_ok, update_thread. cbn [threads set_threads].
  apply Forall_alter; assumption.
Qed.

Lemma wait_ok_elsewhere t :
  (forall sr cf data pending, phase t <> Streaming sr cf data pending true) -> wait_ok t.
Proof. intros H sr cf data pending E. exfalso. apply (H sr cf data pending E). Qed.

Lemma wait_ok_event_set t : wait_ok (event_set t).
Proof.
  apply wait_ok_elsewhere. intros sr0 cf0 data0 pending0. unfold event_set.
  destruct (phase t) as [| sr cf data pending [|] | sr cf data pending] eqn:E;
    simpl; rewrite ?E; congruence.
Qed.

Lemma wk_observe tid evs p : waits_ok p -> waits_ok (observe tid evs p).
Proof. apply wk_same, threads_observe. Qed.

Lemma wk_spawn p : waits_ok p -> waits_ok (spawn fl env p).
Proof.
  intros H. unfold spawn.
  destruct (start_phase fl env (length (threads p)) p) as [ph evs] eqn:E.
  apply wk_observe. unfold waits_ok. cbn [threads set_audio_thread set_threads].
  apply Forall_app_2; [exact H |]. constructor; [| constructor].
  apply wait_ok_elsewhere. intros sr cf data pending. cbn [phase with_phase].
  unfold start_phase in E. destruct (currentTrack p) as [trk |].
  - destruct (open_session _ _ _ _ _) as [m | [[sr0 cf0] data0]];
      injection E as <- _; discriminate.
  - injection E as <- _. discriminate.
Qed.

Lemma wk_start_current p : waits_ok p -> waits_ok (start_current fl env p).
Proof.
  intros H. unfold start_current. destruct (negb _); [exact H |].
  destruct (tracks p !! Z.to_nat (currentTrackIndex p)) as [trk |]; [| exact H].
  destruct (addToHistory_spec trk (spawn fl env (set_currentTrack (Some trk) p)))
    as (_ & _ & A).
  apply (wk_same (spawn fl env (set_currentTrack (Some trk) p))); [exact A |].
  apply wk_spawn. exact H.
Qed.

Lemma wk_nextTrack_with play p :
  (forall q, waits_ok q -> waits_ok (play q)) ->
  waits_ok p -> waits_ok (nextTrack_with env play p).
Proof.
  intros Hplay H. unfold nextTrack_with.
  destruct (0 <? length (tracks p))%nat; [| exact H].
  apply Hplay. destruct (shuffle p); exact H.
Qed.

Lemma wk_playback_finished p : waits_ok p -> waits_ok (playback_finished fl env p).
Proof.
  intros H. unfold playback_finished. cbn [repeat set_audio_thread].
  destruct (repeat p).
  - apply wk_start_current. exact H.
  - apply wk_nextTrack_with; [intros q; apply wk_start_current | exact H].
Qed.

Lemma wk_finalize tid p : waits_ok p -> waits_ok (finalize fl env tid p).
Proof.
  intros H. unfold finalize. apply wk_playback_finished, wk_update.
  - intros t _ _. apply wait_ok_elsewhere. discriminate.
  - apply wk_observe, H.
Qed.

Lemma wk_thread_step tid p : waits_ok p -> waits_ok (thread_step fl env tid p).
Proof.
  intros H. unfold thread_step.
  destruct (threads p !! tid) as [self |] eqn:Hl; [| exact H].
  assert (Body : forall sr cf data i rest,
            waits_ok
              (let '(evs, continue) := chunk_body fl env tid self sr cf data i in
               let p := observe tid evs p in
               if continue then
                 update_thread tid (with_phase (Streaming sr cf data rest false)) p
               else finalize fl env tid p)).
  { intros sr cf data i rest.
    destruct (chunk_body fl env tid self sr cf data i) as [evs continue].
    destruct continue.
    - apply wk_update; [| apply wk_observe, H].
      intros t _ _. apply wait_ok_elsewhere. discriminate.
    - apply wk_finalize, wk_observe, H. }
  destruct (phase self) as [| sr cf data pending waiting | sr cf data pending];
    [exact H | |].
  - destruct pending as [| i rest]; [apply wk_finalize, H |].
    destruct (negb waiting && stop_flag self); [apply wk_finalize, H |].
    destruct (pause_event self) eqn:Hpe; simpl negb; cbv iota; [apply Body |].
    apply wk_update; [| exact H].
    intros t Ht _ sr0 cf0 data0 pending0 E. rewrite Hl in Ht. injection Ht as <-.
    cbn [phase pause_event with_phase] in *. injection E as _ _ _ <-.
    split; [exact Hpe | discriminate].
  - destruct pending as [| i rest]; [apply wk_finalize, H | apply Body].
Qed.

Lemma wk_stopPlayback p : waits_ok p -> waits_ok (stopPlayback fl env p).
Proof.
  intros H. unfold stopPlayback. destruct (audio_thread p) as [tid |]; [| exact H].
  apply (wk_same (join fl env tid
                    (update_thread tid event_set
                       (update_thread tid (with_stop_flag true) p))));
    [reflexivity |].
  unfold join. apply wk_thread_step, wk_thread_step, wk_update.
  - intros t _ _. apply wait_ok_event_set.
  - apply wk_update; [| exact H]. intros t _ Ht. exact Ht.
Qed.

Lemma wk_playCurrentTrack p : waits_ok p -> waits_ok (playCurrentTrack fl env p).
Proof. intros H. unfold playCurrentTrack. apply wk_start_current, wk_stopPlayback, H. Qed.

Lemma wk_restart p :
  waits_ok p ->
  waits_ok match audio_thread p with
           | Some _ => playCurrentTrack fl env p
           | None => p
           end.
Proof. intros H. destruct (audio_thread p); [apply wk_playCurrentTrack, H | exact H]. Qed.

Lemma wk_exec a p : waits_ok p -> waits_ok (exec fl env a p).
Proof.
  intros H. destruct a; simpl.
  - exact H.
  - unfold addSelectedFiles. destruct (pendingFiles p) as [| f files]; [exact H |].
    destruct (append_tracks_spec fl env (f :: files) (fun _ => true) (fun f => f) p)
      as (_ & _ & _ & _ & _ & _ & T & _).
    apply (wk_same p); [| exact H]. cbn [threads set_pendingFiles]. exact T.
  - unfold togglePlayPause. destruct (currentTrackIndex p <? 0).
    + destruct (0 <? length (tracks p))%nat; [| exact H].
      apply wk_playCurrentTrack. exact H.
    + destruct (audio_thread p) as [tid |]; [| apply wk_playCurrentTrack, H].
      destruct (pause_is_set tid p); apply wk_update; try exact H.
      * intros t _ Ht sr cf data pending E. split; [reflexivity |].
        apply (Ht sr cf data pending E).
      * intros t _ _. apply wait_ok_event_set.
  - unfold prevTrack. destruct (0 <? length (tracks p))%nat; [| exact H].
    apply wk_playCurrentTrack. exact H.
  - apply wk_nextTrack_with; [intros q; apply wk_playCurrentTrack | exact H].
  - unfold rewind15. apply wk_restart. exact H.
  - unfold forward15. destruct (currentTrack p) as [trk |]; [| exact H].
    destruct (Qltb _ _); [| exact H]. apply wk_restart. exact H.
  - unfold changeVolume. cbn [audio_thread set_volume_level threads].
    destruct (audio_thread p) as [tid |]; [| exact H].
    destruct (threads p !! tid) as [t |]; [| exact H].
    destruct (negb (muted t)); [| exact H].
    apply wk_update; [| exact H]. intros t0 _ Ht. exact Ht.
  - unfold toggleMute. destruct (audio_thread p) as [tid |]; [| exact H].
    apply wk_update; [| exact H]. intros t0 _ Ht. exact Ht.
  - exact H.
  - exact H.
  - unfold onSeekEnd. destruct (currentTrack p) as [trk |]; [| exact H].
    apply wk_restart. exact H.
  - unfold playHistoryTrack.
    destruct (playback_history p !! index) as [track |]; [| exact H].
    destruct (index_of track (tracks p)) as [k |]; [| exact H].
    apply wk_playCurrentTrack. exact H.
  - unfold loadPlaylist.
    destruct (append_tracks_spec fl env (readlines text) (isfile env) strip (set_tracks [] p))
      as (_ & _ & _ & _ & _ & _ & T & _).
    apply (wk_same p); [exact T | exact H].
  - unfold playSelectedTrack. destruct (index <? length (tracks p))%nat; [| exact H].
    apply wk_playCurrentTrack. exact H.
  - destruct (removeTrackAt_cases fl env row p) as [[-> _] | [_ [[_ ->] | [[_ ->] | [_ ->]]]]];
      try exact H.
    apply wk_stopPlayback. exact H.
  - unfold jumpToTrackByNumber. destruct (_ && _); [| exact H].
    apply wk_playCurrentTrack. exact H.
  - apply wk_stopPlayback. exact H.
  - apply wk_thread_step. exact H.
Qed.

Lemma reachable_waits_ok p : reachable fl env p -> waits_ok p.
Proof.
  induction 1 as [| a p _ IH]; [constructor | apply wk_exec, IH].
Qed.

Lemma alter_same {A} (f : A -> A) (i : nat) (l : list A) :
  (forall t, l !! i = Some t -> f t = t) -> alter f i l = l.
Proof.
  intros H. apply list_eq. intros j. rewrite list_lookup_alter.
  destruct (decide (i = j)) as [<- |]; [| reflexivity].
  destruct (l !! i) as [t |] eqn:E; simpl; [rewrite (H t eq_refl) |]; reflexivity.
Qed.

(** X21.  In every state the player can reach, a thread that is inside
    [pause_event.wait()] stands in front of a chunk and has its event
    clear, and a step of it changes nothing: it stays in the wait until
    [pause_event.set()] is called, by play/pause or by [stopPlayback]. *)
Theorem waiting_thread_has_its_event_clear p tid t sr cf data pending :
  reachable fl env p -> threads p !! tid = Some t ->
  phase t = Streaming sr cf data pending true ->
  pause_event t = false /\ pending <> [] /\ thread_step fl env tid p = p.
Proof.
  intros R Hl Hp.
  destruct (Forall_lookup_1 _ _ _ _ (reachable_waits_ok p R) Hl sr cf data pending Hp)
    as (Hpe & Hne).
  split; [exact Hpe |]. split; [exact Hne |].
  unfold thread_step. rewrite Hl, Hp.
  destruct pending as [| i rest]; [congruence |].
  rewrite Hpe. simpl. unfold update_thread.
  rewrite alter_same; [apply set_threads_same |].
  intros t0 Ht0. rewrite Hl in Ht0. injection Ht0 as <-.
  destruct t. simpl in *. subst. reflexivity.
Qed.

End WaitFacts.

(** ** The further properties at work *)

(** X1, at work: [a.wav] at gain 1/2 from the start, and muted from 128 ms,
    which is frame 1024. *)
Lemma uninterrupted_session_writes_all_data_witness :
  concat (written_chunks (run exact env_demo 0 path_a 0 (fun _ => thread_with false (1 # 2))))
  = replicate 2000 [50] /\
  concat (written_chunks (run exact env_demo 0 path_a 128 (fun _ => thread_with true 1)))
  = replicate 976 [0].
Proof.
  split.
  - rewrite (uninterrupted_session_writes_all_data exact env_demo 0 path_a 0
               (fun _ => thread_with false (1 # 2)) (thread_with false (1 # 2))
               8000 0 (replicate 2000 [100])).
    + vm_compute. reflexivity.
    + vm_compute. reflexivity.
    + reflexivity.
    + reflexivity.
    + reflexivity.
  - rewrite (uninterrupted_session_writes_all_data exact env_demo 0 path_a 128
               (fun _ => thread_with true 1) (thread_with true 1)
               8000 1024 (replicate 976 [100])).
    + vm_compute. reflexivity.
    + vm_compute. reflexivity.
    + reflexivity.
    + reflexivity.
    + reflexivity.
Defined.

(** X2, at work: the two positions of [a.wav] played through. *)
Lemma positions_never_decrease_witness :
  positions (run exact env_demo 0 path_a 0 (fun _ => thread_with false 1)) = [128; 250]%Q /\
  StronglySorted Qle (positions (run exact env_demo 0 path_a 0 (fun _ => thread_with false 1))).
Proof.
  split; [vm_compute; reflexivity |].
  exact (positions_never_decrease exact env_demo 0 path_a 0 _ exact_rounding).
Defined.


(** X4, at work: [b.wav] at gain 1/2 and muted. *)
Lemma mute_and_gain_keep_the_timing_witness :
  run exact env_demo 0 path_b 0 (fun _ => thread_with false (1 # 2))
  = [EWrite [[50; -50]]; EPosition (1 # 8); EVisualize [[50; -50]] 1; ERelease; EFinished] /\
  run exact env_demo 0 path_b 0 (fun _ => thread_with true 1)
  = [EWrite [[0; 0]]; EPosition (1 # 8); EVisualize [[0; 0]] 1; ERelease; EFinished] /\
  map silenced (run exact env_demo 0 path_b 0 (fun _ => thread_with false (1 # 2)))
  = map silenced (run exact env_demo 0 path_b 0 (fun _ => thread_with true 1)).
Proof.
  split; [vm_compute; reflexivity |]. split; [vm_compute; reflexivity |].
  apply (mute_and_gain_keep_the_timing exact env_demo 0 path_b 0).
  reflexivity.
Defined.

(** X5, at work: [a.wav] plays, is paused for three steps of its thread and
    resumed. *)
Lemma paused_session_waits_and_resumes_witness :
  let paused := Nat.iter 3 (thread_step exact env_demo 0)
                  (togglePlayPause exact env_demo playing_a) in
  output paused = output playing_a /\
  playback_position paused = playback_position playing_a /\
  audio_thread paused = Some 0%nat /\
  length (threads paused) = length (threads playing_a) /\
  output (thread_step exact env_demo 0 (togglePlayPause exact env_demo paused))
  = output (thread_step exact env_demo 0 playing_a).
Proof.
  eassert (Hl : threads playing_a !! 0%nat = Some _) by (vm_compute; reflexivity).
  refine (paused_session_waits_and_resumes exact env_demo playing_a 0 _ 8000 0
            (replicate 2000 [100]) 0 [1024%nat] 3 _ eq_refl Hl eq_refl eq_refl eq_refl
            eq_refl _).
  - vm_compute. discriminate.
  - vm_compute. discriminate.
Defined.

(** X7, at work: [a.wav] is paused, its thread has reached the wait, and
    playback is stopped: the first chunk is still written. *)
Lemma stopped_session_last_events_witness :
  let p := exec_all exact env_demo [TogglePlayPause; ThreadStep 0] playing_a in
  output p = [] /\
  exists more,
    output (stopPlayback exact env_demo p)
    = [(0%nat, EWrite (replicate 1024 [80])); (0%nat, EPosition 128);
       (0%nat, EVisualize (replicate 1024 [80]) 1024);
       (0%nat, ERelease); (0%nat, EFinished)] ++ more /\
    written_chunks (map snd more) = [].
Proof.
  cbv zeta. split; [vm_compute; reflexivity |].
  eassert (Hl : threads (exec_all exact env_demo [TogglePlayPause; ThreadStep 0] playing_a)
                !! 0%nat = Some _) by (vm_compute; reflexivity).
  destruct (stopped_session_last_events exact env_demo
              (exec_all exact env_demo [TogglePlayPause; ThreadStep 0] playing_a)
              0 _ 8000 0 (replicate 2000 [100]) 0 [1024%nat] true eq_refl Hl eq_refl eq_refl)
    as (more & H1 & H2).
  - vm_compute. discriminate.
  - exists more. split; [| exact H2]. rewrite H1. vm_compute. reflexivity.
Defined.

(** X8, at work: [a.wav] and [b.wav], repeat off, [a.wav] one chunk in.
    Starting the track again lands on [b.wav]; next lands on [a.wav] again;
    a jump to number 1 lands on number 2. *)
Lemma starting_over_a_live_session_moves_one_further_witness :
  let p := one_chunk_into_a in
  currentTrackIndex p = 0 /\
  currentTrackIndex (playCurrentTrack exact env_demo p) = 1 /\
  audio_thread (playCurrentTrack exact env_demo p) = Some 2%nat /\
  currentTrackIndex (nextTrack exact env_demo p) = 0 /\
  currentTrackIndex (prevTrack exact env_demo p) = 0 /\
  currentTrackIndex (jumpToTrackByNumber exact env_demo 1 p) = 1.
Proof.
  cbv zeta.
  assert (L : live_between_chunks one_chunk_into_a 0).
  { do 5 eexists. split; [reflexivity |]. split; vm_compute; reflexivity. }
  destruct (starting_over_a_live_session_moves_one_further exact env_demo one_chunk_into_a 0
              L eq_refl eq_refl ltac:(vm_compute; lia))
    as ((I & _ & _ & A & _) & N & P & J & _).
  split; [reflexivity |]. split; [exact I |]. split; [exact A |].
  split; [exact N |]. split; [exact P |].
  apply (J 1). vm_compute. split; discriminate.
Defined.

(** X9, at work: [a.wav] plays with repeat on and is started again. *)
Lemma restart_with_repeat_starts_two_sessions_witness :
  let p' := playCurrentTrack exact env_demo repeating_a in
  length (threads repeating_a) = 1%nat /\
  currentTrackIndex p' = 0 /\ audio_thread p' = Some 2%nat /\
  length (threads p') = 3%nat /\
  threads p' !! 1%nat = Some (session_of exact env_demo 1 p').
Proof.
  cbv zeta.
  assert (L : live_between_chunks repeating_a 0).
  { do 5 eexists. split; [reflexivity |]. split; vm_compute; reflexivity. }
  eassert (Ht : tracks repeating_a !! Z.to_nat (currentTrackIndex repeating_a) = Some _)
    by (vm_compute; reflexivity).
  destruct (restart_with_repeat_starts_two_sessions exact env_demo repeating_a 0 _
              L eq_refl ltac:(vm_compute; split; [discriminate | reflexivity]) Ht)
    as (I & _ & _ & A & Ln & T1 & _).
  split; [reflexivity |]. split; [exact I |]. split; [exact A |].
  split; [exact Ln |]. exact T1.
Defined.

(** X14, at work: [" c.wav"] is a file that holds no audio.  Its track has
    duration 0; selected in the playlist, forward does nothing and a seek to
    the middle of the slider goes to 0. *)
Lemma unknown_duration_blocks_forward_and_seek_witness :
  let p := exec exact env_demo (PlaySelectedTrack 0) listing_c in
  path <$> currentTrack p = Some path_c /\
  forward15 exact env_demo p = p /\
  playback_position (onSeekEnd exact env_demo 500 p) = 0%Q /\
  duration (AudioTrack_new exact env_demo 7 path_c) = 0%Q.
Proof.
  cbv zeta.
  eassert (C : currentTrack (exec exact env_demo (PlaySelectedTrack 0) listing_c) = Some _)
    by (vm_compute; reflexivity).
  destruct (unknown_duration_blocks_forward_and_seek exact env_demo _ _ exact_rounding C)
    as (F & S & D).
  - vm_compute. reflexivity.
  - split; [vm_compute; reflexivity |]. split; [| split].
    + apply F. vm_compute. discriminate.
    + rewrite S. vm_compute. reflexivity.
    + apply D. reflexivity.
Defined.

(** X16, at work: [a.wav] and [b.wav] were played; the playlist is saved
    and loaded again.  The playlist shows the same two paths, and neither
    track of the history is in it. *)
Lemma history_outlives_the_playlist_witness :
  let p := played_a_then_b in
  let p' := loadPlaylist exact env_demo (playlist_text (tracks p)) p in
  map path (tracks p) = [path_a; path_b] /\
  map path (tracks p') = [path_a; path_b] /\
  map path (playback_history p') = [path_b; path_a] /\
  Forall (fun track => index_of track (tracks p') = None) (playback_history p').
Proof.
  cbv zeta.
  destruct (history_outlives_the_playlist exact env_demo played_a_then_b
              (reachable_exec_all _ _ _ _ (reachable_init _ _))) as (_ & L & _).
  split; [vm_compute; reflexivity |]. split; [vm_compute; reflexivity |].
  split; [vm_compute; reflexivity |].
  apply List.Forall_forall. intros track Ht. apply L. left. exact Ht.
Defined.

(** X17, at work: [a.wav] plays with repeat on, one chunk is written and
    playback is stopped at 128 ms; play starts a session from there. *)
Lemma play_resumes_from_the_stored_position_witness :
  let p := exec_all exact env_demo [ThreadStep 0; CloseEvent] repeating_a in
  let p' := togglePlayPause exact env_demo p in
  audio_thread p = None /\ playback_position p = 128%Q /\
  currentTrackIndex p' = 0 /\ playback_position p' = 128%Q /\
  audio_thread p' = Some 2%nat.
Proof.
  cbv zeta.
  assert (Ha : audio_thread (exec_all exact env_demo [ThreadStep 0; CloseEvent] repeating_a)
               = None) by (vm_compute; reflexivity).
  destruct (play_resumes_from_the_stored_position exact env_demo _ Ha) as (_ & _ & H & _).
  destruct H as (I & P & _ & A & _); [vm_compute; split; [discriminate | reflexivity] |].
  split; [exact Ha |]. split; [vm_compute; reflexivity |].
  split; [rewrite I; vm_compute; reflexivity |].
  split; [rewrite P; vm_compute; reflexivity |].
  rewrite A. vm_compute. reflexivity.
Defined.

(** X18, at work: [a.wav] and [b.wav] were played and playback was stopped;
    the second row of the deque is [a.wav], the first track of the
    playlist. *)
Lemma history_row_starts_its_track_witness :
  let p := exec exact env_demo CloseEvent played_a_then_b in
  let p' := playHistoryTrack exact env_demo 1 p in
  map path (playback_history p) = [path_b; path_a] /\
  currentTrackIndex p' = 0 /\ playback_position p' = 0%Q /\
  path <$> currentTrack p' = Some path_a /\
  playback_history p' = playback_history p.
Proof.
  cbv zeta.
  assert (K : objects_known (exec exact env_demo CloseEvent played_a_then_b)).
  { apply (reachable_known exact env_demo), reachable_exec.
    apply reachable_exec_all, reachable_init. }
  eassert (Hh : playback_history (exec exact env_demo CloseEvent played_a_then_b) !! 1%nat
                = Some _) by (vm_compute; reflexivity).
  destruct (history_row_starts_its_track exact env_demo 1 0 _ _ K
              ltac:(vm_compute; reflexivity) Hh) as (I & P & C & H & _);
    [vm_compute; reflexivity |].
  split; [vm_compute; reflexivity |]. split; [exact I |]. split; [exact P |].
  split; [rewrite C; vm_compute; reflexivity | exact H].
Defined.


(** X20, at work: [a.wav] is paused and its thread is inside the wait;
    resume and pause follow each other before the thread runs, and its next
    step writes the first chunk. *)
Lemma resume_then_pause_lets_one_chunk_through_witness :
  let p := exec_all exact env_demo [TogglePlayPause; ThreadStep 0] playing_a in
  let p2 := togglePlayPause exact env_demo (togglePlayPause exact env_demo p) in
  output (thread_step exact env_demo 0 p) = [] /\
  pause_is_set 0 p2 = false /\
  written_chunks (map snd (output (thread_step exact env_demo 0 p2)))
  = [replicate 1024 [80]] /\
  playback_position (thread_step exact env_demo 0 p2) = 128%Q.
Proof.
  cbv zeta.
  eassert (Hl : threads (exec_all exact env_demo [TogglePlayPause; ThreadStep 0] playing_a)
                !! 0%nat = Some _) by (vm_compute; reflexivity).
  destruct (resume_then_pause_lets_one_chunk_through exact env_demo
              (exec_all exact env_demo [TogglePlayPause; ThreadStep 0] playing_a)
              0 _ 8000 0 (replicate 2000 [100]) 0 [1024%nat]
              ltac:(vm_compute; discriminate) eq_refl Hl eq_refl eq_refl eq_refl
              ltac:(vm_compute; discriminate))
    as (O1 & _ & Ps & O3 & Pos).
  split; [rewrite O1; vm_compute; reflexivity |].
  split; [exact Ps |].
  split; [rewrite O3; vm_compute; reflexivity |].
  rewrite Pos. vm_compute. reflexivity.
Defined.

(** X21, at work: [long.wav] is paused and its thread has reached the
    wait. *)
Lemma waiting_thread_has_its_event_clear_witness :
  pause_is_set 0 paused_long = false /\
  thread_step exact env_demo 0 paused_long = paused_long.
Proof.
  eassert (Hl : threads paused_long !! 0%nat = Some _) by (vm_compute; reflexivity).
  destruct (waiting_thread_has_its_event_clear exact env_demo paused_long 0 _
              100 0 (replicate 2000 [0]) [0; 1024]%nat
              (reachable_exec_all _ _ _ _ (reachable_exec_all _ _ _ _ (reachable_init _ _)))
              Hl eq_refl) as (E & _ & S).
  split; [| exact S]. unfold pause_is_set. rewrite Hl. exact E.
Defined.
